(** * snapcast-backend: the podcast assembler of [src/main.py]

    A shallow embedding of the credential rotation, the token cache, the
    synthesis client with its retries, the emotion-annotation parser and the
    timeline compositor, followed by the properties the specification states
    about them.  [src/research.py] carries the same functions verbatim. *)

From Stdlib Require Import ZArith QArith Strings.String Strings.Ascii Strings.Byte.
From stdpp Require Import base decidable option list gmap.

Local Open Scope Z_scope.

(** ** Python strings

    A Python [str] is a sequence of Unicode code points.  The regular
    expressions of the source work on code points, so a string is modelled as
    a list of code-point numbers; ASCII literals are read from Rocq strings. *)

Abbreviation pystr := (list N).

Definition py (s : string) : pystr := (λ a, N_of_ascii a) <$> list_ascii_of_string s.

(** [Py_UNICODE_ISSPACE]: the test behind both [\s] of a [str] pattern and
    [str.strip()]. *)
Definition is_space (c : N) : bool :=
  ((9 <=? c) && (c <=? 13) || (28 <=? c) && (c <=? 32) || (c =? 133) || (c =? 160)
   || (c =? 5760) || (8192 <=? c) && (c <=? 8202) || (c =? 8232) || (c =? 8233)
   || (c =? 8239) || (c =? 8287) || (c =? 12288))%N.

Definition LBRACKET : N := 91.
Definition RBRACKET : N := 93.
Definition SPACE : N := 32.

(** [bool(x)] for the values the source tests with [if x:] / [if not x:]. *)
Definition truthy {A} (x : option (list A)) : bool :=
  match x with
  | Some (_ :: _) => true
  | _ => false
  end.

(** [str.strip()] with no argument. *)
Fixpoint lstrip (s : pystr) : pystr :=
  match s with
  | c :: s' => if is_space c then lstrip s' else s
  | [] => []
  end.

Definition strip (s : pystr) : pystr := rev (lstrip (rev (lstrip s))).

(** ** The fragment of [re] the source uses

    Both patterns of the source are sequences of character-class items, each
    taken once or greedily one-or-more times, with at most one capturing
    group.  Every item consumes at least one character. *)
Module Re.

Inductive cset :=
| Is (c : N)          (* an escaped literal such as \[ *)
| IsNot (c : N)       (* [^c] *)
| Whitespace.         (* \s *)

Definition mem (cs : cset) (c : N) : bool :=
  match cs with
  | Is d => (c =? d)%N
  | IsNot d => negb (c =? d)%N
  | Whitespace => is_space c
  end.

Inductive item :=
| Single (cs : cset)
| OneOrMore (cs : cset)     (* cs+ , greedy *)
| GroupOpen
| GroupClose.

Definition pattern := list item.

(** What the matcher has captured so far: whether the group is open and the
    text of group 1. *)
Record capture := { is_open : bool; group : pystr }.

Definition no_capture : capture := {| is_open := false; group := [] |}.

Definition take (cap : capture) (c : N) : capture :=
  if is_open cap then {| is_open := true; group := group cap ++ [c] |} else cap.

(** A backtracking match anchored at the head of [s]: the capture and the
    unconsumed rest.  [OneOrMore] first tries to take one more character
    and falls back to the rest of the pattern. *)
Fixpoint match_here (p : pattern) (s : pystr) (cap : capture) : option (capture * pystr) :=
  match p with
  | [] => Some (cap, s)
  | Single cs :: p' =>
      match s with
      | c :: s' => if mem cs c then match_here p' s' (take cap c) else None
      | [] => None
      end
  | OneOrMore cs :: p' =>
      (fix more (s : pystr) (cap : capture) : option (capture * pystr) :=
         match s with
         | c :: s' =>
             if mem cs c then
               match more s' (take cap c) with
               | Some r => Some r
               | None => match_here p' s' (take cap c)
               end
             else None
         | [] => None
         end) s cap
  | GroupOpen :: p' => match_here p' s {| is_open := true; group := group cap |}
  | GroupClose :: p' => match_here p' s {| is_open := false; group := group cap |}
  end.

(** [re.findall] for a pattern with one group: scan left to right; a match
    at the current position yields group 1 and the scan resumes after the
    match ([skip] counts the characters of the match still to pass). *)
Fixpoint findall_from (p : pattern) (s : pystr) (skip : nat) : list pystr :=
  match s with
  | [] => []
  | _ :: s' =>
      match skip with
      | S k => findall_from p s' k
      | O =>
          match match_here p s no_capture with
          | Some (cap, rest) =>
              group cap :: findall_from p s' (length s - length rest - 1)
          | None => findall_from p s' 0
          end
      end
  end.

Definition findall (p : pattern) (s : pystr) : list pystr := findall_from p s 0.

(** [re.sub] with a constant replacement. *)
Fixpoint sub_from (p : pattern) (repl : pystr) (s : pystr) (skip : nat) : pystr :=
  match s with
  | [] => []
  | c :: s' =>
      match skip with
      | S k => sub_from p repl s' k
      | O =>
          match match_here p s no_capture with
          | Some (_, rest) => repl ++ sub_from p repl s' (length s - length rest - 1)
          | None => c :: sub_from p repl s' 0
          end
      end
  end.

Definition sub (p : pattern) (repl : pystr) (s : pystr) : pystr := sub_from p repl s 0.

End Re.

(** ** EmotionAnnotationParser: [extract_emotion_and_text] *)

(** r'\[([^\]]+)\]' *)
Definition emotion_pattern : Re.pattern :=
  [Re.Single (Re.Is LBRACKET); Re.GroupOpen; Re.OneOrMore (Re.IsNot RBRACKET);
   Re.GroupClose; Re.Single (Re.Is RBRACKET)].

(** r'\s+' *)
Definition whitespace_pattern : Re.pattern := [Re.OneOrMore Re.Whitespace].

Definition extract_emotion_and_text (text : pystr) : list pystr * pystr :=
  let emotions := Re.findall emotion_pattern text in
  let cleaned_text := Re.sub emotion_pattern [] text in
  let cleaned_text := strip (Re.sub whitespace_pattern [SPACE] cleaned_text) in
  (emotions, cleaned_text).

(** ** Module-level state, remote services and effects *)

Abbreviation bytes := (list byte).

Record Account := { email : pystr; password : pystr }.

(** The globals of the module ([accounts], [current_account_index],
    [tts_request_count], [current_token]) and the number of remote calls
    answered so far, which indexes the responses of the remote services. *)
Record World := {
  accounts : list Account;
  current_account_index : nat;
  tts_request_count : nat;
  current_token : option pystr;
  answered : nat
}.

Inductive exn := ZeroDivisionError | IndexError | KeyError | TypeError | RemoteError.

Inductive result (A : Type) :=
| Ret (a : A)
| Raise (e : exn).
Arguments Ret {A} a.
Arguments Raise {A} e.

Record VoiceSettings := {
  vs_stability : Q;
  vs_similarity_boost : Q;
  vs_style : Q;
  vs_use_speaker_boost : bool
}.

(** What leaves the process.  [SynthesisPost] also records the value of
    [current_account_index] at the time the request is sent (the identity
    the request originates from) and the loop's [attempt], which the source
    prints with every POST.  [TokenOK] is the line printed when a sign-in
    succeeds, with the account's email and the token that is cached. *)
Inductive event :=
| IdentityPost (api_key : pystr) (email password : pystr)
| SynthesisPost (account attempt : nat) (token : pystr) (text voice_id : pystr)
                (stability : Q) (use_speaker_boost : bool)
| Convert (voice_id text : pystr) (voice_settings : VoiceSettings)
| Sleep (seconds : Z)
| TokenOK (email token : pystr).

(** Answer of the identity service to one sign-in POST. *)
Inductive identity_response :=
| IdToken (idToken : pystr)      (* status 200 carrying idToken *)
| IdNoToken                      (* status 200, a JSON object without idToken *)
| IdNotObject                    (* status 200, JSON that is not an object *)
| IdStatus                       (* any other status *)
| IdRequestException.            (* requests.exceptions.RequestException, also
                                    the one [r.json()] raises on a body that
                                    is not JSON *)

(** Answer of the streaming synthesis endpoint to one POST. *)
Inductive synthesis_response :=
| Audio (audio_bytes : bytes)    (* status 200, the chunks concatenated *)
| SynStatus                      (* any other status *)
| SynRequestException.           (* transport error, also while streaming *)

(** Everything the run does not control: the environment variable, the
    answer to the n-th remote call, and the mp3 decoder, which gives the
    length of a clip in milliseconds or fails. *)
Record Remote := {
  FIREBASE_API_KEY : option pystr;
  identity_service : nat → identity_response;
  synthesis_service : nat → synthesis_response;
  convert_service : nat → result bytes;
  from_mp3 : bytes → result N
}.

(** A computation reads and updates the globals, emits events, and returns
    or raises. *)
Record Outcome (A : Type) := {
  value : result A;
  world : World;
  events : list event
}.
Arguments value {A} _.
Arguments world {A} _.
Arguments events {A} _.

Definition M (A : Type) : Type := World → Outcome A.

Definition ret {A} (a : A) : M A :=
  λ w, {| value := Ret a; world := w; events := [] |}.

Definition raise {A} (e : exn) : M A :=
  λ w, {| value := Raise e; world := w; events := [] |}.

Definition bind {A B} (m : M A) (k : A → M B) : M B :=
  λ w,
    let o := m w in
    match value o with
    | Ret a =>
        let o' := k a (world o) in
        {| value := value o'; world := world o'; events := events o ++ events o' |}
    | Raise e => {| value := Raise e; world := world o; events := events o |}
    end.

Global Instance M_ret : MRet M := @ret.
Global Instance M_bind : MBind M := λ A B k m, bind m k.

Definition get : M World := λ w, {| value := Ret w; world := w; events := [] |}.

Definition put (w : World) : M unit := λ _, {| value := Ret tt; world := w; events := [] |}.

Definition emit (e : event) : M unit :=
  λ w, {| value := Ret tt; world := w; events := [e] |}.

(** The index of the next remote answer; the call is then counted. *)
Definition next_answer : M nat :=
  λ w, {| value := Ret (answered w);
          world := {| accounts := accounts w;
                      current_account_index := current_account_index w;
                      tts_request_count := tts_request_count w;
                      current_token := current_token w;
                      answered := S (answered w) |};
          events := [] |}.

Definition sleep (seconds : Z) : M unit := emit (Sleep seconds).

(** ** CredentialPool *)

Definition get_current_account : M (option Account) :=
  w ← get;
  match accounts w with
  | [] => ret None
  | _ =>
      match accounts w !! current_account_index w with
      | Some a => ret (Some a)
      | None => raise IndexError
      end
  end.

Definition rotate_account : M unit :=
  w ← get;
  match accounts w with
  | [] => raise ZeroDivisionError
  | _ =>
      put {| accounts := accounts w;
             current_account_index :=
               (current_account_index w + 1) mod length (accounts w);
             tts_request_count := 0;
             current_token := None;
             answered := answered w |} ;;
      account ← get_current_account;
      match account with
      | Some _ => ret tt
      | None => raise TypeError
      end
  end%nat.

Definition should_rotate_account : M bool :=
  w ← get; ret (2 <=? tts_request_count w)%nat.

Definition increment_tts_count : M unit :=
  w ← get;
  put {| accounts := accounts w;
         current_account_index := current_account_index w;
         tts_request_count := tts_request_count w + 1;
         current_token := current_token w;
         answered := answered w |}.

Definition set_current_token (token : option pystr) : M unit :=
  w ← get;
  put {| accounts := accounts w;
         current_account_index := current_account_index w;
         tts_request_count := tts_request_count w;
         current_token := token;
         answered := answered w |}.

(** ** TokenCache and IdentityClient: [get_firebase_token] *)

Section Client.

Variable R : Remote.

(** [if attempt < max_retries - 1: time.sleep(retry_delay)], the tail of
    both failure branches of both retry loops. *)
Definition wait_before_retry (attempt max_retries : nat) (retry_delay : Z) : M unit :=
  if (attempt <? max_retries - 1)%nat then sleep retry_delay else ret tt.

(** One [requests.post] to the sign-in endpoint. *)
Definition identity_post (api_key : pystr) (account : Account) : M identity_response :=
  emit (IdentityPost api_key (email account) (password account)) ;;
  n ← next_answer;
  ret (identity_service R n).

(** [for attempt in range(max_retries)] of [get_firebase_token], from
    [attempt] on with [remaining] iterations left. *)
Fixpoint firebase_attempts (max_retries : nat) (retry_delay : Z) (api_key : pystr)
    (account : Account) (remaining attempt : nat) : M (option pystr) :=
  match remaining with
  | O => ret None
  | S remaining' =>
      r ← identity_post api_key account;
      match r with
      | IdToken token =>
          set_current_token (Some token) ;;
          emit (TokenOK (email account) token) ;;
          ret (Some token)
      | IdNoToken => raise KeyError
      | IdNotObject => raise TypeError
      | IdStatus | IdRequestException =>
          wait_before_retry attempt max_retries retry_delay ;;
          firebase_attempts max_retries retry_delay api_key account remaining' (S attempt)
      end
  end.

Definition get_firebase_token : M (option pystr) :=
  w ← get;
  if truthy (current_token w) then ret (current_token w)
  else
    account ← get_current_account;
    match account with
    | None => ret None
    | Some account =>
        if truthy (FIREBASE_API_KEY R) then
          let max_retries := 3%nat in
          let retry_delay := 3 in
          firebase_attempts max_retries retry_delay (default [] (FIREBASE_API_KEY R))
            account max_retries 0
        else ret None
    end.

(** ** SynthesisClient: [text_to_speech_v3] *)

(** The stability setting derived from the emotion markers. *)
Definition stability_of (emotions : option (list pystr)) : Q :=
  if truthy emotions then
    let emotions := default [] emotions in
    if existsb (λ emotion,
         bool_decide (emotion ∈ [py "excited"; py "dramatic"; py "nervous"])) emotions
    then 0
    else if existsb (λ emotion,
         bool_decide (emotion ∈ [py "whispers"; py "serious"; py "thoughtful"])) emotions
    then 1
    else 1 # 2
  else 1 # 2.

(** One [requests.post] to the text-to-dialogue endpoint. *)
Definition synthesis_post (attempt : nat) (token text voice_id : pystr) (stability : Q) :
    M synthesis_response :=
  w ← get;
  emit (SynthesisPost (current_account_index w) attempt token text voice_id stability
          true) ;;
  n ← next_answer;
  ret (synthesis_service R n).

(** [for attempt in range(max_retries)] of [text_to_speech_v3]. *)
Fixpoint synthesis_attempts (max_retries : nat) (retry_delay : Z)
    (token text voice_id : pystr) (stability : Q) (remaining attempt : nat) :
    M (option bytes) :=
  match remaining with
  | O => ret None
  | S remaining' =>
      r ← synthesis_post attempt token text voice_id stability;
      match r with
      | Audio audio_bytes => ret (Some audio_bytes)
      | SynStatus | SynRequestException =>
          wait_before_retry attempt max_retries retry_delay ;;
          synthesis_attempts max_retries retry_delay token text voice_id stability
            remaining' (S attempt)
      end
  end.

Definition text_to_speech_v3 (text voice_id : pystr) (emotions : option (list pystr)) :
    M (option bytes) :=
  rotate ← should_rotate_account;
  (if rotate : bool then rotate_account else ret tt) ;;
  token ← get_firebase_token;
  if negb (truthy token) then ret None
  else
    let token := default [] token in
    let stability := stability_of emotions in
    increment_tts_count ;;
    let max_retries := 5%nat in
    let retry_delay := 15 in
    synthesis_attempts max_retries retry_delay token text voice_id stability max_retries 0.

(** ** TimelineCompositor and PodcastAssembler: [create_and_mix_audio] *)

(** A decoded clip: the mp3 data and [len(speech_segment)] in milliseconds. *)
Record SpeechSegment := { mp3 : bytes; len : N }.

(** The canvas, kept symbolically: silence and the overlays applied to it. *)
Inductive AudioSegment :=
| silent (duration : Z)
| overlay (base : AudioSegment) (seg : SpeechSegment) (position : Z).

(** The two variables the loop carries. *)
Record Timeline := { final_podcast : AudioSegment; previous_end_time : Z }.

Record Segment := { type : pystr; speaker : pystr; text : pystr; start_time : Z }.

Definition VOICE_MAPPING : gmap pystr pystr :=
  list_to_map
    [ ([51652; 54665; 51088]%N, py "mgugV8tLa3KQE4mfYTw5");
      ([45224; 51088; 44172; 49828; 53944]%N, py "K3qo7ugXmpT87FDhLBbN");
      ([50668; 51088; 44172; 49828; 53944]%N, py "KlstlYt9VVf3zgie2Oht") ].

Definition default_voice_settings : VoiceSettings :=
  {| vs_stability := 1 # 2; vs_similarity_boost := 3 # 4; vs_style := 0;
     vs_use_speaker_boost := true |}.

(** [client.text_to_speech.convert(...)] joined into bytes. *)
Definition convert (voice_id text : pystr) (voice_settings : VoiceSettings) : M bytes :=
  emit (Convert voice_id text voice_settings) ;;
  n ← next_answer;
  match convert_service R n with
  | Ret audio_bytes => ret audio_bytes
  | Raise e => raise e
  end.

(** The file is written and read back by the decoder. *)
Definition load_mp3 (audio_bytes : bytes) : M SpeechSegment :=
  match from_mp3 R audio_bytes with
  | Ret n => ret {| mp3 := audio_bytes; len := n |}
  | Raise e => raise e
  end.

(** Lines 418-422: the placement of one clip. *)
Definition place (tl : Timeline) (speech_segment : SpeechSegment) (start_time_ms : Z) :
    Timeline :=
  let adjusted_start_time := Z.max start_time_ms (previous_end_time tl + 500) in
  {| final_podcast := overlay (final_podcast tl) speech_segment adjusted_start_time;
     previous_end_time := adjusted_start_time + Z.of_N (len speech_segment) |}.

(** The body of the [try] block for a dialogue segment with a voice. *)
Definition synthesize_and_place (tl : Timeline) (cleaned_text voice_id : pystr)
    (emotions : list pystr) (start_time_ms : Z) : M Timeline :=
  audio_bytes ← text_to_speech_v3 cleaned_text voice_id (Some emotions);
  audio_bytes ←
    (if negb (truthy audio_bytes)
     then convert voice_id cleaned_text default_voice_settings
     else ret (default [] audio_bytes));
  speech_segment ← load_mp3 audio_bytes;
  ret (place tl speech_segment start_time_ms).

(** [try: ... except Exception: print(...)]: the loop variables stay as
    they were when the block raises. *)
Definition try_except {A} (m : M A) (otherwise : A) : M A :=
  λ w,
    let o := m w in
    match value o with
    | Ret a => o
    | Raise _ => {| value := Ret otherwise; world := world o; events := events o |}
    end.

(** One iteration of the loop over [script["segments"]]. *)
Definition process_segment (tl : Timeline) (segment : Segment) : M Timeline :=
  let start_time_ms := start_time segment * 1000 in
  if bool_decide (type segment = py "dialogue") then
    let '(emotions, cleaned_text) := extract_emotion_and_text (text segment) in
    let voice_id := VOICE_MAPPING !! speaker segment in
    if negb (truthy voice_id) then ret tl
    else
      try_except
        (synthesize_and_place tl cleaned_text (default [] voice_id) emotions start_time_ms)
        tl
  else ret tl.

Fixpoint mix_segments (tl : Timeline) (segments : list Segment) : M Timeline :=
  match segments with
  | [] => ret tl
  | segment :: segments' =>
      tl' ← process_segment tl segment;
      mix_segments tl' segments'
  end.

Definition initial_duration_ms : Z := 300000.

Definition initial_timeline : Timeline :=
  {| final_podcast := silent initial_duration_ms; previous_end_time := 0 |}.

(** [create_and_mix_audio] from the loop on: the script is not empty and
    the fallback client has been constructed. *)
Definition create_and_mix_audio (segments : list Segment) : M Timeline :=
  mix_segments initial_timeline segments.

(** A run of synthesis calls, each guarded as in the assembler's [try]. *)
Fixpoint synthesis_calls (calls : list (pystr * pystr * list pystr)) :
    M (list (result (option bytes))) :=
  match calls with
  | [] => ret []
  | (text, voice_id, emotions) :: calls' =>
      r ← (λ w, let o := text_to_speech_v3 text voice_id (Some emotions) w in
                {| value := Ret (value o); world := world o; events := events o |});
      rs ← synthesis_calls calls';
      ret (r :: rs)
  end.

End Client.

(** The globals as the module initialises them, once [load_accounts] has
    filled [accounts]. *)
Definition initial_world (accounts : list Account) : World :=
  {| accounts := accounts; current_account_index := 0; tts_request_count := 0;
     current_token := None; answered := 0 |}.

(** ** The parser as a single pass

    A single pass over the text.  Outside a marker, an opening bracket starts
    one; inside, the marker runs up to the nearest closing bracket
    (non-greedy).  [scan] takes a marker only when it holds at least one
    character, as the [+] of the pattern does: an empty pair is ordinary
    text, and so is an opening bracket that finds no closing bracket. *)
Fixpoint scan (s : pystr) (pending : option pystr) : list pystr * pystr :=
  match s with
  | [] =>
      match pending with
      | None => ([], [])
      | Some acc => ([], LBRACKET :: acc)
      end
  | c :: s' =>
      match pending with
      | None =>
          if (c =? LBRACKET)%N then scan s' (Some [])
          else let '(markers, clean) := scan s' None in (markers, c :: clean)
      | Some acc =>
          if (c =? RBRACKET)%N then
            let '(markers, clean) := scan s' None in
            match acc with
            | [] => (markers, LBRACKET :: RBRACKET :: clean)
            | _ => (acc :: markers, clean)
            end
          else scan s' (Some (acc ++ [c]))
      end
  end.

Definition markers_of (s : pystr) : list pystr := fst (scan s None).

Definition without_markers (s : pystr) : pystr := snd (scan s None).

(** Every run of whitespace becomes one space. *)
Fixpoint collapse_whitespace (s : pystr) : pystr :=
  match s with
  | [] => []
  | c :: s' =>
      if is_space c then
        match s' with
        | c' :: _ => if is_space c' then collapse_whitespace s' else SPACE :: collapse_whitespace s'
        | [] => [SPACE]
        end
      else c :: collapse_whitespace s'
  end.

(** The parser in the specification's words: every substring enclosed in a
    bracket pair is a marker, the empty one of an empty pair included, and
    every pair is removed from the text. *)
Fixpoint scan_every_pair (s : pystr) (pending : option pystr) : list pystr * pystr :=
  match s with
  | [] =>
      match pending with
      | None => ([], [])
      | Some acc => ([], LBRACKET :: acc)
      end
  | c :: s' =>
      match pending with
      | None =>
          if (c =? LBRACKET)%N then scan_every_pair s' (Some [])
          else let '(markers, clean) := scan_every_pair s' None in (markers, c :: clean)
      | Some acc =>
          if (c =? RBRACKET)%N then
            let '(markers, clean) := scan_every_pair s' None in (acc :: markers, clean)
          else scan_every_pair s' (Some (acc ++ [c]))
      end
  end.

Definition parse_as_specified (text : pystr) : list pystr * pystr :=
  let '(markers, clean) := scan_every_pair text None in
  (markers, strip (collapse_whitespace clean)).

(** The text holds a bracketed marker somewhere. *)
Definition has_marker (s : pystr) : Prop :=
  ∃ pre m post, s = pre ++ LBRACKET :: m ++ RBRACKET :: post ∧ m ≠ [] ∧ RBRACKET ∉ m.

(** ** Reading the event log *)

(** The synthesis POSTs of a log, each with the number of the request it
    belongs to and the account it was sent under.  A request is counted at
    its first attempt; [n] requests were counted before. *)
Fixpoint origins (evs : list event) (n : nat) : list (nat * nat) :=
  match evs with
  | SynthesisPost account attempt _ _ _ _ _ :: evs' =>
      let n' := match attempt with O => S n | _ => n end in
      (n', account) :: origins evs' n'
  | _ :: evs' => origins evs' n
  | [] => []
  end.

Definition is_synthesis_post (e : event) : bool :=
  match e with SynthesisPost _ _ _ _ _ _ _ => true | _ => false end.

Definition is_identity_post (e : event) : bool :=
  match e with IdentityPost _ _ _ => true | _ => false end.

Definition is_convert (e : event) : bool :=
  match e with Convert _ _ _ => true | _ => false end.

(** The clips overlaid on a canvas, first placed first: offset and clip. *)
Fixpoint placements (a : AudioSegment) : list (Z * SpeechSegment) :=
  match a with
  | silent _ => []
  | overlay base seg position => placements base ++ [(position, seg)]
  end.

(** The text up to the nearest closing bracket, and what follows it. *)
Fixpoint until_close (s : pystr) : option (pystr * pystr) :=
  match s with
  | [] => None
  | c :: s' =>
      if (c =? RBRACKET)%N then Some ([], s')
      else
        match until_close s' with
        | Some (m, post) => Some (c :: m, post)
        | None => None
        end
  end.

(** ** Vocabulary of the statements *)

(** The part of the globals that only a rotation or a counted request
    changes. *)
Definition same_pool (w w' : World) : Prop :=
  accounts w' = accounts w
  ∧ current_account_index w' = current_account_index w
  ∧ tts_request_count w' = tts_request_count w.

(** Events that are neither a synthesis POST nor a fallback call. *)
Definition quiet (evs : list event) : Prop :=
  Forall (λ e, is_synthesis_post e = false ∧ is_convert e = false) evs.

Definition synthesis_failed (r : synthesis_response) : Prop :=
  match r with
  | Audio _ => False
  | SynStatus | SynRequestException => True
  end.

(** [count] consecutive attempts of one request, numbered from [attempt]. *)
Definition posts_from (account : nat) (token text voice_id : pystr) (stability : Q)
    (attempt count : nat) : list event :=
  (λ k, SynthesisPost account k token text voice_id stability true) <$> seq attempt count.

(** The same POSTs with a wait of [delay] seconds between neighbours. *)
Fixpoint with_delays (delay : Z) (posts : list event) : list event :=
  match posts with
  | [] => []
  | p :: ps =>
      match ps with
      | [] => [p]
      | _ :: _ => p :: Sleep delay :: with_delays delay ps
      end
  end.

Definition answer_more (w : World) (j : nat) : World :=
  {| accounts := accounts w;
     current_account_index := current_account_index w;
     tts_request_count := tts_request_count w;
     current_token := current_token w;
     answered := answered w + j |}.

(** The globals after a rotation. *)
Definition rotated (w : World) : World :=
  {| accounts := accounts w;
     current_account_index := (current_account_index w + 1) mod length (accounts w);
     tts_request_count := 0;
     current_token := None;
     answered := answered w |}.

(** The globals once [text_to_speech_v3] has passed its rotation check. *)
Definition after_rotation_check (w : World) : World :=
  if (2 <=? tts_request_count w)%nat then rotated w else w.

(** The number of requests a log holds: synthesis POSTs with attempt 0. *)
Fixpoint first_attempts (evs : list event) : nat :=
  match evs with
  | SynthesisPost _ O _ _ _ _ _ :: evs' => S (first_attempts evs')
  | _ :: evs' => first_attempts evs'
  | [] => O
  end.

(** After [n] requests the cursor has rotated [r] times and the counter
    holds the requests made since. *)
Definition on_schedule (w : World) (n : nat) : Prop :=
  ∃ r, n = (2 * r + tts_request_count w)%nat
     ∧ (tts_request_count w ≤ 2)%nat
     ∧ current_account_index w = (r mod length (accounts w))%nat.

Definition returned_audio (r : result (option bytes)) : bool :=
  match r with
  | Ret (Some _) => true
  | _ => false
  end.

(** A request numbered [N] sent under [account] follows the schedule of a
    pool of [P] identities. *)
Definition scheduled (P : nat) (post : nat * nat) : Prop :=
  (1 ≤ post.1)%nat ∧ post.2 = (((post.1 - 1) / 2) mod P)%nat.

Definition high_energy : list pystr := [py "excited"; py "dramatic"; py "nervous"].

Definition composed : list pystr := [py "whispers"; py "serious"; py "thoughtful"].

Definition intersects (markers set : list pystr) : Prop := ∃ m, m ∈ markers ∧ m ∈ set.

(** The stability a synthesis POST carries. *)
Definition sent_stability (e : event) : option Q :=
  match e with
  | SynthesisPost _ _ _ _ _ stability _ => Some stability
  | _ => None
  end.

(** Consecutive clips are at least 500 ms apart. *)
Definition gapped (l : list (Z * SpeechSegment)) : Prop :=
  ∀ n p1 c1 p2 c2,
    l !! n = Some (p1, c1) → l !! S n = Some (p2, c2) →
    p1 + Z.of_N (len c1) + 500 ≤ p2.

(** What the loop keeps true of its two variables. *)
Definition settled (tl : Timeline) : Prop :=
  gapped (placements (final_podcast tl))
  ∧ (∀ p c, last (placements (final_podcast tl)) = Some (p, c) →
            previous_end_time tl = p + Z.of_N (len c))
  ∧ Forall (λ pc, 500 ≤ pc.1) (placements (final_podcast tl))
  ∧ 0 ≤ previous_end_time tl.

(** The sign-in in force after a log: the last [TokenOK], if any. *)
Fixpoint login_after (login : option (pystr * pystr)) (evs : list event) :
    option (pystr * pystr) :=
  match evs with
  | TokenOK email token :: evs' => login_after (Some (email, token)) evs'
  | _ :: evs' => login_after login evs'
  | [] => login
  end.

(** Every synthesis POST of the log carries the token of the latest
    successful sign-in, and that sign-in was made for the account the POST
    is recorded under. *)
Fixpoint authentic (accs : list Account) (login : option (pystr * pystr))
    (evs : list event) : Prop :=
  match evs with
  | TokenOK email token :: evs' => authentic accs (Some (email, token)) evs'
  | SynthesisPost account _ token _ _ _ _ :: evs' =>
      (∃ a, accs !! account = Some a ∧ login = Some (email a, token))
      ∧ authentic accs login evs'
  | _ :: evs' => authentic accs login evs'
  | [] => True
  end.

(** The cached token, if any, is the one of the sign-in in force, made for
    the current account. *)
Definition linked (w : World) (login : option (pystr * pystr)) : Prop :=
  ∀ t, current_token w = Some t →
       ∃ a, accounts w !! current_account_index w = Some a ∧ login = Some (email a, t).

(** The globals once the request has been counted. *)
Definition counted (w : World) : World :=
  {| accounts := accounts w;
     current_account_index := current_account_index w;
     tts_request_count := tts_request_count w + 1;
     current_token := current_token w;
     answered := answered w |}.

(** ** Fixtures *)

Definition three_accounts : list Account :=
  [ {| email := py "a@example.com"; password := py "pa" |};
    {| email := py "b@example.com"; password := py "pb" |};
    {| email := py "c@example.com"; password := py "pc" |} ].

(** Every remote call succeeds; every clip lasts 1.2 s. *)
Definition R_always_ok : Remote :=
  {| FIREBASE_API_KEY := Some (py "key");
     identity_service := λ n, IdToken (py "token");
     synthesis_service := λ n, Audio ["x"%byte];
     convert_service := λ n, Ret ["y"%byte];
     from_mp3 := λ b, Ret 1200%N |}.

(** Every third remote call succeeds, the others are refused. *)
Definition R_flaky : Remote :=
  {| FIREBASE_API_KEY := Some (py "key");
     identity_service := λ n, if (n mod 3 =? 2)%nat then IdToken (py "token") else IdStatus;
     synthesis_service := λ n, if (n mod 3 =? 2)%nat then Audio ["x"%byte] else SynStatus;
     convert_service := λ n, Raise RemoteError;
     from_mp3 := λ b, Ret 1200%N |}.

(** The synthesis endpoint refuses every request; the fallback answers. *)
Definition R_primary_down : Remote :=
  {| FIREBASE_API_KEY := Some (py "key");
     identity_service := λ n, IdToken (py "token");
     synthesis_service := λ n, SynStatus;
     convert_service := λ n, Ret ["y"%byte];
     from_mp3 := λ b, Ret 1200%N |}.

Definition seven_calls : list (pystr * pystr * list pystr) :=
  replicate 7 (py "hello", py "mgugV8tLa3KQE4mfYTw5", [py "excited"]).

(** The first sign-in is refused three times, later ones succeed. *)
Definition R_first_login_refused : Remote :=
  {| FIREBASE_API_KEY := Some (py "key");
     identity_service := λ n, if (n <? 3)%nat then IdStatus else IdToken (py "token");
     synthesis_service := λ n, Audio ["x"%byte];
     convert_service := λ n, Ret ["y"%byte];
     from_mp3 := λ b, Ret 1200%N |}.

(** Neither the synthesis endpoint nor the fallback answers. *)
Definition R_all_down : Remote :=
  {| FIREBASE_API_KEY := Some (py "key");
     identity_service := λ n, IdToken (py "token");
     synthesis_service := λ n, SynRequestException;
     convert_service := λ n, Raise RemoteError;
     from_mp3 := λ b, Ret 1200%N |}.

(** A line of the host, planned at second 2. *)
Definition host_line : Segment :=
  {| type := py "dialogue"; speaker := [51652; 54665; 51088]%N;
     text := py "[excited] hello  there"; start_time := 2 |}.

(** A line of a guest, planned at second 3: before the host's clip ends. *)
Definition guest_line : Segment :=
  {| type := py "dialogue"; speaker := [45224; 51088; 44172; 49828; 53944]%N;
     text := py "[whispers] hi"; start_time := 3 |}.

(** A line of a speaker the voice mapping does not know. *)
Definition stranger_line : Segment :=
  {| type := py "dialogue"; speaker := py "AI"; text := py "[confident] hello";
     start_time := 1 |}.

(** The host's first line planned at second 0. *)
Definition opening_line : Segment :=
  {| type := py "dialogue"; speaker := [51652; 54665; 51088]%N;
     text := py "[cheerful] welcome"; start_time := 0 |}.

(** ** CredentialPool: [load_accounts] *)

Definition COLON : N := 58.
Definition NEWLINE : N := 10.

(** [line.split(sep, 1)] for a line that holds [sep]: what precedes the
    first occurrence and what follows it. *)
Fixpoint split_once (sep : N) (s : pystr) : pystr * pystr :=
  match s with
  | [] => ([], [])
  | c :: s' =>
      if (c =? sep)%N then ([], s')
      else let '(before, after) := split_once sep s' in (c :: before, after)
  end.

(** What [open] and the iteration over the file give: [open] raises, or the
    file yields [lines]; with [complete = false] the iteration raises after
    them. *)
Inductive auth_file :=
| CannotOpen
| Readable (lines : list pystr) (complete : bool).

(** The body of [for line in f]: the account a line adds, if any. *)
Definition parse_auth_line (line : pystr) : option Account :=
  let line := strip line in
  if truthy (Some line) && bool_decide (COLON ∈ line) then
    let '(email_part, password_part) := split_once COLON line in
    Some {| email := strip email_part; password := strip password_part |}
  else None.

Definition set_accounts (accs : list Account) : M unit :=
  w ← get;
  put {| accounts := accs;
         current_account_index := current_account_index w;
         tts_request_count := tts_request_count w;
         current_token := current_token w;
         answered := answered w |}.

Definition load_accounts (f : auth_file) : M bool :=
  match f with
  | CannotOpen => ret false
  | Readable lines complete =>
      set_accounts (omap parse_auth_line lines) ;;
      if complete then w ← get; ret (0 <? length (accounts w))%nat
      else ret false
  end.

(** The line [load_accounts] reads an account from. *)
Definition auth_line (a : Account) : pystr :=
  email a ++ COLON :: password a ++ [NEWLINE].

(** ** Script generation: the text handed to [json.loads] *)

Definition LBRACE : N := 123.
Definition RBRACE : N := 125.
Definition BACKTICK : N := 96.

(** [s.find(c)]: the index of the first [c], or -1. *)
Fixpoint find (c : N) (s : pystr) : Z :=
  match s with
  | [] => -1
  | x :: s' =>
      if (x =? c)%N then 0
      else let i := find c s' in if i =? -1 then -1 else i + 1
  end.

(** [s.rfind(c)]: the index of the last [c], or -1. *)
Definition rfind (c : N) (s : pystr) : Z :=
  let i := find c (rev s) in
  if i =? -1 then -1 else Z.of_nat (length s) - 1 - i.

(** [s[a:b]] for indices that are not negative. *)
Definition slice (s : pystr) (a b : Z) : pystr :=
  take (Z.to_nat (b - a)) (drop (Z.to_nat a) s).

Fixpoint starts_with (pat s : pystr) : bool :=
  match pat, s with
  | [], _ => true
  | p :: pat', c :: s' => (c =? p)%N && starts_with pat' s'
  | _ :: _, [] => false
  end.

(** [s.replace(old, new)] for a non-empty [old]: the occurrences are taken
    from the left and do not overlap. *)
Fixpoint replace_from (old new s : pystr) (skip : nat) : pystr :=
  match s with
  | [] => []
  | c :: s' =>
      match skip with
      | S k => replace_from old new s' k
      | O =>
          if starts_with old s then new ++ replace_from old new s' (length old - 1)
          else c :: replace_from old new s' 0
      end
  end.

Definition replace (old new s : pystr) : pystr := replace_from old new s 0.

(** [main.py], line 125. *)
Definition fenced_json_text (text : pystr) : pystr :=
  replace (py "```") [] (replace (py "```json") [] (strip text)).

(** [research.py], lines 96-106 and 199-209. *)
Definition extract_json_text (text : pystr) : pystr :=
  let response_text := strip text in
  let json_start := find LBRACE response_text in
  let json_end := rfind RBRACE response_text + 1 in
  if negb (json_start =? -1) && negb (json_end =? -1) then
    slice response_text json_start json_end
  else
    strip (replace (py "```") [] (replace (py "```json") [] response_text)).

(** ** Vocabulary of the further statements *)

Definition rstrip (s : pystr) : pystr := rev (lstrip (rev s)).

Definition identity_refused (r : identity_response) : Prop :=
  match r with
  | IdStatus | IdRequestException => True
  | IdToken _ | IdNoToken | IdNotObject => False
  end.

(** The exception [r.json()['idToken']] raises on a 200 answer that carries
    no idToken. *)
Definition malformed_sign_in (e : exn) (r : identity_response) : Prop :=
  e = KeyError ∧ r = IdNoToken ∨ e = TypeError ∧ r = IdNotObject.

(** The seconds a log spends in [time.sleep]. *)
Fixpoint total_sleep (evs : list event) : Z :=
  match evs with
  | Sleep seconds :: evs' => seconds + total_sleep evs'
  | _ :: evs' => total_sleep evs'
  | [] => 0
  end.

(** A segment the loop synthesizes: a dialogue line of a mapped speaker. *)
Definition speaks (segment : Segment) : bool :=
  bool_decide (type segment = py "dialogue") && truthy (VOICE_MAPPING !! speaker segment).

(** The text holds three backticks in a row somewhere. *)
Fixpoint has_fence (t : pystr) : bool :=
  match t with
  | [] => false
  | _ :: t' => starts_with (py "```") t || has_fence t'
  end.

(** Every '[' of the text is closed at once or never. *)
Fixpoint brackets_inert (t : pystr) : Prop :=
  match t with
  | [] => True
  | c :: t' => (c = LBRACKET → head t' = Some RBRACKET ∨ RBRACKET ∉ t') ∧ brackets_inert t'
  end.

(** Whitespace occurs only as single spaces. *)
Fixpoint single_spaced (t : pystr) : Prop :=
  match t with
  | [] => True
  | c :: t' =>
      (is_space c = true →
       c = SPACE ∧ match t' with c' :: _ => is_space c' = false | [] => True end)
      ∧ single_spaced t'
  end.

(** The identity service answers 200 with a JSON body that is not an
    object. *)
Definition R_sign_in_not_object : Remote :=
  {| FIREBASE_API_KEY := Some (py "key");
     identity_service := λ n, IdNotObject;
     synthesis_service := λ n, Audio ["x"%byte];
     convert_service := λ n, Ret ["y"%byte];
     from_mp3 := λ b, Ret 1200%N |}.

(** * Properties *)

(** ** The regular expressions, read as scanners *)

Lemma until_close_Some s m post :
  until_close s = Some (m, post) → s = m ++ RBRACKET :: post ∧ RBRACKET ∉ m.
Proof.
  revert m post. induction s as [|c s IH]; intros m post; simpl; [done|].
  destruct (N.eqb_spec c RBRACKET) as [->|Hc].
  - intros [= <- <-]. split; [done | apply not_elem_of_nil].
  - destruct (until_close s) as [[m' post']|] eqn:E; [|done].
    intros [= <- <-]. destruct (IH _ _ eq_refl) as [-> Hm].
    split; [done|]. rewrite elem_of_cons. intros [?|?]; [by subst | done].
Qed.

Lemma until_close_None s : until_close s = None → RBRACKET ∉ s.
Proof.
  induction s as [|c s IH]; simpl; [intros _; apply not_elem_of_nil|].
  destruct (N.eqb_spec c RBRACKET) as [->|Hc]; [done|].
  destruct (until_close s) as [[m' post']|]; [done|].
  intros _. rewrite elem_of_cons. intros [?|?]; [by subst | by apply IH].
Qed.

Lemma until_close_length s m post :
  until_close s = Some (m, post) → length s = (length m + S (length post))%nat.
Proof.
  intros [-> _]%until_close_Some. by rewrite length_app.
Qed.

Lemma match_one_or_more cs p c s cap :
  Re.match_here (Re.OneOrMore cs :: p) (c :: s) cap
  = if Re.mem cs c then
      match Re.match_here (Re.OneOrMore cs :: p) s (Re.take cap c) with
      | Some r => Some r
      | None => Re.match_here p s (Re.take cap c)
      end
    else None.
Proof. reflexivity. Qed.

Lemma match_marker_body s g :
  Re.match_here
    [Re.OneOrMore (Re.IsNot RBRACKET); Re.GroupClose; Re.Single (Re.Is RBRACKET)]
    s {| Re.is_open := true; Re.group := g |}
  = match until_close s with
    | Some (c :: m, post) => Some ({| Re.is_open := false; Re.group := g ++ c :: m |}, post)
    | _ => None
    end.
Proof.
  revert g. induction s as [|c s IH]; intros g; [done|].
  rewrite match_one_or_more. cbn [Re.mem until_close].
  destruct (N.eqb_spec c RBRACKET) as [->|Hc]; [done|]. cbn [negb].
  unfold Re.take. cbn [Re.is_open Re.group]. rewrite IH.
  destruct (until_close s) as [[[|c' m] post]|] eqn:E.
  - apply until_close_Some in E as [-> _]. by cbn.
  - by rewrite <- app_assoc.
  - destruct s as [|c' s]; [done|]. cbn.
    cbn in E. destruct (N.eqb_spec c' RBRACKET); [done|]. done.
Qed.

Lemma match_emotion_pattern s :
  Re.match_here emotion_pattern s Re.no_capture
  = match s with
    | c :: s' =>
        if (c =? LBRACKET)%N then
          match until_close s' with
          | Some (c1 :: m, post) => Some ({| Re.is_open := false; Re.group := c1 :: m |}, post)
          | _ => None
          end
        else None
    | [] => None
    end.
Proof.
  destruct s as [|c s]; [done|].
  unfold emotion_pattern. cbn [Re.match_here Re.mem].
  destruct (c =? LBRACKET)%N; [|done].
  change (Re.take Re.no_capture c) with Re.no_capture.
  cbn [Re.no_capture Re.group]. apply match_marker_body.
Qed.

Lemma findall_from_skip p s k : Re.findall_from p s k = Re.findall_from p (drop k s) 0.
Proof.
  revert k. induction s as [|c s IH]; intros [|k]; try done. simpl. apply IH.
Qed.

Lemma sub_from_skip p repl s k : Re.sub_from p repl s k = Re.sub_from p repl (drop k s) 0.
Proof.
  revert k. induction s as [|c s IH]; intros [|k]; try done. simpl. apply IH.
Qed.

Lemma no_close_no_match s :
  RBRACKET ∉ s →
  Re.findall_from emotion_pattern s 0 = [] ∧ Re.sub_from emotion_pattern [] s 0 = s.
Proof.
  induction s as [|c s IH]; [done|].
  intros [Hc Hs]%not_elem_of_cons. destruct (IH Hs) as [IH1 IH2].
  cbn [Re.findall_from Re.sub_from]. rewrite match_emotion_pattern.
  destruct (c =? LBRACKET)%N.
  - destruct (until_close s) as [[m post]|] eqn:E.
    + apply until_close_Some in E as [-> _]. exfalso. apply Hs.
      apply elem_of_app. right. apply elem_of_cons. by left.
    + by rewrite IH1, IH2.
  - by rewrite IH1, IH2.
Qed.

Lemma scan_inside s acc :
  scan s (Some acc)
  = match until_close s with
    | None => ([], LBRACKET :: acc ++ s)
    | Some (m, post) =>
        let '(markers, clean) := scan post None in
        match acc ++ m with
        | [] => (markers, LBRACKET :: RBRACKET :: clean)
        | am => (am :: markers, clean)
        end
    end.
Proof.
  revert acc. induction s as [|c s IH]; intros acc.
  - simpl. by rewrite app_nil_r.
  - cbn [scan until_close]. destruct (N.eqb_spec c RBRACKET) as [->|Hc].
    + rewrite app_nil_r. destruct (scan s None). by destruct acc.
    + rewrite IH. destruct (until_close s) as [[m post]|].
      * by rewrite <- app_assoc.
      * by rewrite <- app_assoc.
Qed.

(** [re.findall] and [re.sub] with the marker pattern do what the single
    pass does. *)
Lemma regex_scan s :
  Re.findall emotion_pattern s = markers_of s ∧ Re.sub emotion_pattern [] s = without_markers s.
Proof.
  unfold Re.findall, Re.sub, markers_of, without_markers.
  remember (length s) as n eqn:Hn.
  assert (length s ≤ n)%nat as Hle by lia. clear Hn.
  revert s Hle. induction n as [|n IH]; intros [|c s] Hle; try done; [simpl in Hle; lia|].
  simpl in Hle.
  cbn [Re.findall_from Re.sub_from scan]. rewrite match_emotion_pattern.
  destruct (c =? LBRACKET)%N eqn:Hc.
  - apply N.eqb_eq in Hc as ->. rewrite scan_inside.
    destruct (until_close s) as [[[|c1 m] post]|] eqn:E.
    + apply until_close_Some in E as [-> _]. simpl in Hle.
      cbn [app Re.findall_from Re.sub_from]. rewrite match_emotion_pattern.
      change (RBRACKET =? LBRACKET)%N with false. cbn iota.
      destruct (IH post ltac:(lia)) as [-> ->]. by destruct (scan post None).
    + pose proof (until_close_length _ _ _ E) as Hlen.
      apply until_close_Some in E as [-> _].
      cbn [Re.group app]. rewrite findall_from_skip, sub_from_skip.
      lazymatch goal with
      | |- context [drop ?k ?l] => assert (drop k l = post) as ->
      end.
      { replace (c1 :: m ++ RBRACKET :: post) with (((c1 :: m) ++ [RBRACKET]) ++ post)
          by (by rewrite <- app_assoc).
        apply drop_app_length'. simpl. rewrite !length_app. simpl. lia. }
      destruct (IH post) as [-> ->].
      { rewrite Hlen in Hle. lia. }
      by destruct (scan post None).
    + apply until_close_None in E. by destruct (no_close_no_match s E) as [-> ->].
  - destruct (IH s ltac:(lia)) as [-> ->]. by destruct (scan s None).
Qed.

Lemma lstrip_drop s : lstrip s = drop (length s - length (lstrip s)) s.
Proof.
  induction s as [|c s IH]; [done|]. simpl. destruct (is_space c).
  - assert (length (lstrip s) ≤ length s)%nat.
    { rewrite IH at 1. rewrite length_drop. lia. }
    replace (S (length s) - length (lstrip s))%nat
      with (S (length s - length (lstrip s))) by lia.
    simpl. apply IH.
  - simpl. by rewrite Nat.sub_diag.
Qed.

Lemma lstrip_length s : (length (lstrip s) ≤ length s)%nat.
Proof. rewrite lstrip_drop at 1. rewrite length_drop. lia. Qed.

Lemma match_whitespace_pattern s cap :
  Re.is_open cap = false →
  Re.match_here whitespace_pattern s cap
  = match s with
    | c :: s' => if is_space c then Some (cap, lstrip s') else None
    | [] => None
    end.
Proof.
  intros Hcap. unfold whitespace_pattern.
  induction s as [|c s IH]; [done|].
  rewrite match_one_or_more. cbn [Re.mem].
  destruct (is_space c); [|done].
  unfold Re.take. rewrite Hcap, IH.
  destruct s as [|c' s]; [done|]. simpl. by destruct (is_space c').
Qed.

Lemma collapse_whitespace_space c s :
  is_space c = true → collapse_whitespace (c :: s) = SPACE :: collapse_whitespace (lstrip s).
Proof.
  revert c. induction s as [|c' s IH]; intros c Hc.
  - simpl. by rewrite Hc.
  - change (collapse_whitespace (c :: c' :: s))
      with (if is_space c then
              if is_space c' then collapse_whitespace (c' :: s)
              else SPACE :: collapse_whitespace (c' :: s)
            else c :: collapse_whitespace (c' :: s)).
    rewrite Hc. cbn [lstrip]. destruct (is_space c') eqn:Hc'; [by apply IH | done].
Qed.

(** [re.sub(r'\s+', ' ', s)] collapses every run of whitespace. *)
Lemma sub_whitespace s : Re.sub whitespace_pattern [SPACE] s = collapse_whitespace s.
Proof.
  unfold Re.sub. remember (length s) as n eqn:Hn.
  assert (length s ≤ n)%nat as Hle by lia. clear Hn.
  revert s Hle. induction n as [|n IH]; intros [|c s] Hle; try done; [simpl in Hle; lia|].
  simpl in Hle. cbn [Re.sub_from]. rewrite match_whitespace_pattern by done.
  destruct (is_space c) eqn:Hc.
  - rewrite collapse_whitespace_space by done.
    rewrite sub_from_skip. cbn [length app].
    replace (S (length s) - length (lstrip s) - 1)%nat
      with (length s - length (lstrip s))%nat by lia.
    rewrite <- lstrip_drop. rewrite IH; [done|].
    pose proof (lstrip_length s). lia.
  - simpl. rewrite Hc. by rewrite IH by lia.
Qed.

Lemma has_marker_cons c s : has_marker s → has_marker (c :: s).
Proof.
  intros (pre & m & post & -> & Hm & Hr). by exists (c :: pre), m, post.
Qed.

Lemma no_open_no_marker s : LBRACKET ∉ s → ¬ has_marker s.
Proof.
  intros Hs (pre & m & post & -> & _). apply Hs.
  apply elem_of_app. right. apply elem_of_cons. by left.
Qed.

(** Without a bracketed marker the single pass returns the text as it is. *)
Lemma scan_no_marker s : ¬ has_marker s → scan s None = ([], s).
Proof.
  remember (length s) as n eqn:Hn.
  assert (length s ≤ n)%nat as Hle by lia. clear Hn.
  revert s Hle. induction n as [|n IH]; intros [|c s] Hle Hno; try done; [simpl in Hle; lia|].
  simpl in Hle. cbn [scan].
  destruct (N.eqb_spec c LBRACKET) as [->|Hc].
  - rewrite scan_inside. destruct (until_close s) as [[[|c1 m] post]|] eqn:E.
    + apply until_close_Some in E as [-> _]. simpl in Hle. cbn [app].
      rewrite IH; [done | lia |].
      intros H. apply Hno. by do 2 apply has_marker_cons.
    + apply until_close_Some in E as [-> Hm]. exfalso. apply Hno.
      by exists [], (c1 :: m), post.
    + done.
  - rewrite IH; [done | lia |]. intros H. apply Hno. by apply has_marker_cons.
Qed.

(** The reading of a marker the single pass implements: once the text before
    the first opening bracket is passed, a non-empty run free of closing
    brackets, enclosed in a bracket pair, is the next marker. *)
Lemma scan_first_marker pre m post :
  LBRACKET ∉ pre → m ≠ [] → RBRACKET ∉ m →
  markers_of (pre ++ LBRACKET :: m ++ RBRACKET :: post) = m :: markers_of post
  ∧ without_markers (pre ++ LBRACKET :: m ++ RBRACKET :: post) = pre ++ without_markers post.
Proof.
  unfold markers_of, without_markers. intros Hpre Hm Hr.
  induction pre as [|c pre IH].
  - cbn [app scan]. change (LBRACKET =? LBRACKET)%N with true. cbn iota.
    rewrite scan_inside.
    assert (until_close (m ++ RBRACKET :: post) = Some (m, post)) as ->.
    { clear Hm. induction m as [|c m IHm]; simpl.
      - done.
      - apply not_elem_of_cons in Hr as [Hc Hr].
        destruct (N.eqb_spec c RBRACKET); [done|]. by rewrite IHm. }
    cbn [app]. destruct (scan post None). by destruct m.
  - apply not_elem_of_cons in Hpre as [Hc Hpre]. cbn [app scan].
    destruct (N.eqb_spec c LBRACKET); [done|].
    destruct (IH Hpre) as [IH1 IH2].
    destruct (scan (pre ++ LBRACKET :: m ++ RBRACKET :: post) None) as [ms t].
    simpl in *. by subst.
Qed.

Lemma extract_emotion_and_text_scan text :
  extract_emotion_and_text text
  = (markers_of text, strip (collapse_whitespace (without_markers text))).
Proof.
  unfold extract_emotion_and_text.
  destruct (regex_scan text) as [-> ->]. by rewrite sub_whitespace.
Qed.

(** Where the specification's parser finds no empty marker, it is the
    single pass of the code. *)
Lemma scan_every_pair_scan s pending :
  [] ∉ (scan_every_pair s pending).1 → scan s pending = scan_every_pair s pending.
Proof.
  revert pending. induction s as [|c s IH]; intros pending; [done|].
  cbn [scan scan_every_pair]. destruct pending as [acc|].
  - destruct (c =? RBRACKET)%N; [|apply IH].
    specialize (IH None). destruct (scan_every_pair s None) as [markers clean].
    cbn [fst] in *. intros [Hacc Hno]%not_elem_of_cons.
    rewrite (IH Hno). by destruct acc.
  - destruct (c =? LBRACKET)%N; [apply IH|].
    specialize (IH None). destruct (scan_every_pair s None) as [markers clean].
    cbn [fst] in *. intros Hno. by rewrite (IH Hno).
Qed.

(** C4, as the code has it: for every input string the parser returns, as
    markers, the non-empty texts enclosed in a bracket pair closed by the
    nearest closing bracket, in left-to-right order with duplicates kept,
    and as clean text the input with those bracketed markers removed, every
    run of whitespace collapsed to one space, and the result trimmed; the
    specification's example yields the markers excited, whispers and the
    clean text "hi there".  An empty pair is no marker and stays in the
    text; on every text in which the specification's parser finds no empty
    marker the code returns what the specification says. *)
Theorem C4_parse_markers_and_clean_text (text : pystr) :
  extract_emotion_and_text text
  = (markers_of text, strip (collapse_whitespace (without_markers text)))
  ∧ extract_emotion_and_text (py "[excited] hi [whispers] there")
    = ([py "excited"; py "whispers"], py "hi there")
  ∧ ([] ∉ (parse_as_specified text).1 →
     extract_emotion_and_text text = parse_as_specified text).
Proof.
  split; [apply extract_emotion_and_text_scan|]. split; [by vm_compute|].
  rewrite extract_emotion_and_text_scan. unfold parse_as_specified, markers_of, without_markers.
  intros Hno. rewrite scan_every_pair_scan.
  - by destruct (scan_every_pair text None).
  - by destruct (scan_every_pair text None).
Qed.

Lemma C4_parse_markers_and_clean_text_witness :
  ([] ∉ (parse_as_specified (py "[a] [a]  x [b[c] y")).1)
  ∧ extract_emotion_and_text (py "[a] [a]  x [b[c] y")
    = parse_as_specified (py "[a] [a]  x [b[c] y").
Proof.
  assert ([] ∉ (parse_as_specified (py "[a] [a]  x [b[c] y")).1) as H
    by (apply (bool_decide_unpack _); vm_compute; exact I).
  split; [exact H|].
  exact (proj2 (proj2 (C4_parse_markers_and_clean_text (py "[a] [a]  x [b[c] y"))) H).
Defined.

(** C4 as stated fails: the empty text enclosed in the pair of "a [] b" is
    not returned as a marker, and the pair is not removed. *)
Lemma C4_empty_pair_counterexample :
  parse_as_specified (py "a [] b") = ([[]], py "a b")
  ∧ extract_emotion_and_text (py "a [] b") = ([], py "a [] b")
  ∧ extract_emotion_and_text (py "a [] b") ≠ parse_as_specified (py "a [] b").
Proof. by vm_compute. Qed.

(** C5, as the code has it: for every input string with no bracketed marker
    the parser returns no marker and the original text with every run of
    whitespace collapsed to one space and then trimmed. *)
Theorem C5_no_marker_collapsed_and_trimmed (text : pystr) :
  ¬ has_marker text →
  extract_emotion_and_text text = ([], strip (collapse_whitespace text)).
Proof.
  intros Hno. rewrite extract_emotion_and_text_scan.
  unfold markers_of, without_markers. by rewrite scan_no_marker.
Qed.

Lemma C5_no_marker_witness :
  extract_emotion_and_text (py "no markers here")
  = ([], strip (collapse_whitespace (py "no markers here"))).
Proof.
  apply (C5_no_marker_collapsed_and_trimmed (py "no markers here")).
  apply no_open_no_marker. apply (bool_decide_unpack _). vm_compute. exact I.
Defined.

(** C5 as stated fails: a text without brackets whose words are two spaces
    apart does not come back merely trimmed. *)
Lemma C5_inner_whitespace_counterexample :
  ¬ has_marker (py "a  b")
  ∧ extract_emotion_and_text (py "a  b") = ([], py "a b")
  ∧ strip (py "a  b") = py "a  b"
  ∧ extract_emotion_and_text (py "a  b") ≠ ([], strip (py "a  b")).
Proof.
  split; [|by vm_compute].
  apply no_open_no_marker. apply (bool_decide_unpack _). vm_compute. exact I.
Qed.

(** ** The clients, function by function *)

Lemma same_pool_refl w : same_pool w w.
Proof. done. Qed.

Lemma same_pool_trans w1 w2 w3 : same_pool w1 w2 → same_pool w2 w3 → same_pool w1 w3.
Proof. unfold same_pool. intros (-> & -> & ->) (-> & -> & ->). done. Qed.

Tactic Notation "msimpl" :=
  cbn -[firebase_attempts synthesis_attempts rotate_account get_firebase_token
        text_to_speech_v3 Nat.modulo Nat.leb].
Tactic Notation "msimpl" "in" "*" :=
  cbn -[firebase_attempts synthesis_attempts rotate_account get_firebase_token
        text_to_speech_v3 Nat.modulo Nat.leb] in *.

Ltac run :=
  unfold mbind, M_bind, bind, ret, raise, get, put, emit, sleep, next_answer,
    set_current_token; msimpl.

Section ClientFacts.

Variable R : Remote.

Lemma wait_before_retry_run attempt mr rd w :
  wait_before_retry attempt mr rd w
  = {| value := Ret tt; world := w;
       events := if (attempt <? mr - 1)%nat then [Sleep rd] else [] |}.
Proof. unfold wait_before_retry. by destruct (attempt <? mr - 1)%nat. Qed.

Lemma firebase_attempts_S mr rd key acct remaining attempt :
  firebase_attempts R mr rd key acct (S remaining) attempt
  = (r ← identity_post R key acct;
     match r with
     | IdToken token =>
         set_current_token (Some token) ;; emit (TokenOK (email acct) token) ;;
         ret (Some token)
     | IdNoToken => raise KeyError
     | IdNotObject => raise TypeError
     | IdStatus | IdRequestException =>
         wait_before_retry attempt mr rd ;;
         firebase_attempts R mr rd key acct remaining (S attempt)
     end).
Proof. reflexivity. Qed.

Lemma firebase_attempts_spec mr rd key acct remaining attempt w :
  let o := firebase_attempts R mr rd key acct remaining attempt w in
  same_pool w (world o) ∧ quiet (events o)
  ∧ match value o with
    | Ret (Some t) => current_token (world o) = Some t
    | _ => current_token (world o) = current_token w
    end.
Proof.
  revert attempt w. induction remaining as [|remaining IH]; intros attempt w.
  - cbn. repeat split. constructor.
  - cbn [firebase_attempts]. unfold identity_post. run.
    destruct (identity_service R (answered w)); cbn.
    1,2,3: repeat split; repeat constructor.
    all: rewrite wait_before_retry_run; cbn;
      match goal with
      | |- context [firebase_attempts _ _ _ _ _ _ ?a ?w'] =>
          destruct (IH a w') as (Hp & Hq & Ht);
          destruct (firebase_attempts R mr rd key acct remaining a w') as [v w'' evs]
      end; cbn in *;
      (split; [exact Hp|]);
      (split; [apply Forall_cons; split; [done|]; apply Forall_app; split;
               [repeat case_match; repeat constructor | exact Hq]|]);
      destruct v as [[t|]|]; exact Ht.
Qed.

Lemma get_firebase_token_cached w t ts :
  current_token w = Some (t :: ts) →
  get_firebase_token R w = {| value := Ret (Some (t :: ts)); world := w; events := [] |}.
Proof. intros H. unfold get_firebase_token. run. by rewrite H. Qed.

Lemma get_firebase_token_spec w :
  let o := get_firebase_token R w in
  same_pool w (world o) ∧ quiet (events o)
  ∧ match value o with
    | Ret (Some t) => current_token (world o) = Some t
    | _ => True
    end.
Proof.
  unfold get_firebase_token. run.
  destruct (truthy (current_token w)) eqn:Htok; msimpl.
  { repeat split; [constructor|]. by destruct (current_token w). }
  unfold get_current_account. run.
  destruct (accounts w) as [|a0 accs] eqn:Hacc; msimpl.
  { repeat split. constructor. }
  destruct ((a0 :: accs) !! current_account_index w) as [acct|]; msimpl.
  2:{ repeat split. constructor. }
  destruct (truthy (FIREBASE_API_KEY R)); msimpl.
  2:{ repeat split. constructor. }
  match goal with
  | |- context [firebase_attempts R ?mr ?rd ?key ?ac ?n ?a ?w'] =>
      destruct (firebase_attempts_spec mr rd key ac n a w') as (Hp & Hq & Ht);
      destruct (firebase_attempts R mr rd key ac n a w') as [v w'' evs]
  end; cbn -[firebase_attempts] in *.
  split; [done|]. split; [done|].
  by destruct v as [[t|]|].
Qed.

Lemma rotate_account_run w :
  accounts w ≠ [] →
  rotate_account w = {| value := Ret tt; world := rotated w; events := [] |}.
Proof.
  intros Hacc. unfold rotate_account, get_current_account. run.
  destruct (accounts w) as [|a0 accs] eqn:E; [done|]. msimpl.
  destruct (lookup_lt_is_Some_2 (a0 :: accs)
              ((current_account_index w + 1) mod length (a0 :: accs))) as [a Ha].
  { apply Nat.mod_upper_bound. done. }
  cbn [length] in Ha. rewrite Ha. msimpl. unfold rotated. by rewrite E.
Qed.

Lemma synthesis_attempts_S mr rd tok text voice stab remaining attempt :
  synthesis_attempts R mr rd tok text voice stab (S remaining) attempt
  = (r ← synthesis_post R attempt tok text voice stab;
     match r with
     | Audio audio_bytes => ret (Some audio_bytes)
     | SynStatus | SynRequestException =>
         wait_before_retry attempt mr rd ;;
         synthesis_attempts R mr rd tok text voice stab remaining (S attempt)
     end).
Proof. reflexivity. Qed.

Lemma synthesis_attempts_spec mr rd tok text voice stab remaining attempt w :
  (attempt + S remaining = mr)%nat →
  let o := synthesis_attempts R mr rd tok text voice stab (S remaining) attempt w in
  ∃ j, (1 ≤ j ≤ S remaining)%nat
    ∧ events o
      = with_delays rd (posts_from (current_account_index w) tok text voice stab attempt j)
    ∧ world o = answer_more w j
    ∧ (∀ k, (k < j - 1)%nat → synthesis_failed (synthesis_service R (answered w + k)))
    ∧ match value o with
      | Ret None =>
          j = S remaining ∧ synthesis_failed (synthesis_service R (answered w + (j - 1)))
      | Ret (Some b) => synthesis_service R (answered w + (j - 1)) = Audio b
      | Raise _ => False
      end.
Proof.
  revert attempt w. induction remaining as [|remaining IH]; intros attempt w Hmr.
  - cbn [synthesis_attempts]. unfold synthesis_post. run.
    exists 1%nat. rewrite Nat.add_0_r.
    destruct (synthesis_service R (answered w)) eqn:Hresp; msimpl.
    2,3: rewrite wait_before_retry_run;
      replace (attempt <? mr - 1)%nat with false
        by (symmetry; apply Nat.ltb_ge; lia); msimpl.
    all: repeat split; try lia; try (intros; lia);
      unfold answer_more; try (do 2 f_equal; lia).
  - rewrite synthesis_attempts_S. unfold synthesis_post. run.
    destruct (synthesis_service R (answered w)) eqn:Hresp; msimpl.
    { exists 1%nat. rewrite Nat.add_0_r. repeat split; try lia; try (intros; lia); try done.
      unfold answer_more. do 2 f_equal. lia. }
    all: rewrite wait_before_retry_run;
      replace (attempt <? mr - 1)%nat with true
        by (symmetry; apply Nat.ltb_lt; lia); msimpl.
    all: lazymatch goal with
      | |- context [synthesis_attempts _ _ _ _ _ _ _ _ ?a ?w'] =>
          destruct (IH a w' ltac:(lia)) as (j & Hj & Hev & Hw & Hfail & Hval);
          destruct (synthesis_attempts R mr rd tok text voice stab (S remaining) a w')
            as [v w'' evs]
      end; cbn -[synthesis_attempts] in *.
    all: exists (S j); split; [lia|]; split;
      [ rewrite Hev; destruct j as [|j]; [lia|]; done |].
    all: split; [ rewrite Hw; unfold answer_more; cbn; f_equal; lia |].
    all: split;
      [ intros [|k] Hk;
        [ by rewrite Nat.add_0_r, Hresp
        | replace (answered w + S k)%nat with (S (answered w) + k)%nat by lia;
          apply Hfail; lia ] |].
    all: replace (answered w + (S j - 1))%nat with (S (answered w) + (j - 1))%nat by lia.
    all: destruct v as [[b|]|]; [done | | done].
    all: destruct Hval as [-> Hval]; by split.
Qed.

Lemma text_to_speech_v3_cases text voice emotions w :
  accounts w ≠ [] ∨ (tts_request_count w < 2)%nat →
  let o := text_to_speech_v3 R text voice emotions w in
  let w1 := after_rotation_check w in
  ∃ pre, quiet pre
    ∧ ((same_pool w1 (world o) ∧ events o = pre ∧ ∀ b, value o ≠ Ret (Some b))
       ∨ ∃ tok w2,
           tok ≠ [] ∧ accounts w2 = accounts w1
           ∧ current_account_index w2 = current_account_index w1
           ∧ tts_request_count w2 = S (tts_request_count w1)
           ∧ current_token w2 = Some tok
           ∧ let o2 := synthesis_attempts R 5 15 tok text voice (stability_of emotions) 5 0 w2 in
             value o = value o2 ∧ world o = world o2 ∧ events o = pre ++ events o2).
Proof.
  intros Hacc. unfold text_to_speech_v3, should_rotate_account, increment_tts_count. run.
  assert (∀ w', (if (2 <=? tts_request_count w)%nat then rotate_account else ret tt) w'
                = if (2 <=? tts_request_count w)%nat then rotate_account w'
                  else {| value := Ret tt; world := w'; events := [] |}) as Hif.
  { intros w'. by destruct (2 <=? tts_request_count w)%nat. }
  rewrite !Hif. clear Hif.
  assert ((if (2 <=? tts_request_count w)%nat then rotate_account w
           else {| value := Ret tt; world := w; events := [] |})
          = {| value := Ret tt; world := after_rotation_check w; events := [] |}) as ->.
  { unfold after_rotation_check.
    destruct (Nat.leb_spec 2 (tts_request_count w)); [|done].
    apply rotate_account_run. destruct Hacc; [done | lia]. }
  msimpl. set (w1 := after_rotation_check w).
  destruct (get_firebase_token_spec w1) as (Hp & Hq & Ht).
  destruct (get_firebase_token R w1) as [v w2 evs]. msimpl in *.
  exists evs. split; [done|].
  destruct v as [[[|t tok]|]|e]; msimpl.
  1,3,4: left; rewrite ?app_nil_r; (split; [done|]); (split; [done|]); by intros b.
  right. destruct Hp as (Ha & Hi & Hc).
  exists (t :: tok),
    {| accounts := accounts w2;
       current_account_index := current_account_index w2;
       tts_request_count := tts_request_count w2 + 1;
       current_token := current_token w2;
       answered := answered w2 |}.
  split; [done|]. split; [exact Ha|]. split; [exact Hi|].
  split; [cbn; lia|]. split; [exact Ht|]. by repeat split.
Qed.

(** The call, cut at its token: either it ends there, or the request is
    counted and sent. *)
Lemma text_to_speech_v3_unfold text voice emotions w :
  accounts w ≠ [] ∨ (tts_request_count w < 2)%nat →
  let o := text_to_speech_v3 R text voice emotions w in
  let og := get_firebase_token R (after_rotation_check w) in
  (world o = world og ∧ events o = events og ∧ ∀ b, value o ≠ Ret (Some b))
  ∨ ∃ tok,
      tok ≠ [] ∧ value og = Ret (Some tok)
      ∧ let o2 := synthesis_attempts R 5 15 tok text voice (stability_of emotions) 5 0
                    (counted (world og)) in
        value o = value o2 ∧ world o = world o2 ∧ events o = events og ++ events o2.
Proof.
  intros Hacc. unfold text_to_speech_v3, should_rotate_account, increment_tts_count. run.
  assert (∀ w', (if (2 <=? tts_request_count w)%nat then rotate_account else ret tt) w'
                = if (2 <=? tts_request_count w)%nat then rotate_account w'
                  else {| value := Ret tt; world := w'; events := [] |}) as Hif.
  { intros w'. by destruct (2 <=? tts_request_count w)%nat. }
  rewrite !Hif. clear Hif.
  assert ((if (2 <=? tts_request_count w)%nat then rotate_account w
           else {| value := Ret tt; world := w; events := [] |})
          = {| value := Ret tt; world := after_rotation_check w; events := [] |}) as ->.
  { unfold after_rotation_check.
    destruct (Nat.leb_spec 2 (tts_request_count w)); [|done].
    apply rotate_account_run. destruct Hacc; [done | lia]. }
  msimpl.
  destruct (get_firebase_token R (after_rotation_check w)) as [v w2 evs]. msimpl.
  destruct v as [[[|t tok]|]|e]; msimpl.
  1,3,4: left; rewrite ?app_nil_r; (split; [done|]); (split; [done|]); by intros b.
  right. exists (t :: tok). split; [done|]. split; [done|]. by repeat split.
Qed.

(** A call, by what its token fetch returned. *)
Lemma text_to_speech_v3_by_token text voice emotions w :
  accounts w ≠ [] ∨ (tts_request_count w < 2)%nat →
  let o := text_to_speech_v3 R text voice emotions w in
  let og := get_firebase_token R (after_rotation_check w) in
  match value og with
  | Ret (Some (t :: tok)) =>
      let o2 := synthesis_attempts R 5 15 (t :: tok) text voice (stability_of emotions) 5 0
                  (counted (world og)) in
      value o = value o2 ∧ world o = world o2 ∧ events o = events og ++ events o2
  | Ret _ => value o = Ret None ∧ world o = world og ∧ events o = events og
  | Raise e => value o = Raise e ∧ world o = world og ∧ events o = events og
  end.
Proof.
  intros Hacc. cbv zeta.
  unfold text_to_speech_v3, should_rotate_account, increment_tts_count. run.
  assert (∀ w', (if (2 <=? tts_request_count w)%nat then rotate_account else ret tt) w'
                = if (2 <=? tts_request_count w)%nat then rotate_account w'
                  else {| value := Ret tt; world := w'; events := [] |}) as Hif.
  { intros w'. by destruct (2 <=? tts_request_count w)%nat. }
  rewrite !Hif. clear Hif.
  assert ((if (2 <=? tts_request_count w)%nat then rotate_account w
           else {| value := Ret tt; world := w; events := [] |})
          = {| value := Ret tt; world := after_rotation_check w; events := [] |}) as ->.
  { unfold after_rotation_check.
    destruct (Nat.leb_spec 2 (tts_request_count w)); [|done].
    apply rotate_account_run. destruct Hacc; [done | lia]. }
  msimpl.
  destruct (get_firebase_token R (after_rotation_check w)) as [v w2 evs]. msimpl.
  destruct v as [[[|t tok]|]|e]; msimpl; rewrite ?app_nil_r; by repeat split.
Qed.

(** The shape of every call: no synthesis POST before the request, then
    between one and five attempts of it, 15 s apart, answered by the
    last [j] remote answers. *)
Lemma text_to_speech_v3_shape text voice emotions w :
  let o := text_to_speech_v3 R text voice emotions w in
  ∃ pre account tok j,
    quiet pre ∧ (j ≤ 5 ∧ j ≤ answered (world o))%nat
    ∧ events o
      = pre ++ with_delays 15
                 (posts_from account tok text voice (stability_of emotions) 0 j)
    ∧ (∀ k, (k < j - 1)%nat →
            synthesis_failed (synthesis_service R (answered (world o) - j + k)))
    ∧ match value o with
      | Ret (Some b) =>
          (1 ≤ j)%nat ∧ synthesis_service R (answered (world o) - 1) = Audio b
      | Ret None =>
          j = 0%nat
          ∨ (j = 5%nat ∧ synthesis_failed (synthesis_service R (answered (world o) - 1)))
      | Raise _ => j = 0%nat
      end.
Proof.
  cbv zeta.
  destruct (decide (accounts w ≠ [] ∨ (tts_request_count w < 2)%nat)) as [Hacc|Hno].
  - destruct (text_to_speech_v3_cases text voice emotions w Hacc)
      as (pre & Hq & [(Hp & Hev & Hval) | (tok & w2 & _ & _ & _ & _ & _ & Hv & Hw & Hev)]).
    + exists pre, 0%nat, [], 0%nat. split; [done|]. split; [lia|].
      split; [by rewrite Hev, app_nil_r|]. split; [intros; lia|].
      destruct (value (text_to_speech_v3 R text voice emotions w)) as [[b|]|]; try done.
      * by destruct (Hval b).
      * by left.
    + destruct (synthesis_attempts_spec 5 15 tok text voice (stability_of emotions) 4 0 w2
                  eq_refl) as (j & Hj & Hev2 & Hw2 & Hfail & Hlast).
      exists pre, (current_account_index w2), tok, j.
      rewrite Hev, Hev2, Hw, Hw2, Hv. cbn [answer_more answered].
      split; [done|]. split; [lia|]. split; [done|].
      split.
      { intros k Hk. replace (answered w2 + j - j + k)%nat with (answered w2 + k)%nat by lia.
        by apply Hfail. }
      replace (answered w2 + j - 1)%nat with (answered w2 + (j - 1))%nat by lia.
      destruct (value (synthesis_attempts R 5 15 tok text voice (stability_of emotions) 5 0 w2))
        as [[b|]|]; [split; [lia | done] | right; done | done].
  - assert (accounts w = [] ∧ (2 <=? tts_request_count w)%nat = true) as [Hacc Hc].
    { split.
      - destruct (accounts w); [done|]. exfalso. apply Hno. by left.
      - apply Nat.leb_le. destruct (Nat.le_gt_cases 2 (tts_request_count w)); [done|].
        exfalso. apply Hno. by right. }
    exists [], 0%nat, [], 0%nat.
    unfold text_to_speech_v3, should_rotate_account, rotate_account. run.
    rewrite Hc, Hacc. msimpl.
    split; [constructor|]. split; [lia|]. split; [done|]. split; [intros; lia | done].
Qed.

End ClientFacts.

(** ** Rotation schedule *)

Lemma origins_app evs1 evs2 n :
  origins (evs1 ++ evs2) n = origins evs1 n ++ origins evs2 (n + first_attempts evs1).
Proof.
  revert n. induction evs1 as [|e evs1 IH]; intros n; cbn [app origins first_attempts].
  - by rewrite Nat.add_0_r.
  - destruct e as [| account [|attempt] | | |]; cbn [app]; rewrite IH; try done.
    by replace (S n + first_attempts evs1)%nat with (n + S (first_attempts evs1))%nat by lia.
Qed.

Lemma first_attempts_app evs1 evs2 :
  first_attempts (evs1 ++ evs2) = (first_attempts evs1 + first_attempts evs2)%nat.
Proof.
  induction evs1 as [|e evs1 IH]; [done|].
  destruct e as [| account [|attempt] | | |]; cbn [app first_attempts]; rewrite IH; lia.
Qed.

Lemma quiet_origins evs n : quiet evs → origins evs n = [] ∧ first_attempts evs = 0%nat.
Proof.
  revert n. induction 1 as [|e evs [He _] _ IH]; intros; [done|].
  destruct e; try done; cbn [origins first_attempts]; apply IH.
Qed.

Lemma origins_retries rd account tok text voice stab attempt j n :
  origins (with_delays rd (posts_from account tok text voice stab (S attempt) j)) n
  = replicate j (n, account)
  ∧ first_attempts (with_delays rd (posts_from account tok text voice stab (S attempt) j))
    = 0%nat.
Proof.
  revert attempt. induction j as [|j IH]; intros attempt; [done|].
  destruct (IH (S attempt)) as [IH1 IH2].
  unfold posts_from in *. cbn [seq fmap list_fmap with_delays] in *.
  destruct j as [|j]; [done|].
  cbn [seq fmap list_fmap] in *. cbn [origins first_attempts replicate].
  by rewrite IH1, IH2.
Qed.

Lemma origins_request rd account tok text voice stab j n :
  origins (with_delays rd (posts_from account tok text voice stab 0 (S j))) n
  = replicate (S j) (S n, account)
  ∧ first_attempts (with_delays rd (posts_from account tok text voice stab 0 (S j)))
    = 1%nat.
Proof.
  destruct (origins_retries rd account tok text voice stab 0 j (S n)) as [H1 H2].
  unfold posts_from in *. cbn [seq fmap list_fmap with_delays] in *.
  destruct j as [|j]; [done|].
  cbn [seq fmap list_fmap] in *. cbn [origins first_attempts replicate].
  by rewrite H1, H2.
Qed.

Lemma after_rotation_check_schedule w n :
  accounts w ≠ [] → on_schedule w n →
  on_schedule (after_rotation_check w) n
  ∧ (tts_request_count (after_rotation_check w) < 2)%nat
  ∧ accounts (after_rotation_check w) = accounts w.
Proof.
  intros Hacc (r & Hn & Hc & Hi). unfold after_rotation_check.
  destruct (Nat.leb_spec 2 (tts_request_count w)) as [Hge|Hlt].
  - split; [|cbn; split; [lia | done]].
    exists (S r). cbn [rotated accounts tts_request_count current_account_index].
    split; [lia|]. split; [lia|].
    rewrite Hi. replace (S r) with (r + 1)%nat by lia.
    apply Nat.Div0.add_mod_idemp_l.
  - split; [|split; [lia | done]]. by exists r.
Qed.

Section Schedule.

Variable R : Remote.

Lemma text_to_speech_v3_schedule text voice emotions w n :
  accounts w ≠ [] → on_schedule w n →
  let o := text_to_speech_v3 R text voice emotions w in
  accounts (world o) = accounts w
  ∧ on_schedule (world o) (n + first_attempts (events o))
  ∧ Forall (scheduled (length (accounts w))) (origins (events o) n)
  ∧ (returned_audio (value o) = true → first_attempts (events o) = 1%nat).
Proof.
  intros Hacc Hs. cbv zeta.
  destruct (after_rotation_check_schedule w n Hacc Hs) as ((r & Hn & Hc & Hi) & Hlt & Ha1).
  destruct (text_to_speech_v3_cases R text voice emotions w (or_introl Hacc))
    as (pre & Hq & [(Hp & Hev & Hval) | (tok & w2 & _ & Ha & Hi2 & Hc2 & _ & Hv & Hw & Hev)]).
  - rewrite Hev. destruct (quiet_origins pre n Hq) as [-> ->].
    destruct Hp as (Hpa & Hpi & Hpc). rewrite Nat.add_0_r.
    split; [congruence|]. split.
    + exists r. rewrite Hpa, Hpi, Hpc. done.
    + split; [constructor|].
      destruct (value (text_to_speech_v3 R text voice emotions w)) as [[b|]|]; try done.
      by destruct (Hval b).
  - destruct (synthesis_attempts_spec R 5 15 tok text voice (stability_of emotions) 4 0 w2
                eq_refl) as (j & Hj & Hev2 & Hw2 & _).
    rewrite Hw, Hw2, Hev, Hev2. destruct j as [|j]; [lia|].
    rewrite origins_app, first_attempts_app.
    destruct (quiet_origins pre n Hq) as [-> ->].
    destruct (origins_request 15 (current_account_index w2) tok text voice
                (stability_of emotions) j (n + 0)) as [-> ->].
    cbn [answer_more accounts tts_request_count current_account_index app].
    split; [congruence|]. split.
    + exists r. cbn [answer_more accounts tts_request_count current_account_index].
      rewrite Ha, Hc2. split; [lia|]. split; [lia|]. congruence.
    + split; [|done]. apply Forall_replicate. split; cbn [fst snd]; [lia|].
      rewrite Hi2, Hi, Ha1. f_equal.
      replace (S (n + 0) - 1)%nat with (tts_request_count (after_rotation_check w) + r * 2)%nat
        by lia.
      rewrite Nat.div_add by done. rewrite Nat.div_small by lia. done.
Qed.

Lemma synthesis_calls_schedule calls w n :
  accounts w ≠ [] → on_schedule w n →
  let o := synthesis_calls R calls w in
  accounts (world o) = accounts w
  ∧ on_schedule (world o) (n + first_attempts (events o))
  ∧ Forall (scheduled (length (accounts w))) (origins (events o) n)
  ∧ ∀ rs, value o = Ret rs → forallb returned_audio rs = true →
          first_attempts (events o) = length calls.
Proof.
  revert w n. induction calls as [|[[text voice] emotions] calls IH];
    intros w n Hacc Hs; cbv zeta.
  - cbn. rewrite Nat.add_0_r. repeat split; done.
  - cbn [synthesis_calls]. run.
    destruct (text_to_speech_v3_schedule text voice (Some emotions) w n Hacc Hs)
      as (Ha & Hs1 & Hf & Hone).
    destruct (text_to_speech_v3 R text voice (Some emotions) w) as [v w1 evs1].
    cbn [value world events] in *.
    destruct (IH w1 (n + first_attempts evs1)%nat) as (Ha2 & Hs2 & Hf2 & Hall);
      [congruence | done |].
    destruct (synthesis_calls R calls w1) as [vs w2 evs2].
    cbn [value world events] in *.
    destruct vs as [rs|e]; cbn [value world events].
    + rewrite app_nil_r, origins_app, first_attempts_app.
      split; [congruence|]. split; [by rewrite Nat.add_assoc|].
      split; [apply Forall_app; split; [done | by rewrite <- Ha]|].
      intros rs' [= <-]. cbn [forallb]. intros [Hv Hrs]%andb_prop.
      rewrite (Hone Hv), (Hall rs eq_refl Hrs). done.
    + rewrite origins_app, first_attempts_app.
      split; [congruence|]. split; [by rewrite Nat.add_assoc|].
      split; [apply Forall_app; split; [done | by rewrite <- Ha]|]. done.
Qed.

End Schedule.

Lemma initial_world_on_schedule accs : on_schedule (initial_world accs) 0.
Proof. exists 0%nat. cbn. repeat split; [lia|]. by rewrite Nat.Div0.mod_0_l. Qed.

(** ** Whose token a request carries *)

Lemma login_after_app login evs1 evs2 :
  login_after login (evs1 ++ evs2) = login_after (login_after login evs1) evs2.
Proof.
  revert login. induction evs1 as [|e evs1 IH]; intros login; [done|].
  destruct e; cbn [app login_after]; apply IH.
Qed.

Lemma authentic_app accs login evs1 evs2 :
  authentic accs login evs1 → authentic accs (login_after login evs1) evs2 →
  authentic accs login (evs1 ++ evs2).
Proof.
  revert login. induction evs1 as [|e evs1 IH]; intros login H1 H2; [done|].
  destruct e; cbn [app login_after authentic] in *; try (by apply IH).
  destruct H1 as [Hpost H1]. split; [done | by apply IH].
Qed.

Lemma quiet_authentic accs login evs : quiet evs → authentic accs login evs.
Proof.
  intros Hq. revert login. induction Hq as [|e evs [He _] _ IH]; intros login; [done|].
  destruct e; try done; cbn [authentic]; apply IH.
Qed.

Lemma authentic_posts accs login rd account tok text voice stab attempt j a :
  accs !! account = Some a → login = Some (email a, tok) →
  authentic accs login (with_delays rd (posts_from account tok text voice stab attempt j))
  ∧ login_after login (with_delays rd (posts_from account tok text voice stab attempt j))
    = login.
Proof.
  intros Ha Hl. revert attempt. induction j as [|j IH]; intros attempt; [done|].
  destruct (IH (S attempt)) as [IH1 IH2]. unfold posts_from in *.
  cbn [seq fmap list_fmap with_delays] in *.
  destruct j as [|j].
  - cbn. split; [|done]. split; [by exists a | done].
  - cbn [seq fmap list_fmap] in *. cbn [authentic login_after].
    split; [|done]. split; [by exists a | done].
Qed.

Section Login.

Variable R : Remote.

Lemma firebase_attempts_login mr rd key acct remaining attempt w login :
  let o := firebase_attempts R mr rd key acct remaining attempt w in
  match value o with
  | Ret (Some t) => login_after login (events o) = Some (email acct, t)
  | _ => login_after login (events o) = login
  end.
Proof.
  revert attempt w. induction remaining as [|remaining IH]; intros attempt w; [done|].
  cbv zeta. rewrite firebase_attempts_S. unfold identity_post. run.
  destruct (identity_service R (answered w)); msimpl; try done.
  all: rewrite wait_before_retry_run; msimpl.
  all: lazymatch goal with
    | |- context [firebase_attempts _ _ _ _ _ _ ?a ?w'] =>
        specialize (IH a w');
        destruct (firebase_attempts R mr rd key acct remaining a w') as [v w'' evs]
    end; msimpl in *.
  all: rewrite login_after_app.
  all: replace (login_after login (if (attempt <? mr - 1)%nat then [Sleep rd] else []))
         with login by (by destruct (attempt <? mr - 1)%nat).
  all: by destruct v as [[t|]|].
Qed.

Lemma get_firebase_token_linked w login :
  linked w login →
  let o := get_firebase_token R w in
  linked (world o) (login_after login (events o)).
Proof.
  intros Hl. unfold get_firebase_token, get_current_account. run.
  destruct (truthy (current_token w)); msimpl; [done|].
  destruct (accounts w) as [|a0 accs] eqn:Hacc; msimpl; [done|].
  destruct ((a0 :: accs) !! current_account_index w) as [acct|] eqn:Hacct; msimpl; [|done].
  destruct (truthy (FIREBASE_API_KEY R)); msimpl; [|done].
  lazymatch goal with
  | |- context [firebase_attempts _ ?mr ?rd ?key ?ac ?n ?a ?w'] =>
      pose proof (firebase_attempts_login mr rd key ac n a w' login) as Hlog;
      destruct (firebase_attempts_spec R mr rd key ac n a w') as ((Ha & Hi & _) & _ & Ht);
      destruct (firebase_attempts R mr rd key ac n a w') as [v w'' evs]
  end; msimpl in *.
  intros t Htok. rewrite Ha, Hi, Hacc.
  destruct v as [[t'|]|].
  - rewrite Ht in Htok. injection Htok as ->. exists acct. by rewrite Hlog.
  - rewrite Ht in Htok. destruct (Hl t Htok) as (a & Hlook & ->).
    rewrite Hacc in Hlook. exists a. by rewrite Hlog.
  - rewrite Ht in Htok. destruct (Hl t Htok) as (a & Hlook & ->).
    rewrite Hacc in Hlook. exists a. by rewrite Hlog.
Qed.

Lemma after_rotation_check_linked w login :
  linked w login → linked (after_rotation_check w) login.
Proof.
  intros Hl. unfold after_rotation_check.
  destruct (2 <=? tts_request_count w)%nat; [|done]. by intros t.
Qed.

Lemma text_to_speech_v3_authentic text voice emotions w login :
  accounts w ≠ [] → linked w login →
  let o := text_to_speech_v3 R text voice emotions w in
  accounts (world o) = accounts w
  ∧ authentic (accounts w) login (events o)
  ∧ linked (world o) (login_after login (events o)).
Proof.
  intros Hacc Hl. cbv zeta.
  pose proof (after_rotation_check_linked w login Hl) as Hl1.
  assert (accounts (after_rotation_check w) = accounts w) as Ha1.
  { unfold after_rotation_check. by destruct (2 <=? tts_request_count w)%nat. }
  pose proof (get_firebase_token_linked _ _ Hl1) as Hlg. cbv zeta in Hlg.
  destruct (get_firebase_token_spec R (after_rotation_check w)) as ((Hag & Hig & _) & Hq & Ht).
  destruct (text_to_speech_v3_unfold R text voice emotions w (or_introl Hacc))
    as [(Hw & Hev & _) | (tok & _ & Hv & Hval & Hw & Hev)].
  - rewrite Hw, Hev. split; [congruence|]. split; [by apply quiet_authentic | done].
  - rewrite Hv in Ht.
    destruct (Hlg tok Ht) as (a & Hlook & Hlogin).
    destruct (synthesis_attempts_spec R 5 15 tok text voice (stability_of emotions) 4 0
                (counted (world (get_firebase_token R (after_rotation_check w)))) eq_refl)
      as (j & _ & Hev2 & Hw2 & _).
    rewrite Hw, Hw2, Hev, Hev2. cbn [counted answer_more accounts current_account_index].
    rewrite Hag, Ha1 in Hlook.
    destruct (authentic_posts (accounts w) _ 15 _ tok text voice (stability_of emotions) 0 j a
                Hlook Hlogin) as [Hauth Hafter].
    split; [congruence|]. split.
    + apply authentic_app; [by apply quiet_authentic | done].
    + rewrite login_after_app, Hafter. intros t Htok. cbn in Htok.
      destruct (Hlg t Htok) as (a' & Hlook' & Hlogin'). exists a'. by cbn.
Qed.

Lemma synthesis_calls_authentic calls w login :
  accounts w ≠ [] → linked w login →
  authentic (accounts w) login (events (synthesis_calls R calls w)).
Proof.
  revert w login. induction calls as [|[[text voice] emotions] calls IH];
    intros w login Hacc Hl; [done|].
  cbn [synthesis_calls]. run.
  destruct (text_to_speech_v3_authentic text voice (Some emotions) w login Hacc Hl)
    as (Ha & Hauth & Hl1).
  destruct (text_to_speech_v3 R text voice (Some emotions) w) as [v w1 evs1].
  cbn [value world events] in *.
  specialize (IH w1 (login_after login evs1)). rewrite Ha in IH.
  specialize (IH Hacc Hl1).
  destruct (synthesis_calls R calls w1) as [vs w2 evs2]. cbn [value world events] in *.
  destruct vs as [rs|e]; cbn [value world events]; rewrite ?app_nil_r;
    by apply authentic_app.
Qed.

End Login.

(** C2: for every sequence of synthesis calls over a non-empty pool of size
    P, whatever the remote services answer, every POST of the N-th request
    is sent under the identity at index floor((N-1)/2) mod P: the counter is
    incremented before the first POST, so the rotation falls after every
    second request whether the requests succeed or fail.  The bearer token
    of each POST is the one the latest successful sign-in returned, and that
    sign-in used the credentials of the account at that index. *)
Theorem C2_nth_request_identity (R : Remote) (accs : list Account)
    (calls : list (pystr * pystr * list pystr)) :
  accs ≠ [] →
  let evs := events (synthesis_calls R calls (initial_world accs)) in
  (∀ k N account,
     origins evs 0 !! k = Some (N, account) →
     (1 ≤ N)%nat ∧ account = (((N - 1) / 2) mod length accs)%nat)
  ∧ authentic accs None evs.
Proof.
  intros Hacc. cbv zeta. split.
  - intros k N account Hk.
    destruct (synthesis_calls_schedule R calls (initial_world accs) 0 Hacc
                (initial_world_on_schedule accs)) as (_ & _ & Hall & _).
    rewrite Forall_lookup in Hall. exact (Hall k (N, account) Hk).
  - apply (synthesis_calls_authentic R calls (initial_world accs) None Hacc). by intros t.
Qed.

Lemma C2_nth_request_identity_witness :
  (1 ≤ 5)%nat ∧ 2%nat = (((5 - 1) / 2) mod length three_accounts)%nat.
Proof.
  refine (proj1 (C2_nth_request_identity R_flaky three_accounts seven_calls _) 13%nat 5%nat
            2%nat _).
  - discriminate.
  - vm_compute. reflexivity.
Defined.

(** A call that obtains no token sends no request and is not counted: after
    a refused sign-in the second and third calls are requests 1 and 2, both
    under identity 0. *)
Example refused_login_sends_no_request :
  origins (events (synthesis_calls R_first_login_refused (take 3 seven_calls)
                     (initial_world three_accounts))) 0
  = [(1, 0); (2, 0)]%nat.
Proof. vm_compute. reflexivity. Qed.

(** C6, as the code has it: with a pool of three identities, cursor 0 and
    counter 0, after 7 synthesis calls that all return audio the cursor
    equals 0 (rotations before the 3rd, 5th and 7th call). *)
Theorem C6_cursor_after_seven_calls (R : Remote) (accs : list Account)
    (calls : list (pystr * pystr * list pystr)) (rs : list (result (option bytes))) :
  length accs = 3%nat → length calls = 7%nat →
  value (synthesis_calls R calls (initial_world accs)) = Ret rs →
  forallb returned_audio rs = true →
  current_account_index (world (synthesis_calls R calls (initial_world accs))) = 0%nat.
Proof.
  intros Hlen Hcalls Hrs Hok.
  assert (accounts (initial_world accs) ≠ []) as Hacc by (by destruct accs).
  destruct (synthesis_calls_schedule R calls (initial_world accs) 0 Hacc
              (initial_world_on_schedule accs)) as (Ha & (r & Hn & Hc & Hi) & _ & Hall).
  rewrite (Hall rs Hrs Hok), Hcalls in Hn.
  rewrite Hi, Ha. cbn [initial_world accounts]. rewrite Hlen.
  assert (r = 3%nat) as -> by lia. done.
Qed.

Lemma C6_cursor_after_seven_calls_witness :
  current_account_index
    (world (synthesis_calls R_always_ok seven_calls (initial_world three_accounts))) = 0%nat.
Proof.
  apply (C6_cursor_after_seven_calls R_always_ok three_accounts seven_calls
           (replicate 7 (Ret (Some ["x"%byte])))); reflexivity.
Defined.

(** C6 as stated fails: seven successful calls over three identities leave
    the cursor at 0, not at 1. *)
Lemma C6_cursor_is_not_one_counterexample :
  let o := synthesis_calls R_always_ok seven_calls (initial_world three_accounts) in
  value o = Ret (replicate 7 (Ret (Some ["x"%byte])))
  ∧ current_account_index (world o) = 0%nat
  ∧ current_account_index (world o) ≠ 1%nat.
Proof. by vm_compute. Qed.

(** ** Stability *)

Lemma existsb_intersects markers set :
  existsb (λ m, bool_decide (m ∈ set)) markers = true ↔ intersects markers set.
Proof.
  rewrite existsb_exists. unfold intersects. split.
  - intros (m & Hin & Hm). exists m. split; [by apply list_elem_of_In|].
    by apply bool_decide_eq_true in Hm.
  - intros (m & Hin & Hm). exists m. split; [by apply list_elem_of_In|].
    by apply bool_decide_eq_true.
Qed.

Lemma with_delays_stability rd account tok text voice stab attempt j :
  Forall (λ e, ∀ s, sent_stability e = Some s → s = stab)
    (with_delays rd (posts_from account tok text voice stab attempt j)).
Proof.
  revert attempt. induction j as [|j IH]; intros attempt; [constructor|].
  specialize (IH (S attempt)). unfold posts_from in *.
  cbn [seq fmap list_fmap with_delays] in *.
  destruct j as [|j].
  - repeat constructor. by intros s [= <-].
  - cbn [seq fmap list_fmap] in *. repeat constructor; [by intros s [= <-] | done | done].
Qed.

(** C3: for every sequence of emotion markers, empty or not, the stability
    is 0.0 when a marker is one of excited, dramatic, nervous; otherwise 1.0
    when a marker is one of whispers, serious, thoughtful; otherwise 0.5;
    the high-energy test comes first, and every POST the call sends to the
    synthesis backend carries that value. *)
Theorem C3_stability_rule (R : Remote) (text voice : pystr) (emotions : list pystr)
    (w : World) :
  let stability := stability_of (Some emotions) in
  (intersects emotions high_energy → stability = 0%Q)
  ∧ (¬ intersects emotions high_energy → intersects emotions composed → stability = 1%Q)
  ∧ (¬ intersects emotions high_energy → ¬ intersects emotions composed →
     stability = (1 # 2)%Q)
  ∧ Forall (λ e, ∀ s, sent_stability e = Some s → s = stability)
      (events (text_to_speech_v3 R text voice (Some emotions) w)).
Proof.
  cbv zeta. repeat split.
  - intros Hhigh. unfold stability_of.
    assert (truthy (Some emotions) = true) as ->.
    { destruct Hhigh as (m & Hm & _). destruct emotions; [|done]. by apply elem_of_nil in Hm. }
    change (default [] (Some emotions)) with emotions. apply existsb_intersects in Hhigh.
    unfold high_energy in Hhigh. by rewrite Hhigh.
  - intros Hhigh Hcomposed. unfold stability_of.
    assert (truthy (Some emotions) = true) as ->.
    { destruct Hcomposed as (m & Hm & _). destruct emotions; [|done].
      by apply elem_of_nil in Hm. }
    change (default [] (Some emotions)) with emotions. apply existsb_intersects in Hcomposed.
    destruct (existsb _ emotions) eqn:E in |- *.
    { apply existsb_intersects in E. by destruct Hhigh. }
    unfold composed in Hcomposed. by rewrite Hcomposed.
  - intros Hhigh Hcomposed. unfold stability_of.
    destruct (truthy (Some emotions)); [|done].
    change (default [] (Some emotions)) with emotions.
    destruct (existsb _ emotions) eqn:E1 in |- *.
    { apply existsb_intersects in E1. by destruct Hhigh. }
    destruct (existsb _ emotions) eqn:E2 in |- *.
    { apply existsb_intersects in E2. by destruct Hcomposed. }
    done.
  - destruct (text_to_speech_v3_shape R text voice (Some emotions) w)
      as (pre & account & tok & j & Hq & _ & -> & _).
    apply Forall_app. split.
    + eapply Forall_impl; [exact Hq|]. intros e [He _] s. by destruct e.
    + apply with_delays_stability.
Qed.

Lemma C3_stability_rule_witness :
  stability_of (Some [py "whispers"; py "nervous"]) = 0%Q
  ∧ stability_of (Some [py "cheerful"; py "serious"]) = 1%Q
  ∧ stability_of (Some [py "cheerful"]) = (1 # 2)%Q
  ∧ stability_of (Some []) = (1 # 2)%Q.
Proof.
  split; [|split; [|split]].
  - apply (C3_stability_rule R_always_ok [] [] [py "whispers"; py "nervous"]
             (initial_world three_accounts)).
    exists (py "nervous"). split; apply (bool_decide_unpack _); vm_compute; exact I.
  - apply (C3_stability_rule R_always_ok [] [] [py "cheerful"; py "serious"]
             (initial_world three_accounts)).
    + intros (m & Hm & Hh). revert Hh. apply (bool_decide_unpack _).
      apply elem_of_cons in Hm as [->|Hm]; [vm_compute; exact I|].
      apply elem_of_cons in Hm as [->|Hm]; [vm_compute; exact I|].
      by apply elem_of_nil in Hm.
    + exists (py "serious"). split; apply (bool_decide_unpack _); vm_compute; exact I.
  - apply (C3_stability_rule R_always_ok [] [] [py "cheerful"] (initial_world three_accounts)).
    + intros (m & Hm & Hh). revert Hh. apply (bool_decide_unpack _).
      apply elem_of_cons in Hm as [->|Hm]; [vm_compute; exact I|].
      by apply elem_of_nil in Hm.
    + intros (m & Hm & Hh). revert Hh. apply (bool_decide_unpack _).
      apply elem_of_cons in Hm as [->|Hm]; [vm_compute; exact I|].
      by apply elem_of_nil in Hm.
  - apply (C3_stability_rule R_always_ok [] [] [] (initial_world three_accounts)).
    + intros (m & Hm & _). by apply elem_of_nil in Hm.
    + intros (m & Hm & _). by apply elem_of_nil in Hm.
Defined.

(** ** Token cache and rotation *)

(** C7: whenever a token is cached, [get_firebase_token] returns it
    unchanged, makes no remote call and leaves the rotation and token state
    as it was; a rotation moves the cursor to (cursor+1) mod length, resets
    the request counter and drops the cached token, so the next
    [get_firebase_token] signs in again with the credentials of the new
    current account and returns what the identity service answers. *)
Theorem C7_cached_token_and_rotation (R : Remote) (w : World) :
  (∀ c token, current_token w = Some (c :: token) →
     get_firebase_token R w
     = {| value := Ret (Some (c :: token)); world := w; events := [] |})
  ∧ (accounts w ≠ [] →
     let w' := world (rotate_account w) in
     value (rotate_account w) = Ret tt
     ∧ events (rotate_account w) = []
     ∧ accounts w' = accounts w
     ∧ current_account_index w'
       = ((current_account_index w + 1) mod length (accounts w))%nat
     ∧ tts_request_count w' = 0%nat
     ∧ current_token w' = None
     ∧ answered w' = answered w
     ∧ ∀ k key, FIREBASE_API_KEY R = Some (k :: key) →
         ∃ account rest,
           accounts w !! current_account_index w' = Some account
           ∧ events (get_firebase_token R w')
             = IdentityPost (k :: key) (email account) (password account) :: rest
           ∧ ∀ t, identity_service R (answered w) = IdToken t →
                  value (get_firebase_token R w') = Ret (Some t)
                  ∧ current_token (world (get_firebase_token R w')) = Some t).
Proof.
  split; [intros c token; apply get_firebase_token_cached|].
  intros Hacc. rewrite (rotate_account_run w Hacc). cbn [value world events].
  repeat split.
  intros k key Hkey.
  destruct (lookup_lt_is_Some_2 (accounts w)
              ((current_account_index w + 1) mod length (accounts w))) as [account Ha].
  { apply Nat.mod_upper_bound. by destruct (accounts w). }
  unfold get_firebase_token, get_current_account. run.
  destruct (accounts w) as [|a0 accs] eqn:E; [done|].
  rewrite Ha. msimpl. rewrite Hkey. msimpl.
  rewrite firebase_attempts_S. unfold identity_post. run.
  eexists account, _. split; [done|]. split; [reflexivity|].
  intros t ->. by msimpl.
Qed.

Lemma C7_cached_token_and_rotation_witness :
  current_account_index (world (rotate_account (initial_world three_accounts))) = 1%nat.
Proof.
  apply (C7_cached_token_and_rotation R_always_ok (initial_world three_accounts)).
  discriminate.
Defined.

(** ** The assembler loop *)

Section Assembler.

Variable R : Remote.

Lemma synthesize_and_place_value tl cleaned voice emotions start_time_ms w tl' :
  value (synthesize_and_place R tl cleaned voice emotions start_time_ms w) = Ret tl' →
  ∃ clip, tl' = place tl clip start_time_ms.
Proof.
  unfold synthesize_and_place, convert, load_mp3. run.
  destruct (text_to_speech_v3 R cleaned voice (Some emotions) w) as [[audio|e] w1 evs1];
    msimpl; [|done].
  destruct (truthy audio) eqn:Haudio; msimpl.
  - destruct (from_mp3 R (default [] audio)) as [n|e]; msimpl; [|done].
    intros [= <-]. by eexists.
  - destruct (convert_service R (answered w1)) as [fallback|e]; msimpl; [|done].
    destruct (from_mp3 R fallback) as [n|e]; msimpl; [|done].
    intros [= <-]. by eexists.
Qed.

(** An iteration never raises, and either leaves the timeline alone or
    places one clip at the segment's planned start. *)
Lemma process_segment_cases tl segment w :
  ∃ tl', value (process_segment R tl segment w) = Ret tl'
    ∧ (tl' = tl ∨ ∃ clip, tl' = place tl clip (start_time segment * 1000)).
Proof.
  unfold process_segment.
  destruct (bool_decide (type segment = py "dialogue")); [|by exists tl; split; [|left]].
  destruct (extract_emotion_and_text (text segment)) as [emotions cleaned].
  destruct (negb (truthy (VOICE_MAPPING !! speaker segment)));
    [by exists tl; split; [|left]|].
  unfold try_except.
  destruct (value (synthesize_and_place R tl cleaned
                     (default [] (VOICE_MAPPING !! speaker segment)) emotions
                     (start_time segment * 1000) w)) as [tl'|e] eqn:E.
  - exists tl'. split; [done|]. right. by eapply synthesize_and_place_value.
  - exists tl. split; [done | by left].
Qed.

(** The loop goes on with the remaining segments whatever one iteration
    did. *)
Lemma mix_segments_cons tl segment segments w tl' :
  value (process_segment R tl segment w) = Ret tl' →
  let o := process_segment R tl segment w in
  let o' := mix_segments R tl' segments (world o) in
  value (mix_segments R tl (segment :: segments) w) = value o'
  ∧ world (mix_segments R tl (segment :: segments) w) = world o'
  ∧ events (mix_segments R tl (segment :: segments) w) = events o ++ events o'.
Proof. intros H. cbn [mix_segments]. run. by rewrite H. Qed.

End Assembler.

(** ** Retries and fallback *)

(** A call that holds a token sends its request: between one and five
    attempts, 15 seconds apart, each but the last refused; it returns the
    audio of the first attempt that is answered with audio, and None once
    five attempts were refused. *)
Lemma text_to_speech_v3_retries (R : Remote) (text voice : pystr)
    (emotions : option (list pystr)) (w : World) (token : pystr) :
  let sign_in := get_firebase_token R (after_rotation_check w) in
  let first := answered (world sign_in) in
  let primary := text_to_speech_v3 R text voice emotions w in
  value sign_in = Ret (Some token) → token ≠ [] →
  ∃ j, (1 ≤ j ≤ 5)%nat
    ∧ events primary
      = events sign_in
        ++ with_delays 15
             (posts_from (current_account_index (world sign_in)) token text voice
                (stability_of emotions) 0 j)
    ∧ answered (world primary) = (first + j)%nat
    ∧ (∀ k, (k < j - 1)%nat → synthesis_failed (synthesis_service R (first + k)))
    ∧ (∀ k, (k < 4)%nat →
         (∀ i, (i ≤ k)%nat → synthesis_failed (synthesis_service R (first + i))) →
         (k + 2 ≤ j)%nat)
    ∧ ((∃ audio, synthesis_service R (first + (j - 1)) = Audio audio
                 ∧ value primary = Ret (Some audio))
       ∨ (j = 5%nat ∧ synthesis_failed (synthesis_service R (first + 4))
          ∧ value primary = Ret None)).
Proof.
  cbv zeta. intros Hsign Hne.
  assert (accounts w ≠ [] ∨ (tts_request_count w < 2)%nat) as Hacc.
  { destruct (accounts w) as [|a0 accs] eqn:Ha; [|by left]. right.
    destruct (Nat.lt_ge_cases (tts_request_count w) 2) as [|Hc]; [done|]. exfalso.
    revert Hsign. unfold after_rotation_check.
    replace (2 <=? tts_request_count w)%nat with true by (symmetry; by apply Nat.leb_le).
    unfold get_firebase_token, get_current_account, rotated. run. by rewrite Ha. }
  pose proof (text_to_speech_v3_by_token R text voice emotions w Hacc) as H.
  cbv zeta in H. rewrite Hsign in H. destruct token as [|t tok]; [done|].
  destruct H as (Hv & Hw & Hev).
  destruct (synthesis_attempts_spec R 5 15 (t :: tok) text voice (stability_of emotions) 4 0
              (counted (world (get_firebase_token R (after_rotation_check w)))) eq_refl)
    as (j & Hj & Hev2 & Hw2 & Hfail & Hlast).
  cbn [counted answered current_account_index] in Hev2, Hfail, Hlast.
  rewrite <- Hv in Hlast.
  assert ((∃ audio,
             synthesis_service R
               (answered (world (get_firebase_token R (after_rotation_check w))) + (j - 1))
             = Audio audio
             ∧ value (text_to_speech_v3 R text voice emotions w) = Ret (Some audio))
          ∨ (j = 5%nat
             ∧ synthesis_failed
                 (synthesis_service R
                    (answered (world (get_firebase_token R (after_rotation_check w))) + 4))
             ∧ value (text_to_speech_v3 R text voice emotions w) = Ret None)) as Hres.
  { destruct (value (text_to_speech_v3 R text voice emotions w)) as [[audio|]|e]; [| |done].
    - left. by exists audio.
    - right. destruct Hlast as [-> Hlast]. by repeat split. }
  exists j. split; [done|]. split; [by rewrite Hev, Hev2|].
  split; [by rewrite Hw, Hw2|]. split; [done|]. split; [|done].
  intros k Hk Hall. destruct Hres as [(audio & Ha & _) | (-> & _)]; [|lia].
  destruct (Nat.le_gt_cases (k + 2) j) as [|Hlt]; [done|]. exfalso.
  specialize (Hall (j - 1)%nat ltac:(lia)). by rewrite Ha in Hall.
Qed.

(** C8: a synthesis call that holds a token sends its request, and after
    a refused request (a status other than 200 or a transport error) sends
    it again 15 seconds later, up to 5 attempts in all; it returns the audio
    of the first attempt answered with audio and fails, returning None, only
    once all 5 attempts were refused.  When the call fails, the assembler
    makes exactly one fallback call with stability 0.5, similarity 0.75,
    style 0.0 and speaker boost on, without retrying it; when the fallback
    fails too the segment is skipped, the timeline stays as it was, and the
    loop goes on with the remaining segments. *)
Theorem C8_retries_then_single_fallback (R : Remote) (tl : Timeline) (segment : Segment)
    (voice : pystr) (w : World) :
  type segment = py "dialogue" →
  VOICE_MAPPING !! speaker segment = Some voice →
  voice ≠ [] →
  let emotions := (extract_emotion_and_text (text segment)).1 in
  let cleaned := (extract_emotion_and_text (text segment)).2 in
  let sign_in := get_firebase_token R (after_rotation_check w) in
  let first := answered (world sign_in) in
  let primary := text_to_speech_v3 R cleaned voice (Some emotions) w in
  let o := process_segment R tl segment w in
  (∀ token,
     value sign_in = Ret (Some token) → token ≠ [] →
     ∃ j, (1 ≤ j ≤ 5)%nat
       ∧ events primary
         = events sign_in
           ++ with_delays 15
                (posts_from (current_account_index (world sign_in)) token cleaned voice
                   (stability_of (Some emotions)) 0 j)
       ∧ answered (world primary) = (first + j)%nat
       ∧ (∀ k, (k < j - 1)%nat → synthesis_failed (synthesis_service R (first + k)))
       ∧ (∀ k, (k < 4)%nat →
            (∀ i, (i ≤ k)%nat → synthesis_failed (synthesis_service R (first + i))) →
            (k + 2 ≤ j)%nat)
       ∧ ((∃ audio, synthesis_service R (first + (j - 1)) = Audio audio
                    ∧ value primary = Ret (Some audio))
          ∨ (j = 5%nat ∧ synthesis_failed (synthesis_service R (first + 4))
             ∧ value primary = Ret None)))
  ∧ (value primary = Ret None →
     events o
     = events primary
       ++ [Convert voice cleaned
             {| vs_stability := 1 # 2; vs_similarity_boost := 3 # 4; vs_style := 0;
                vs_use_speaker_boost := true |}]
     ∧ (∀ e, convert_service R (answered (world primary)) = Raise e → value o = Ret tl)
     ∧ ∃ tl', value o = Ret tl'
         ∧ ∀ segments,
             value (mix_segments R tl (segment :: segments) w)
             = value (mix_segments R tl' segments (world o))
             ∧ events (mix_segments R tl (segment :: segments) w)
               = events o ++ events (mix_segments R tl' segments (world o))).
Proof.
  intros Htype Hvoice Hne. cbv zeta. split.
  - intros token. apply text_to_speech_v3_retries.
  - intros Hnone.
    assert (events (process_segment R tl segment w)
            = events (text_to_speech_v3 R (extract_emotion_and_text (text segment)).2 voice
                        (Some (extract_emotion_and_text (text segment)).1) w)
              ++ [Convert voice (extract_emotion_and_text (text segment)).2
                    default_voice_settings]
            ∧ ∀ e, convert_service R
                     (answered (world (text_to_speech_v3 R
                        (extract_emotion_and_text (text segment)).2 voice
                        (Some (extract_emotion_and_text (text segment)).1) w))) = Raise e →
                   value (process_segment R tl segment w) = Ret tl) as [Hev Hskip].
    { unfold process_segment. rewrite Htype, Hvoice.
      rewrite bool_decide_eq_true_2 by done.
      destruct (extract_emotion_and_text (text segment)) as [emotions cleaned].
      cbn [fst snd] in *. destruct voice as [|v voice]; [done|].
      cbn [truthy negb default from_option id].
      unfold try_except, synthesize_and_place, convert, load_mp3. run.
      destruct (text_to_speech_v3 R cleaned (v :: voice) (Some emotions) w) as [r w1 evs1].
      cbn [value world events] in *. subst r. msimpl.
      destruct (convert_service R (answered w1)) as [fallback|e]; msimpl.
      - destruct (from_mp3 R fallback) as [n|e]; msimpl; by rewrite ?app_nil_r.
      - split; [done|]. by intros. }
    split; [exact Hev|]. split; [exact Hskip|].
    destruct (process_segment_cases R tl segment w) as (tl' & Htl' & _).
    exists tl'. split; [done|]. intros segments.
    destruct (mix_segments_cons R tl segment segments w tl' Htl') as (Hv & _ & He).
    by split.
Qed.

Lemma C8_retries_then_single_fallback_witness :
  value (process_segment R_all_down initial_timeline host_line (initial_world three_accounts))
  = Ret initial_timeline.
Proof.
  refine (proj1 (proj2 (proj2 (C8_retries_then_single_fallback R_all_down initial_timeline
                                 host_line (py "mgugV8tLa3KQE4mfYTw5")
                                 (initial_world three_accounts) _ _ _) _))
            RemoteError _).
  - reflexivity.
  - vm_compute. reflexivity.
  - discriminate.
  - vm_compute. reflexivity.
  - reflexivity.
Defined.

Example all_down_trace :
  events (process_segment R_all_down initial_timeline host_line (initial_world three_accounts))
  = let post k :=
      SynthesisPost 0 k (py "token") (py "hello there") (py "mgugV8tLa3KQE4mfYTw5") 0 true in
    [ IdentityPost (py "key") (py "a@example.com") (py "pa");
      TokenOK (py "a@example.com") (py "token");
      post 0%nat; Sleep 15; post 1%nat; Sleep 15; post 2%nat; Sleep 15; post 3%nat; Sleep 15;
      post 4%nat;
      Convert (py "mgugV8tLa3KQE4mfYTw5") (py "hello there") default_voice_settings ].
Proof. vm_compute. reflexivity. Qed.

Example retry_until_audio_trace :
  let o := text_to_speech_v3 R_flaky (py "hello there") (py "mgugV8tLa3KQE4mfYTw5")
             (Some [py "excited"]) (initial_world three_accounts) in
  let sign_in := IdentityPost (py "key") (py "a@example.com") (py "pa") in
  let post k :=
    SynthesisPost 0 k (py "token") (py "hello there") (py "mgugV8tLa3KQE4mfYTw5") 0 true in
  value o = Ret (Some ["x"%byte])
  ∧ events o
    = [ sign_in; Sleep 3; sign_in; Sleep 3; sign_in; TokenOK (py "a@example.com") (py "token");
        post 0%nat; Sleep 15; post 1%nat; Sleep 15; post 2%nat ].
Proof. by vm_compute. Qed.

(** ** Timeline *)

Lemma initial_timeline_settled : settled initial_timeline.
Proof.
  split; [|split; [|split]]; cbn.
  - intros n p1 c1 p2 c2 H. by rewrite lookup_nil in H.
  - done.
  - constructor.
  - lia.
Qed.

Lemma place_placements tl clip planned :
  placements (final_podcast (place tl clip planned))
  = placements (final_podcast tl) ++ [(Z.max planned (previous_end_time tl + 500), clip)]
  ∧ previous_end_time (place tl clip planned)
    = Z.max planned (previous_end_time tl + 500) + Z.of_N (len clip).
Proof. done. Qed.

Lemma place_settled tl clip planned : settled tl → settled (place tl clip planned).
Proof.
  intros (Hgap & Hlast & Hmin & Hpos).
  destruct (place_placements tl clip planned) as [Hp He]. unfold settled. rewrite Hp, He.
  split; [|split; [|split]].
  - intros n p1 c1 p2 c2 H1 H2.
    destruct (decide (S n < length (placements (final_podcast tl)))%nat) as [Hn|Hn].
    + rewrite lookup_app_l in H1 by lia. rewrite lookup_app_l in H2 by lia. eauto.
    + assert (S n = length (placements (final_podcast tl))) as Hlen.
      { apply lookup_lt_Some in H2. rewrite length_app in H2. simpl in H2. lia. }
      rewrite lookup_app_l in H1 by lia.
      rewrite lookup_app_r in H2 by lia. rewrite Hlen, Nat.sub_diag in H2.
      injection H2 as <- <-.
      assert (last (placements (final_podcast tl)) = Some (p1, c1)) as Hl.
      { rewrite last_lookup, <- Hlen. done. }
      rewrite <- (Hlast _ _ Hl). lia.
  - intros p c. rewrite last_snoc. by intros [= <- <-].
  - apply Forall_app. split; [done|]. repeat constructor. cbn. lia.
  - lia.
Qed.

Section Timeline.

Variable R : Remote.

Lemma mix_segments_settled segments tl w :
  settled tl →
  ∃ tl', value (mix_segments R tl segments w) = Ret tl' ∧ settled tl'
    ∧ ∃ more, placements (final_podcast tl') = placements (final_podcast tl) ++ more.
Proof.
  revert tl w. induction segments as [|segment segments IH]; intros tl w Hs.
  - exists tl. split; [done|]. split; [done|]. exists []. by rewrite app_nil_r.
  - destruct (process_segment_cases R tl segment w) as (tl1 & Hv & Hcase).
    destruct (mix_segments_cons R tl segment segments w tl1 Hv) as (-> & _ & _).
    destruct Hcase as [->|[clip ->]].
    + by apply IH.
    + destruct (IH (place tl clip (start_time segment * 1000))
                  (world (process_segment R tl segment w)))
        as (tl' & Hv' & Hs' & more & Hm); [by apply place_settled|].
      exists tl'. split; [done|]. split; [done|].
      exists ((Z.max (start_time segment * 1000) (previous_end_time tl + 500), clip) :: more).
      rewrite Hm. destruct (place_placements tl clip (start_time segment * 1000)) as [-> _].
      by rewrite <- app_assoc.
Qed.

Lemma first_placement segments w tl' p c rest :
  value (mix_segments R initial_timeline segments w) = Ret tl' →
  placements (final_podcast tl') = (p, c) :: rest →
  ∃ pre segment post,
    segments = pre ++ segment :: post
    ∧ value (mix_segments R initial_timeline pre w) = Ret initial_timeline
    ∧ p = Z.max (start_time segment * 1000) 500.
Proof.
  revert w. induction segments as [|segment segments IH]; intros w Hv Hp.
  - injection Hv as <-. done.
  - destruct (process_segment_cases R initial_timeline segment w) as (tl1 & Hv1 & Hcase).
    destruct (mix_segments_cons R initial_timeline segment segments w tl1 Hv1)
      as (Hvalue & _ & _).
    rewrite Hvalue in Hv. destruct Hcase as [->|[clip ->]].
    + destruct (IH _ Hv Hp) as (pre & segment' & post & -> & Hpre & ->).
      exists (segment :: pre), segment', post. split; [done|]. split; [|done].
      destruct (mix_segments_cons R initial_timeline segment pre w initial_timeline Hv1)
        as (-> & _ & _). done.
    + exists [], segment, segments. split; [done|]. split; [done|].
      destruct (mix_segments_settled segments
                  (place initial_timeline clip (start_time segment * 1000))
                  (world (process_segment R initial_timeline segment w)))
        as (tl'' & Hv'' & _ & more & Hm).
      { apply place_settled, initial_timeline_settled. }
      rewrite Hv in Hv''. injection Hv'' as <-.
      rewrite Hm in Hp. cbn in Hp. by injection Hp as <- _ _.
Qed.

Lemma process_segment_unmapped tl segment w :
  type segment = py "dialogue" →
  VOICE_MAPPING !! speaker segment = None →
  process_segment R tl segment w = {| value := Ret tl; world := w; events := [] |}.
Proof.
  intros Htype Hvoice. unfold process_segment. rewrite Htype, Hvoice.
  rewrite bool_decide_eq_true_2 by done.
  by destruct (extract_emotion_and_text (text segment)).
Qed.

Lemma mix_segments_unmapped tl pre segment post w :
  type segment = py "dialogue" →
  VOICE_MAPPING !! speaker segment = None →
  mix_segments R tl (pre ++ segment :: post) w = mix_segments R tl (pre ++ post) w.
Proof.
  intros Htype Hvoice. revert tl w. induction pre as [|s pre IH]; intros tl w.
  - cbn [app mix_segments]. run. rewrite process_segment_unmapped by done. msimpl.
    by destruct (mix_segments R tl post w).
  - cbn [app mix_segments]. run.
    destruct (process_segment R tl s w) as [[tl1|e] w1 evs1]; msimpl; [|done].
    by rewrite IH.
Qed.

End Timeline.

(** C1: every clip the compositor places lands at
    max(plannedStartMs, previousClipEndMs + 500), after which
    previousClipEndMs is that offset plus the clip's duration; an iteration
    of the loop places at most one clip, at the segment's planned start in
    ms; so in the finished canvas every clip after the first starts at least
    500 ms after the end of the one before, however early its planned start
    is. *)
Theorem C1_no_overlap (R : Remote) (segments : list Segment) (w : World) :
  (∀ tl clip planned,
     placements (final_podcast (place tl clip planned))
     = placements (final_podcast tl) ++ [(Z.max planned (previous_end_time tl + 500), clip)]
     ∧ previous_end_time (place tl clip planned)
       = Z.max planned (previous_end_time tl + 500) + Z.of_N (len clip))
  ∧ (∀ tl segment w0,
       ∃ tl', value (process_segment R tl segment w0) = Ret tl'
         ∧ (tl' = tl ∨ ∃ clip, tl' = place tl clip (start_time segment * 1000)))
  ∧ ∃ tl', value (create_and_mix_audio R segments w) = Ret tl'
      ∧ ∀ n p1 c1 p2 c2,
          placements (final_podcast tl') !! n = Some (p1, c1) →
          placements (final_podcast tl') !! S n = Some (p2, c2) →
          p2 >= p1 + Z.of_N (len c1) + 500.
Proof.
  split; [apply place_placements|]. split; [apply process_segment_cases|].
  unfold create_and_mix_audio.
  destruct (mix_segments_settled R segments initial_timeline w initial_timeline_settled)
    as (tl' & Hv & (Hgap & _) & _).
  exists tl'. split; [exact Hv|]. intros n p1 c1 p2 c2 H1 H2.
  specialize (Hgap n p1 c1 p2 c2 H1 H2). lia.
Qed.

Lemma C1_no_overlap_witness : 3700 >= 2000 + Z.of_N 1200 + 500.
Proof.
  destruct (C1_no_overlap R_always_ok [host_line; guest_line] (initial_world three_accounts))
    as (_ & _ & tl' & Hv & Hgap).
  vm_compute in Hv. injection Hv as <-.
  exact (Hgap 0%nat 2000 {| mp3 := ["x"%byte]; len := 1200 |}
           3700 {| mp3 := ["x"%byte]; len := 1200 |} eq_refl eq_refl).
Defined.

(** C9: a dialogue segment whose speaker has no entry in the voice mapping
    places no clip, leaves the canvas, previousClipEndMs and all other state
    untouched and sends nothing; the run is not aborted: the script is
    processed exactly as if the segment were not there. *)
Theorem C9_unmapped_speaker_skipped (R : Remote) (tl : Timeline) (segment : Segment)
    (pre post : list Segment) (w : World) :
  type segment = py "dialogue" →
  VOICE_MAPPING !! speaker segment = None →
  process_segment R tl segment w = {| value := Ret tl; world := w; events := [] |}
  ∧ mix_segments R tl (pre ++ segment :: post) w = mix_segments R tl (pre ++ post) w
  ∧ create_and_mix_audio R (pre ++ segment :: post) w = create_and_mix_audio R (pre ++ post) w.
Proof.
  intros Htype Hvoice. split; [by apply process_segment_unmapped|].
  split; [by apply mix_segments_unmapped|].
  unfold create_and_mix_audio. by apply mix_segments_unmapped.
Qed.

Lemma C9_unmapped_speaker_skipped_witness :
  create_and_mix_audio R_always_ok ([host_line] ++ stranger_line :: [guest_line])
    (initial_world three_accounts)
  = create_and_mix_audio R_always_ok ([host_line] ++ [guest_line])
      (initial_world three_accounts).
Proof.
  refine (proj2 (proj2 (C9_unmapped_speaker_skipped R_always_ok initial_timeline
                          stranger_line [host_line] [guest_line]
                          (initial_world three_accounts) _ _))).
  - reflexivity.
  - vm_compute. reflexivity.
Defined.

(** C10: the first clip on the timeline is placed at max(plannedStartMs, 500):
    the loop starts with previousClipEndMs = 0 and always adds the 500 ms
    gap, so no clip is placed below 500 ms, even when it is planned at
    second 0. *)
Theorem C10_first_clip_after_500ms (R : Remote) (segments : list Segment) (w : World) :
  (∀ clip planned,
     placements (final_podcast (place initial_timeline clip planned))
     = [(Z.max planned 500, clip)])
  ∧ ∃ tl', value (create_and_mix_audio R segments w) = Ret tl'
      ∧ Forall (λ pc, 500 ≤ pc.1) (placements (final_podcast tl'))
      ∧ ∀ p c rest,
          placements (final_podcast tl') = (p, c) :: rest →
          ∃ pre segment post,
            segments = pre ++ segment :: post
            ∧ value (create_and_mix_audio R pre w) = Ret initial_timeline
            ∧ p = Z.max (start_time segment * 1000) 500.
Proof.
  split; [done|]. unfold create_and_mix_audio.
  destruct (mix_segments_settled R segments initial_timeline w initial_timeline_settled)
    as (tl' & Hv & (_ & _ & Hmin & _) & _).
  exists tl'. split; [exact Hv|]. split; [exact Hmin|].
  intros p c rest Hp. exact (first_placement R segments w tl' p c rest Hv Hp).
Qed.

Lemma C10_first_clip_after_500ms_witness :
  ∃ pre segment post,
    [stranger_line; opening_line; guest_line] = pre ++ segment :: post
    ∧ value (create_and_mix_audio R_always_ok pre (initial_world three_accounts))
      = Ret initial_timeline
    ∧ 500 = Z.max (start_time segment * 1000) 500.
Proof.
  destruct (C10_first_clip_after_500ms R_always_ok [stranger_line; opening_line; guest_line]
              (initial_world three_accounts)) as (_ & tl' & Hv & _ & Hfirst).
  vm_compute in Hv. injection Hv as <-.
  exact (Hfirst 500 {| mp3 := ["x"%byte]; len := 1200 |}
           [(3000, {| mp3 := ["x"%byte]; len := 1200 |})] eq_refl).
Defined.

(** * Further properties of the source *)

(** ** [str.strip] *)

Lemma lstrip_split s : ∃ ws, s = ws ++ lstrip s ∧ Forall (λ c, is_space c = true) ws.
Proof.
  induction s as [|c s (ws & Hs & Hws)]; [by exists []|]. simpl.
  destruct (is_space c) eqn:Hc.
  - exists (c :: ws). split; [simpl; by f_equal | by constructor].
  - by exists [].
Qed.

Lemma lstrip_head s c rest : lstrip s = c :: rest → is_space c = false.
Proof.
  induction s as [|x s IH]; [done|]. simpl.
  destruct (is_space x) eqn:Hx; [done|]. by intros [= <- _].
Qed.

Lemma lstrip_fixed c s : is_space c = false → lstrip (c :: s) = c :: s.
Proof. intros H. simpl. by rewrite H. Qed.

Lemma lstrip_idem s : lstrip (lstrip s) = lstrip s.
Proof.
  destruct (lstrip s) as [|c rest] eqn:E; [done|].
  apply lstrip_fixed. by eapply lstrip_head.
Qed.

Lemma lstrip_app_nonspace pre c rest :
  is_space c = false → lstrip (pre ++ c :: rest) = lstrip pre ++ c :: rest.
Proof.
  intros Hc. induction pre as [|x pre IH]; simpl; [by rewrite Hc|].
  by destruct (is_space x).
Qed.

Lemma rstrip_app_nonspace init c post :
  is_space c = false → rstrip (init ++ c :: post) = init ++ c :: rstrip post.
Proof.
  intros Hc. unfold rstrip. rewrite rev_app_distr. cbn [rev].
  rewrite <- app_assoc. cbn [app]. rewrite lstrip_app_nonspace by done.
  rewrite rev_app_distr. cbn [rev]. rewrite rev_involutive.
  by rewrite <- app_assoc.
Qed.

Lemma strip_app_nonspace pre c post :
  is_space c = false → strip (pre ++ c :: post) = lstrip pre ++ c :: rstrip post.
Proof.
  intros Hc. change (strip (pre ++ c :: post)) with (rstrip (lstrip (pre ++ c :: post))).
  rewrite lstrip_app_nonspace by done. by apply rstrip_app_nonspace.
Qed.

Lemma rstrip_split s : ∃ ws, s = rstrip s ++ ws ∧ Forall (λ c, is_space c = true) ws.
Proof.
  destruct (lstrip_split (rev s)) as (ws & Hs & Hws). exists (rev ws). split.
  - unfold rstrip. rewrite <- rev_app_distr, <- Hs. by rewrite rev_involutive.
  - by apply Forall_rev.
Qed.

Lemma rstrip_last s init c : rstrip s = init ++ [c] → is_space c = false.
Proof.
  unfold rstrip. intros H. apply (f_equal (@rev N)) in H.
  rewrite rev_involutive, rev_app_distr in H. cbn in H. by eapply lstrip_head.
Qed.

Lemma rstrip_idem s : rstrip (rstrip s) = rstrip s.
Proof. unfold rstrip. by rewrite rev_involutive, lstrip_idem. Qed.

(** What [strip] returns sits in the text between two runs of whitespace. *)
Lemma strip_infix s :
  ∃ l r, s = l ++ strip s ++ r
    ∧ Forall (λ c, is_space c = true) l ∧ Forall (λ c, is_space c = true) r.
Proof.
  destruct (lstrip_split s) as (l & Hl & Hwl).
  destruct (rstrip_split (lstrip s)) as (r & Hr & Hwr).
  exists l, r. split; [|done].
  change (strip s) with (rstrip (lstrip s)). by rewrite <- Hr.
Qed.

Lemma strip_head s c rest : strip s = c :: rest → is_space c = false.
Proof.
  change (strip s) with (rstrip (lstrip s)). intros H.
  destruct (rstrip_split (lstrip s)) as (r & Hr & _). rewrite H in Hr.
  by eapply lstrip_head.
Qed.

Lemma strip_last s init c : strip s = init ++ [c] → is_space c = false.
Proof. apply rstrip_last. Qed.

Lemma strip_idem s : strip (strip s) = strip s.
Proof.
  assert (lstrip (strip s) = strip s) as H.
  { destruct (strip s) as [|c rest] eqn:E; [done|].
    apply lstrip_fixed. by eapply strip_head. }
  change (strip (strip s)) with (rstrip (lstrip (strip s))). rewrite H.
  change (strip s) with (rstrip (lstrip s)). apply rstrip_idem.
Qed.

Lemma strip_elem s c : c ∈ strip s → c ∈ s.
Proof.
  destruct (strip_infix s) as (l & r & Hs & _). intros Hc. rewrite Hs.
  apply elem_of_app. right. apply elem_of_app. by left.
Qed.

Lemma elem_strip s c : is_space c = false → c ∈ s → c ∈ strip s.
Proof.
  destruct (strip_infix s) as (l & r & Hs & Hl & Hr). intros Hc Hin.
  rewrite Hs in Hin. rewrite Forall_forall in Hl, Hr.
  apply elem_of_app in Hin as [Hin|Hin]; [specialize (Hl c Hin); congruence|].
  apply elem_of_app in Hin as [Hin|Hin]; [done|]. specialize (Hr c Hin). congruence.
Qed.

(** ** More on the parser *)

Lemma markers_of_bracketed s m :
  m ∈ markers_of s →
  m ≠ [] ∧ (RBRACKET ∉ m) ∧ ∃ pre post, s = pre ++ LBRACKET :: m ++ RBRACKET :: post.
Proof.
  unfold markers_of. remember (length s) as n eqn:Hn.
  assert (length s ≤ n)%nat as Hle by lia. clear Hn.
  revert s Hle m. induction n as [|n IH]; intros [|c s] Hle m; cbn [scan fst length] in *;
    try (by intros ?%elem_of_nil); [lia|].
  destruct (N.eqb_spec c LBRACKET) as [->|Hc].
  - rewrite scan_inside. destruct (until_close s) as [[mm post]|] eqn:E;
      [|by intros ?%elem_of_nil].
    pose proof (until_close_length _ _ _ E) as Hlen.
    apply until_close_Some in E as [-> Hr].
    specialize (IH post ltac:(lia) m).
    destruct (scan post None) as [ms t]. cbn [app fst] in *.
    destruct mm as [|c1 mm]; cbn [fst].
    + intros Hm. destruct (IH Hm) as (Hne & Hnr & pre & post' & ->).
      split; [done|]. split; [done|]. by exists (LBRACKET :: RBRACKET :: pre), post'.
    + intros [->|Hm]%elem_of_cons.
      * split; [done|]. split; [done|]. by exists [], post.
      * destruct (IH Hm) as (Hne & Hnr & pre & post' & ->).
        split; [done|]. split; [done|].
        exists (LBRACKET :: (c1 :: mm) ++ RBRACKET :: pre), post'.
        cbn. by rewrite <- app_assoc.
  - specialize (IH s ltac:(lia) m). destruct (scan s None) as [ms t]. cbn [fst] in *.
    intros Hm. destruct (IH Hm) as (Hne & Hnr & pre & post' & ->).
    split; [done|]. split; [done|]. by exists (c :: pre), post'.
Qed.

(** X1: every marker [extract_emotion_and_text] returns is non-empty, holds
    no closing bracket, and stands in the text between an opening and a
    closing bracket. *)
Theorem markers_are_bracketed (text m : pystr) :
  m ∈ (extract_emotion_and_text text).1 →
  m ≠ [] ∧ (RBRACKET ∉ m) ∧ ∃ pre post, text = pre ++ LBRACKET :: m ++ RBRACKET :: post.
Proof. rewrite extract_emotion_and_text_scan. apply markers_of_bracketed. Qed.

Lemma markers_are_bracketed_witness :
  py "whispers" ≠ [] ∧ (RBRACKET ∉ py "whispers")
  ∧ ∃ pre post,
      py "[excited] hi [whispers] there" = pre ++ LBRACKET :: py "whispers" ++ RBRACKET :: post.
Proof.
  apply (markers_are_bracketed (py "[excited] hi [whispers] there") (py "whispers")).
  apply (bool_decide_unpack _). vm_compute. exact I.
Defined.

Lemma collapse_whitespace_nonspace c s :
  is_space c = false → collapse_whitespace (c :: s) = c :: collapse_whitespace s.
Proof. intros H. cbn [collapse_whitespace]. by rewrite H. Qed.

Lemma collapse_whitespace_single_spaced s : single_spaced (collapse_whitespace s).
Proof.
  remember (length s) as n eqn:Hn.
  assert (length s ≤ n)%nat as Hle by lia. clear Hn.
  revert s Hle. induction n as [|n IH]; intros [|c s] Hle; try done; [simpl in Hle; lia|].
  simpl in Hle. destruct (is_space c) eqn:Hc.
  - rewrite collapse_whitespace_space by done.
    pose proof (lstrip_length s) as Hl. cbn [single_spaced]. split; [|apply IH; lia].
    intros _. split; [done|].
    destruct (lstrip s) as [|x rest] eqn:E; [done|].
    rewrite collapse_whitespace_nonspace by (by eapply lstrip_head). by eapply lstrip_head.
  - rewrite collapse_whitespace_nonspace by done. cbn [single_spaced].
    split; [by rewrite Hc | apply IH; lia].
Qed.

Lemma single_spaced_suffix l t : single_spaced (l ++ t) → single_spaced t.
Proof. induction l as [|c l IH]; [done|]. intros [_ H]. by apply IH. Qed.

Lemma single_spaced_prefix t r : single_spaced (t ++ r) → single_spaced t.
Proof.
  induction t as [|c t IH]; [done|]. cbn [app single_spaced]. intros [Hc H].
  split; [|by apply IH]. intros Hs. destruct (Hc Hs) as [-> Hnext]. split; [done|].
  by destruct t.
Qed.

Lemma single_spaced_strip s : single_spaced s → single_spaced (strip s).
Proof.
  destruct (strip_infix s) as (l & r & Hs & _). intros H. rewrite Hs in H.
  by eapply single_spaced_prefix, single_spaced_suffix.
Qed.

Lemma single_spaced_elem t c : single_spaced t → c ∈ t → is_space c = true → c = SPACE.
Proof.
  induction t as [|x t IH]; [by intros _ ?%elem_of_nil|].
  intros [Hx Ht] [->|Hin]%elem_of_cons Hc; [by destruct (Hx Hc) | by apply IH].
Qed.

Lemma single_spaced_pair t pre a b post :
  single_spaced t → t = pre ++ a :: b :: post → is_space a = true → is_space b = false.
Proof.
  intros Ht ->. apply single_spaced_suffix in Ht. destruct Ht as [Ha _].
  intros Hs. by destruct (Ha Hs).
Qed.

Lemma single_spaced_collapse t : single_spaced t → collapse_whitespace t = t.
Proof.
  induction t as [|c t IH]; [done|]. intros [Hc Ht]. specialize (IH Ht).
  destruct (is_space c) eqn:Hs.
  - destruct (Hc eq_refl) as [-> Hnext]. destruct t as [|c' t].
    + done.
    + change (collapse_whitespace (SPACE :: c' :: t))
        with (if is_space SPACE then
                if is_space c' then collapse_whitespace (c' :: t)
                else SPACE :: collapse_whitespace (c' :: t)
              else SPACE :: collapse_whitespace (c' :: t)).
      rewrite Hs, Hnext. by rewrite IH.
  - rewrite collapse_whitespace_nonspace by done. by rewrite IH.
Qed.

(** X2: the clean text is normalised: it neither starts nor ends with
    whitespace, its only whitespace characters are spaces, and no two of
    them are adjacent. *)
Theorem clean_text_is_normalised (text : pystr) :
  let clean := (extract_emotion_and_text text).2 in
  (∀ c rest, clean = c :: rest → is_space c = false)
  ∧ (∀ init c, clean = init ++ [c] → is_space c = false)
  ∧ (∀ c, c ∈ clean → is_space c = true → c = SPACE)
  ∧ (∀ pre a b post, clean = pre ++ a :: b :: post → is_space a = true → is_space b = false).
Proof.
  cbv zeta. rewrite extract_emotion_and_text_scan. cbn [snd].
  pose proof (single_spaced_strip _
                (collapse_whitespace_single_spaced (without_markers text))) as Hs.
  split; [intros c rest; apply strip_head|].
  split; [intros init c; apply strip_last|].
  split; [intros c; by apply single_spaced_elem|].
  intros pre a b post. by apply single_spaced_pair.
Qed.

Lemma clean_text_is_normalised_witness : is_space 104 = false.
Proof.
  refine (proj1 (clean_text_is_normalised
                   (py "  [excited] hello   [giggles]  there  ")) 104%N (py "ello there") _).
  vm_compute. reflexivity.
Defined.

Lemma no_close_inert t : RBRACKET ∉ t → brackets_inert t.
Proof.
  induction t as [|c t IH]; [done|]. intros [Hc Ht]%not_elem_of_cons.
  split; [by right | by apply IH].
Qed.

Lemma without_markers_inert s : brackets_inert (without_markers s).
Proof.
  unfold without_markers. remember (length s) as n eqn:Hn.
  assert (length s ≤ n)%nat as Hle by lia. clear Hn.
  revert s Hle. induction n as [|n IH]; intros [|c s] Hle; cbn [scan snd length] in *;
    try done; [lia|].
  destruct (N.eqb_spec c LBRACKET) as [->|Hc].
  - rewrite scan_inside. destruct (until_close s) as [[mm post]|] eqn:E.
    + pose proof (until_close_length _ _ _ E) as Hlen.
      specialize (IH post ltac:(lia)). destruct (scan post None) as [ms t].
      cbn [app snd] in *. destruct mm; cbn [snd]; [|done].
      split; [by left|]. split; [done | exact IH].
    + apply until_close_None in E. cbn [app snd]. split; [by right | by apply no_close_inert].
  - specialize (IH s ltac:(lia)). destruct (scan s None) as [ms t]. cbn [snd] in *.
    by split.
Qed.

Lemma brackets_inert_suffix l t : brackets_inert (l ++ t) → brackets_inert t.
Proof. induction l as [|c l IH]; [done|]. intros [_ H]. by apply IH. Qed.

Lemma brackets_inert_prefix t r : brackets_inert (t ++ r) → brackets_inert t.
Proof.
  induction t as [|c t IH]; [done|]. cbn [app brackets_inert]. intros [Hc H].
  split; [|by apply IH]. intros Hl. destruct t as [|c' t]; [right; apply not_elem_of_nil|].
  destruct (Hc Hl) as [Hhead|Hno]; [by left|]. right.
  intros Hin. apply Hno. apply elem_of_app. by left.
Qed.

Lemma collapse_whitespace_elem s c : c ∈ collapse_whitespace s → c ∈ s ∨ c = SPACE.
Proof.
  induction s as [|x s IH]; [by left|].
  destruct (is_space x) eqn:Hx.
  - cbn [collapse_whitespace]. rewrite Hx. destruct s as [|x' s].
    + intros [->|?%elem_of_nil]%elem_of_cons; [by right | done].
    + destruct (is_space x').
      * intros Hin. destruct (IH Hin) as [?|?]; [left; by apply elem_of_cons; right | by right].
      * intros [->|Hin]%elem_of_cons; [by right|].
        destruct (IH Hin) as [?|?]; [left; by apply elem_of_cons; right | by right].
  - rewrite collapse_whitespace_nonspace by done.
    intros [->|Hin]%elem_of_cons; [left; by apply elem_of_cons; left|].
    destruct (IH Hin) as [?|?]; [left; by apply elem_of_cons; right | by right].
Qed.

Lemma lstrip_inert s : brackets_inert s → brackets_inert (lstrip s).
Proof.
  destruct (lstrip_split s) as (ws & Hs & _). intros H. rewrite Hs in H.
  by eapply brackets_inert_suffix.
Qed.

Lemma collapse_whitespace_inert s : brackets_inert s → brackets_inert (collapse_whitespace s).
Proof.
  remember (length s) as n eqn:Hn.
  assert (length s ≤ n)%nat as Hle by lia. clear Hn.
  revert s Hle. induction n as [|n IH]; intros [|c s] Hle; try done; [simpl in Hle; lia|].
  simpl in Hle. intros [Hc Hs]. destruct (is_space c) eqn:Hsp.
  - rewrite collapse_whitespace_space by done. pose proof (lstrip_length s) as Hl.
    split; [done|]. apply IH; [lia | by apply lstrip_inert].
  - rewrite collapse_whitespace_nonspace by done. split; [|apply IH; [lia | done]].
    intros Hl. destruct (Hc Hl) as [Hhead|Hno].
    + left. destruct s as [|x s]; [done|]. injection Hhead as ->.
      by rewrite collapse_whitespace_nonspace.
    + right. intros [Hin|Heq]%collapse_whitespace_elem; done.
Qed.

Lemma brackets_inert_no_marker t : brackets_inert t → ¬ has_marker t.
Proof.
  intros Ht (pre & m & post & -> & Hm & Hr).
  apply brackets_inert_suffix in Ht. destruct Ht as [Hl _].
  destruct (Hl eq_refl) as [Hhead|Hno].
  - destruct m as [|c m]; [done|]. injection Hhead as ->.
    apply Hr. apply elem_of_cons. by left.
  - apply Hno. apply elem_of_app. right. apply elem_of_cons. by left.
Qed.

(** X3: cleaning is idempotent: the clean text holds no bracketed marker, and
    parsing it again returns no marker and the same text. *)
Theorem clean_text_is_final (text : pystr) :
  let clean := (extract_emotion_and_text text).2 in
  ¬ has_marker clean ∧ extract_emotion_and_text clean = ([], clean).
Proof.
  cbv zeta. rewrite extract_emotion_and_text_scan. cbn [snd].
  set (clean := strip (collapse_whitespace (without_markers text))).
  assert (¬ has_marker clean) as Hno.
  { apply brackets_inert_no_marker. unfold clean.
    destruct (strip_infix (collapse_whitespace (without_markers text))) as (l & r & Hs & _).
    pose proof (collapse_whitespace_inert _ (without_markers_inert text)) as H.
    rewrite Hs in H. by eapply brackets_inert_prefix, brackets_inert_suffix. }
  split; [done|].
  rewrite extract_emotion_and_text_scan. unfold markers_of, without_markers.
  rewrite scan_no_marker by done. cbn [fst snd]. f_equal.
  rewrite single_spaced_collapse.
  - apply strip_idem.
  - apply single_spaced_strip, collapse_whitespace_single_spaced.
Qed.

(** ** [load_accounts] *)

Lemma split_once_spec sep s :
  sep ∈ s → s = (split_once sep s).1 ++ sep :: (split_once sep s).2 ∧ sep ∉ (split_once sep s).1.
Proof.
  induction s as [|c s IH]; [by intros ?%elem_of_nil|]. cbn [split_once].
  destruct (N.eqb_spec c sep) as [->|Hc].
  - intros _. split; [done | apply not_elem_of_nil].
  - intros [?|Hin]%elem_of_cons; [done|]. destruct (IH Hin) as [Hs Hno].
    destruct (split_once sep s) as [before after]. cbn [fst snd] in *.
    split; [by rewrite Hs at 1|]. apply not_elem_of_cons. split; [congruence | done].
Qed.

Lemma split_once_app sep before after :
  sep ∉ before → split_once sep (before ++ sep :: after) = (before, after).
Proof.
  induction before as [|c before IH]; cbn [app split_once].
  - intros _. by rewrite N.eqb_refl.
  - intros [Hc Hno]%not_elem_of_cons. destruct (N.eqb_spec c sep); [done|].
    by rewrite IH.
Qed.

Lemma colon_not_space : is_space COLON = false.
Proof. reflexivity. Qed.

(** A line gives an account exactly when it holds a colon. *)
Lemma parse_auth_line_None line : parse_auth_line line = None ↔ COLON ∉ line.
Proof.
  unfold parse_auth_line. split.
  - intros H Hin. apply (elem_strip _ _ colon_not_space) in Hin.
    rewrite (bool_decide_eq_true_2 _ Hin) in H.
    destruct (strip line) as [|c rest]; [by apply elem_of_nil in Hin|].
    cbn [truthy andb] in H. by destruct (split_once COLON (c :: rest)).
  - intros Hno. rewrite bool_decide_eq_false_2; [by rewrite andb_false_r|].
    intros Hin. by apply strip_elem in Hin.
Qed.

Lemma parse_auth_line_Some line a :
  parse_auth_line line = Some a →
  (COLON ∉ email a) ∧ strip (email a) = email a ∧ strip (password a) = password a.
Proof.
  unfold parse_auth_line.
  destruct (truthy (Some (strip line))); [|done]. cbn [andb].
  destruct (bool_decide (COLON ∈ strip line)) eqn:Hin; [|done].
  apply bool_decide_eq_true in Hin. destruct (split_once_spec _ _ Hin) as [_ Hno].
  destruct (split_once COLON (strip line)) as [before after]. cbn [fst] in Hno.
  intros [= <-]. cbn [email password].
  split; [|split; apply strip_idem]. intros Hc. by apply strip_elem in Hc.
Qed.

Lemma strip_fixed_ends s : strip s = s → lstrip s = s ∧ rstrip s = s.
Proof.
  intros H. split.
  - rewrite <- H. destruct (strip s) as [|c rest] eqn:E; [done|].
    apply lstrip_fixed. by eapply strip_head.
  - rewrite <- H at 1. change (strip s) with (rstrip (lstrip s)).
    rewrite rstrip_idem. exact H.
Qed.

Lemma rstrip_newline s : rstrip (s ++ [NEWLINE]) = rstrip s.
Proof. unfold rstrip. rewrite rev_app_distr. reflexivity. Qed.

Lemma parse_auth_line_written a :
  COLON ∉ email a → strip (email a) = email a → strip (password a) = password a →
  parse_auth_line (auth_line a) = Some a.
Proof.
  intros Hno Hse Hsp.
  destruct (strip_fixed_ends _ Hse) as [Hel _]. destruct (strip_fixed_ends _ Hsp) as [_ Hpr].
  unfold parse_auth_line, auth_line.
  rewrite (strip_app_nonspace _ _ _ colon_not_space), Hel, rstrip_newline, Hpr.
  rewrite bool_decide_eq_true_2.
  2:{ apply elem_of_app. right. apply elem_of_cons. by left. }
  replace (truthy (Some (email a ++ COLON :: password a))) with true
    by (by destruct (email a)).
  cbn [andb]. rewrite split_once_app by done. rewrite Hse, Hsp. by destruct a.
Qed.

Section LoadAccounts.

Variable w : World.

Lemma load_accounts_readable lines complete :
  load_accounts (Readable lines complete) w
  = {| value := Ret (complete && (0 <? length (omap parse_auth_line lines))%nat);
       world := {| accounts := omap parse_auth_line lines;
                   current_account_index := current_account_index w;
                   tts_request_count := tts_request_count w;
                   current_token := current_token w;
                   answered := answered w |};
       events := [] |}.
Proof. unfold load_accounts, set_accounts. run. by destruct complete. Qed.

(** X4: every account [load_accounts] stores has an email without a colon,
    and neither its email nor its password starts or ends with
    whitespace. *)
Theorem loaded_accounts_are_trimmed (lines : list pystr) (complete : bool) (a : Account) :
  a ∈ accounts (world (load_accounts (Readable lines complete) w)) →
  (COLON ∉ email a) ∧ strip (email a) = email a ∧ strip (password a) = password a.
Proof.
  rewrite load_accounts_readable. cbn [world accounts].
  intros (line & _ & Hline)%list_elem_of_omap. by eapply parse_auth_line_Some.
Qed.

(** X5: reading back a file written one account per line, email:password,
    gives the same accounts in the same order, provided no email holds a
    colon and no field starts or ends with whitespace; the result is True
    unless the list is empty. *)
Theorem load_accounts_reads_back (accs : list Account) :
  Forall (λ a, (COLON ∉ email a) ∧ strip (email a) = email a
               ∧ strip (password a) = password a) accs →
  accounts (world (load_accounts (Readable (auth_line <$> accs) true) w)) = accs
  ∧ value (load_accounts (Readable (auth_line <$> accs) true) w)
    = Ret (match accs with [] => false | _ :: _ => true end).
Proof.
  intros Hacc. rewrite load_accounts_readable. cbn [world accounts value andb].
  assert (omap parse_auth_line (auth_line <$> accs) = accs) as ->.
  { induction Hacc as [|a accs (Hno & He & Hp) _ IH]; [done|].
    cbn [fmap list_fmap omap list_omap]. rewrite parse_auth_line_written by done.
    f_equal. exact IH. }
  split; [done|]. by destruct accs.
Qed.

(** X6: a line adds an account exactly when it holds a colon (also a line
    that is nothing but a colon); the call returns True exactly when the
    file was read to its end and some line holds a colon; cursor, counter,
    cached token are left as they were and nothing is sent. *)
Theorem load_accounts_selects_colon_lines (lines : list pystr) (complete : bool) :
  let o := load_accounts (Readable lines complete) w in
  length (accounts (world o)) = length (filter (λ line, COLON ∈ line) lines)
  ∧ (value o = Ret true ↔ complete = true ∧ ∃ line, line ∈ lines ∧ COLON ∈ line)
  ∧ current_account_index (world o) = current_account_index w
  ∧ tts_request_count (world o) = tts_request_count w
  ∧ current_token (world o) = current_token w
  ∧ events o = []
  ∧ parse_auth_line [COLON] = Some {| email := []; password := [] |}.
Proof.
  cbv zeta. rewrite load_accounts_readable. cbn [world accounts value events
    current_account_index tts_request_count current_token].
  assert (length (omap parse_auth_line lines)
          = length (filter (λ line, COLON ∈ line) lines)) as Hlen.
  { induction lines as [|line lines IH]; [done|].
    cbn [omap list_omap]. rewrite filter_cons.
    destruct (parse_auth_line line) as [a|] eqn:E.
    - destruct (decide (COLON ∈ line)) as [Hin|Hno]; [cbn; by rewrite IH|].
      apply parse_auth_line_None in Hno. congruence.
    - apply parse_auth_line_None in E. by rewrite decide_False. }
  split; [done|]. split; [|done].
  rewrite Hlen. split.
  - intros [= H]. apply andb_prop in H as [-> Hpos]. split; [done|].
    apply Nat.ltb_lt in Hpos.
    destruct (filter (λ line, COLON ∈ line) lines) as [|line rest] eqn:E; [simpl in Hpos; lia|].
    assert (line ∈ filter (λ line, COLON ∈ line) lines) as Hf
      by (rewrite E; apply elem_of_cons; by left).
    apply list_elem_of_filter in Hf as [Hc Hin]. by exists line.
  - intros [-> (line & Hin & Hc)]. cbn [andb]. f_equal. apply Nat.ltb_lt.
    assert (line ∈ filter (λ line, COLON ∈ line) lines) as Hf
      by (by apply list_elem_of_filter).
    destruct (filter (λ line, COLON ∈ line) lines); [by apply elem_of_nil in Hf|]. simpl. lia.
Qed.

(** When the file cannot be opened, [load_accounts] returns False and
    leaves every global as it was; when the read breaks off, it returns
    False although the accounts read so far have replaced the old list. *)
Lemma load_accounts_failure_modes (lines : list pystr) :
  load_accounts CannotOpen w = {| value := Ret false; world := w; events := [] |}
  ∧ value (load_accounts (Readable lines false) w) = Ret false
  ∧ accounts (world (load_accounts (Readable lines false) w)) = omap parse_auth_line lines.
Proof. split; [done|]. by rewrite load_accounts_readable. Qed.

End LoadAccounts.

Lemma loaded_accounts_are_trimmed_witness :
  (COLON ∉ py "a@b.c") ∧ strip (py "a@b.c") = py "a@b.c" ∧ strip (py "p:w") = py "p:w".
Proof.
  apply (loaded_accounts_are_trimmed (initial_world []) [py "  a@b.c : p:w  "; py "junk"] true
           {| email := py "a@b.c"; password := py "p:w" |}).
  vm_compute. constructor.
Defined.

Lemma load_accounts_reads_back_witness :
  accounts (world (load_accounts (Readable (auth_line <$> three_accounts) true)
                     (initial_world [])))
  = three_accounts.
Proof.
  apply (load_accounts_reads_back (initial_world []) three_accounts).
  repeat constructor; try (by vm_compute);
    apply (bool_decide_unpack _); vm_compute; exact I.
Defined.

(** ** The text handed to [json.loads] *)

Lemma find_bounds c s : -1 ≤ find c s < Z.of_nat (length s) ∨ (s = [] ∧ find c s = -1).
Proof.
  induction s as [|x s IH]; [by right|]. left. cbn [find length].
  destruct (x =? c)%N; [lia|].
  destruct IH as [IH|[-> ->]]; [|cbn; lia].
  destruct (Z.eqb_spec (find c s) (-1)); lia.
Qed.

Lemma find_notin c s : c ∉ s → find c s = -1.
Proof.
  induction s as [|x s IH]; [done|]. intros [Hx Hs]%not_elem_of_cons. cbn [find].
  destruct (N.eqb_spec x c); [done|]. by rewrite IH.
Qed.

Lemma find_app_notin c pre s :
  c ∉ pre →
  find c (pre ++ s) = if find c s =? -1 then -1 else Z.of_nat (length pre) + find c s.
Proof.
  induction pre as [|x pre IH]; cbn [app find length].
  - intros _. destruct (Z.eqb_spec (find c s) (-1)); lia.
  - intros [Hx Hpre]%not_elem_of_cons. destruct (N.eqb_spec x c); [done|].
    rewrite IH by done. destruct (Z.eqb_spec (find c s) (-1)) as [Heq|Hne]; [done|].
    destruct (find_bounds c s) as [Hb|[_ Hb]]; [|done].
    destruct (Z.eqb_spec (Z.of_nat (length pre) + find c s) (-1)); lia.
Qed.

Lemma find_first c pre post : c ∉ pre → find c (pre ++ c :: post) = Z.of_nat (length pre).
Proof.
  intros Hpre. rewrite find_app_notin by done. cbn [find]. rewrite N.eqb_refl. cbn. lia.
Qed.

Lemma not_elem_of_rev (c : N) s : c ∉ s → c ∉ rev s.
Proof. intros H Hin. apply H. apply list_elem_of_In. apply in_rev. by apply list_elem_of_In. Qed.

Lemma rfind_notin c s : c ∉ s → rfind c s = -1.
Proof. intros H. unfold rfind. by rewrite find_notin by (by apply not_elem_of_rev). Qed.

Lemma rfind_app_notin c s post : c ∉ post → rfind c (s ++ post) = rfind c s.
Proof.
  intros Hpost. unfold rfind. rewrite rev_app_distr.
  rewrite find_app_notin by (by apply not_elem_of_rev).
  destruct (Z.eqb_spec (find c (rev s)) (-1)) as [Heq|Hne]; [done|].
  destruct (find_bounds c (rev s)) as [Hb|[_ Hb]]; [|done].
  rewrite length_rev in *. rewrite length_app.
  destruct (Z.eqb_spec (Z.of_nat (length post) + find c (rev s)) (-1)); lia.
Qed.

Lemma rfind_last c init : rfind c (init ++ [c]) = Z.of_nat (length init).
Proof.
  unfold rfind. rewrite rev_app_distr. cbn [rev app find]. rewrite N.eqb_refl.
  cbn [Z.eqb]. rewrite length_app. cbn [length]. lia.
Qed.

Lemma rfind_bounds c s : -1 ≤ rfind c s < Z.of_nat (length s) ∨ (s = [] ∧ rfind c s = -1).
Proof.
  destruct s as [|x s]; [by right|]. left. unfold rfind.
  destruct (find_bounds c (rev (x :: s))) as [Hb|[Hnil _]].
  - rewrite length_rev in Hb.
    destruct (Z.eqb_spec (find c (rev (x :: s))) (-1)); cbn [length] in *; lia.
  - apply (f_equal (@length N)) in Hnil. rewrite length_rev in Hnil. done.
Qed.

Lemma lstrip_elem s c : c ∈ lstrip s → c ∈ s.
Proof.
  destruct (lstrip_split s) as (ws & Hs & _). intros H. rewrite Hs.
  apply elem_of_app. by right.
Qed.

Lemma rstrip_elem s c : c ∈ rstrip s → c ∈ s.
Proof.
  destruct (rstrip_split s) as (ws & Hs & _). intros H. rewrite Hs.
  apply elem_of_app. by left.
Qed.

(** X7: whatever surrounds it (prose, code fences), the text from the first
    opening brace through the last closing brace is what [research.py]
    hands to [json.loads]. *)
Theorem extract_json_text_object (pre mid post : pystr) :
  LBRACE ∉ pre → RBRACE ∉ post →
  extract_json_text (pre ++ LBRACE :: mid ++ RBRACE :: post) = LBRACE :: mid ++ [RBRACE].
Proof.
  intros Hpre Hpost. unfold extract_json_text.
  rewrite (strip_app_nonspace pre LBRACE) by reflexivity.
  rewrite (rstrip_app_nonspace mid RBRACE) by reflexivity.
  assert (LBRACE ∉ lstrip pre) as Hpre' by (intros H; by apply lstrip_elem in H).
  assert (RBRACE ∉ rstrip post) as Hpost' by (intros H; by apply rstrip_elem in H).
  set (P := lstrip pre) in *. set (Q := rstrip post) in *.
  assert (find LBRACE (P ++ LBRACE :: mid ++ RBRACE :: Q) = Z.of_nat (length P)) as ->
    by (by apply find_first).
  assert (rfind RBRACE (P ++ LBRACE :: mid ++ RBRACE :: Q)
          = Z.of_nat (length P + S (length mid))) as ->.
  { assert (P ++ LBRACE :: mid ++ RBRACE :: Q = ((P ++ LBRACE :: mid) ++ [RBRACE]) ++ Q) as ->.
    { by rewrite <- !app_assoc. }
    rewrite rfind_app_notin by done. rewrite rfind_last, length_app. done. }
  destruct (Z.eqb_spec (Z.of_nat (length P)) (-1)); [lia|].
  destruct (Z.eqb_spec (Z.of_nat (length P + S (length mid)) + 1) (-1)); [lia|].
  cbn [negb andb]. unfold slice. rewrite Nat2Z.id, drop_app_length.
  assert (Z.to_nat (Z.of_nat (length P + S (length mid)) + 1 - Z.of_nat (length P))
          = length (LBRACE :: mid ++ [RBRACE])) as ->.
  { cbn [length]. rewrite length_app. cbn [length]. lia. }
  assert (LBRACE :: mid ++ RBRACE :: Q = (LBRACE :: mid ++ [RBRACE]) ++ Q) as ->.
  { cbn. by rewrite <- app_assoc. }
  apply take_app_length.
Qed.

Lemma extract_json_text_object_witness :
  extract_json_text (py "Here it is: ```json" ++ LBRACE :: py "a: {b: 1}" ++ RBRACE :: py "``` ")
  = LBRACE :: py "a: {b: 1}" ++ [RBRACE].
Proof.
  apply extract_json_text_object; apply (bool_decide_unpack _); vm_compute; exact I.
Defined.

(** X8: the fence-stripping branch of [research.py] is reached only by a
    response without an opening brace; a response whose first opening brace
    is followed by no closing brace gives the empty text, since
    [rfind(...) + 1] is never -1. *)
Theorem extract_json_text_unclosed (pre rest text : pystr) :
  (LBRACE ∉ text →
   extract_json_text text
   = strip (replace (py "```") [] (replace (py "```json") [] (strip text))))
  ∧ (LBRACE ∉ pre → RBRACE ∉ rest → extract_json_text (pre ++ LBRACE :: rest) = []).
Proof.
  split.
  - intros Hno. unfold extract_json_text.
    rewrite find_notin; [done|]. intros H. by apply strip_elem in H.
  - intros Hpre Hrest. unfold extract_json_text.
    rewrite (strip_app_nonspace pre LBRACE) by reflexivity.
    assert (LBRACE ∉ lstrip pre) as Hpre' by (intros H; by apply lstrip_elem in H).
    assert (RBRACE ∉ LBRACE :: rstrip rest) as Hrest'.
    { apply not_elem_of_cons. split; [done|]. intros H. by apply rstrip_elem in H. }
    rewrite find_first by done. rewrite rfind_app_notin by done.
    replace (negb (Z.of_nat (length (lstrip pre)) =? -1)) with true
      by (symmetry; apply negb_true_iff, Z.eqb_neq; lia).
    assert (-1 ≤ rfind RBRACE (lstrip pre) < Z.of_nat (length (lstrip pre))
            ∨ rfind RBRACE (lstrip pre) = -1) as Hb.
    { destruct (rfind_bounds RBRACE (lstrip pre)) as [?|[_ ?]]; [by left | by right]. }
    replace (negb (rfind RBRACE (lstrip pre) + 1 =? -1)) with true
      by (symmetry; apply negb_true_iff, Z.eqb_neq; lia).
    cbn [andb]. unfold slice.
    replace (Z.to_nat (rfind RBRACE (lstrip pre) + 1 - Z.of_nat (length (lstrip pre))))
      with 0%nat by lia.
    done.
Qed.

Lemma extract_json_text_unclosed_witness :
  extract_json_text (py "}} sorry " ++ LBRACE :: py " title: ") = [].
Proof.
  apply (extract_json_text_unclosed (py "}} sorry ") (py " title: ") []);
    apply (bool_decide_unpack _); vm_compute; exact I.
Defined.

Lemma fence_backticks : py "```" = [BACKTICK; BACKTICK; BACKTICK].
Proof. reflexivity. Qed.

Lemma replace_from_skip old new s k :
  replace_from old new s k = replace_from old new (drop k s) 0.
Proof.
  revert k. induction s as [|c s IH]; intros [|k]; try done. cbn [replace_from drop]. apply IH.
Qed.

Lemma replace_fence_triple s :
  replace (py "```") [] (BACKTICK :: BACKTICK :: BACKTICK :: s) = replace (py "```") [] s.
Proof.
  rewrite fence_backticks. unfold replace. cbn [replace_from starts_with length app].
  rewrite !N.eqb_refl. cbn [andb Nat.sub]. by rewrite replace_from_skip.
Qed.

Lemma replace_fence_other c s :
  starts_with (py "```") (c :: s) = false →
  replace (py "```") [] (c :: s) = c :: replace (py "```") [] s.
Proof. intros H. unfold replace. cbn [replace_from]. by rewrite H. Qed.

Lemma has_fence_other c t :
  starts_with (py "```") (c :: t) = false → has_fence (c :: t) = has_fence t.
Proof. intros H. cbn [has_fence]. by rewrite H. Qed.

Lemma starts_with_fence_1 c t : c ≠ BACKTICK → starts_with (py "```") (c :: t) = false.
Proof.
  intros Hc. rewrite fence_backticks. cbn [starts_with].
  by destruct (N.eqb_spec c BACKTICK).
Qed.

Lemma starts_with_fence_2 b c t : c ≠ BACKTICK → starts_with (py "```") (b :: c :: t) = false.
Proof.
  intros Hc. rewrite fence_backticks. cbn [starts_with].
  destruct (N.eqb_spec c BACKTICK); [done|]. by rewrite andb_false_r.
Qed.

Lemma starts_with_fence_3 a b c t :
  c ≠ BACKTICK → starts_with (py "```") (a :: b :: c :: t) = false.
Proof.
  intros Hc. rewrite fence_backticks. cbn [starts_with].
  destruct (N.eqb_spec c BACKTICK); [done|]. by rewrite !andb_false_r.
Qed.

(** Once the fences are replaced by nothing, no fence is left. *)
Lemma replace_fence_clean s : has_fence (replace (py "```") [] s) = false.
Proof.
  remember (length s) as n eqn:Hn.
  assert (length s ≤ n)%nat as Hle by lia. clear Hn.
  revert s Hle. induction n as [|n IH]; intros [|x1 s1] Hle; try done; [simpl in Hle; lia|].
  cbn [length] in Hle.
  destruct (decide (x1 = BACKTICK)) as [->|H1].
  2:{ rewrite replace_fence_other, has_fence_other by (by apply starts_with_fence_1).
      apply IH. lia. }
  destruct s1 as [|x2 s2]; [done|]. cbn [length] in Hle.
  destruct (decide (x2 = BACKTICK)) as [->|H2].
  2:{ rewrite replace_fence_other by (by apply starts_with_fence_2).
      rewrite (replace_fence_other x2) by (by apply starts_with_fence_1).
      rewrite has_fence_other by (by apply starts_with_fence_2).
      rewrite has_fence_other by (by apply starts_with_fence_1).
      apply IH. lia. }
  destruct s2 as [|x3 s3]; [done|]. cbn [length] in Hle.
  destruct (decide (x3 = BACKTICK)) as [->|H3].
  { rewrite replace_fence_triple. apply IH. lia. }
  rewrite replace_fence_other by (by apply starts_with_fence_3).
  rewrite (replace_fence_other BACKTICK) by (by apply starts_with_fence_2).
  rewrite (replace_fence_other x3) by (by apply starts_with_fence_1).
  rewrite has_fence_other by (by apply starts_with_fence_3).
  rewrite has_fence_other by (by apply starts_with_fence_2).
  rewrite has_fence_other by (by apply starts_with_fence_1).
  apply IH. lia.
Qed.

Lemma has_fence_infix pre post : has_fence (pre ++ py "```" ++ post) = true.
Proof.
  induction pre as [|c pre IH].
  - rewrite fence_backticks. cbn [app has_fence]. rewrite fence_backticks.
    cbn [starts_with]. by rewrite !N.eqb_refl.
  - cbn [app has_fence]. rewrite IH. apply orb_true_r.
Qed.

Lemma extract_json_text_no_brace text :
  LBRACE ∉ text →
  extract_json_text text
  = strip (replace (py "```") [] (replace (py "```json") [] (strip text))).
Proof.
  intros Hno. unfold extract_json_text.
  rewrite find_notin; [done|]. intros H. by apply strip_elem in H.
Qed.

(** X9: no code fence is left in the text [main.py] hands to [json.loads],
    nor in the text the fence-stripping branch of [research.py] hands
    over. *)
Theorem json_text_has_no_fence (text pre post : pystr) :
  fenced_json_text text ≠ pre ++ py "```" ++ post
  ∧ (LBRACE ∉ text → extract_json_text text ≠ pre ++ py "```" ++ post).
Proof.
  split.
  - intros H. pose proof (replace_fence_clean (replace (py "```json") [] (strip text))) as Hc.
    unfold fenced_json_text in H. rewrite H, has_fence_infix in Hc. done.
  - intros Hno H. rewrite extract_json_text_no_brace in H by done.
    pose proof (replace_fence_clean (replace (py "```json") [] (strip text))) as Hc.
    destruct (strip_infix (replace (py "```") [] (replace (py "```json") [] (strip text))))
      as (l & r & Hs & _).
    rewrite H in Hs. rewrite Hs in Hc.
    replace (l ++ (pre ++ py "```" ++ post) ++ r) with ((l ++ pre) ++ py "```" ++ (post ++ r))
      in Hc by (by rewrite <- !app_assoc).
    rewrite has_fence_infix in Hc. done.
Qed.

Lemma json_text_has_no_fence_witness :
  (LBRACE ∉ py " ```json [1, 2] ``` ")
  ∧ extract_json_text (py " ```json [1, 2] ``` ") ≠ py " ```json [1, 2] " ++ py "```" ++ py " ".
Proof.
  assert (LBRACE ∉ py " ```json [1, 2] ``` ") as H
    by (apply (bool_decide_unpack _); vm_compute; exact I).
  split; [exact H|].
  exact (proj2 (json_text_has_no_fence (py " ```json [1, 2] ``` ") (py " ```json [1, 2] ")
                  (py " ")) H).
Defined.

(** ** More on the token cache and the identity client *)

Lemma with_delays_cons rd p q ps :
  with_delays rd (p :: q :: ps) = p :: Sleep rd :: with_delays rd (q :: ps).
Proof. reflexivity. Qed.

Section SignIn.

Variable R : Remote.

Lemma firebase_attempts_shape mr rd key acct remaining attempt w :
  (attempt + S remaining = mr)%nat →
  let o := firebase_attempts R mr rd key acct (S remaining) attempt w in
  let post := IdentityPost key (email acct) (password acct) in
  ∃ j, (1 ≤ j ≤ S remaining)%nat
    ∧ answered (world o) = (answered w + j)%nat
    ∧ (∀ k, (k < j - 1)%nat → identity_refused (identity_service R (answered w + k)))
    ∧ match value o with
      | Ret (Some t) =>
          identity_service R (answered w + (j - 1)) = IdToken t
          ∧ events o = with_delays rd (replicate j post) ++ [TokenOK (email acct) t]
      | Ret None =>
          j = S remaining
          ∧ identity_refused (identity_service R (answered w + (j - 1)))
          ∧ events o = with_delays rd (replicate j post)
      | Raise e =>
          (e = KeyError ∧ identity_service R (answered w + (j - 1)) = IdNoToken
           ∨ e = TypeError ∧ identity_service R (answered w + (j - 1)) = IdNotObject)
          ∧ events o = with_delays rd (replicate j post)
      end.
Proof.
  revert attempt w. induction remaining as [|remaining IH]; intros attempt w Hmr.
  - cbv zeta. rewrite firebase_attempts_S. unfold identity_post. run.
    exists 1%nat. rewrite Nat.add_0_r.
    destruct (identity_service R (answered w)) eqn:Hresp; run.
    4,5: rewrite wait_before_retry_run;
      replace (attempt <? mr - 1)%nat with false
        by (symmetry; apply Nat.ltb_ge; lia); msimpl; cbn [firebase_attempts]; run.
    all: repeat split; try lia; try (intros; lia); try done.
    all: first [by left | by right].
  - cbv zeta. rewrite firebase_attempts_S. unfold identity_post. run.
    destruct (identity_service R (answered w)) eqn:Hresp; run.
    1,2,3: exists 1%nat; rewrite Nat.add_0_r; repeat split; try lia; try (intros; lia);
      first [done | by left | by right].
    all: rewrite wait_before_retry_run;
      replace (attempt <? mr - 1)%nat with true
        by (symmetry; apply Nat.ltb_lt; lia); msimpl.
    all: lazymatch goal with
      | |- context [firebase_attempts _ _ _ _ _ _ ?a ?w'] =>
          destruct (IH a w' ltac:(lia)) as (j & Hj & Hans & Hfail & Hval);
          destruct (firebase_attempts R mr rd key acct (S remaining) a w') as [v w'' evs]
      end; cbn -[firebase_attempts with_delays replicate] in *.
    all: exists (S j); split; [lia|]; split; [lia|].
    all: split;
      [ intros [|k] Hk;
        [ by rewrite Nat.add_0_r, Hresp
        | replace (answered w + S k)%nat with (S (answered w) + k)%nat by lia;
          apply Hfail; lia ] |].
    all: replace (answered w + (S j - 1))%nat with (S (answered w) + (j - 1))%nat by lia.
    all: destruct j as [|j]; [lia|].
    all: cbn [replicate]; rewrite with_delays_cons.
    all: destruct v as [[t|]|e]; cbn [app].
    all: first
      [ destruct Hval as (H1 & H2 & ->); repeat split; (done || lia)
      | destruct Hval as (H1 & ->); repeat split; done ].
Qed.

(** The runs of [get_firebase_token] that find no cached token. *)
Lemma sign_in_shape (w : World) (a : Account) (k : N) (key : pystr) :
  truthy (current_token w) = false →
  accounts w !! current_account_index w = Some a →
  FIREBASE_API_KEY R = Some (k :: key) →
  let o := get_firebase_token R w in
  let post := IdentityPost (k :: key) (email a) (password a) in
  ∃ j, (1 ≤ j ≤ 3)%nat
    ∧ answered (world o) = (answered w + j)%nat
    ∧ (∀ i, (i < j - 1)%nat → identity_refused (identity_service R (answered w + i)))
    ∧ match value o with
      | Ret (Some t) =>
          identity_service R (answered w + (j - 1)) = IdToken t
          ∧ events o = with_delays 3 (replicate j post) ++ [TokenOK (email a) t]
          ∧ current_token (world o) = Some t
      | Ret None =>
          j = 3%nat
          ∧ identity_refused (identity_service R (answered w + (j - 1)))
          ∧ events o = with_delays 3 (replicate j post)
          ∧ current_token (world o) = current_token w
      | Raise e =>
          (e = KeyError ∧ identity_service R (answered w + (j - 1)) = IdNoToken
           ∨ e = TypeError ∧ identity_service R (answered w + (j - 1)) = IdNotObject)
          ∧ events o = with_delays 3 (replicate j post)
          ∧ current_token (world o) = current_token w
      end.
Proof.
  intros Htok Ha Hkey. cbv zeta.
  unfold get_firebase_token, get_current_account. run. rewrite Htok. msimpl.
  destruct (accounts w) as [|a0 accs] eqn:Hacc; [by rewrite lookup_nil in Ha|]. msimpl.
  rewrite Ha. msimpl. rewrite Hkey. msimpl.
  destruct (firebase_attempts_shape 3 3 (k :: key) a 2 0 w eq_refl)
    as (j & Hj & Hans & Hfail & Hval).
  destruct (firebase_attempts_spec R 3 3 (k :: key) a 3 0 w) as (_ & _ & Ht).
  destruct (firebase_attempts R 3 3 (k :: key) a 3 0 w) as [v w' evs].
  cbn [value world events] in *.
  exists j. split; [done|]. split; [done|]. split; [done|].
  destruct v as [[t|]|e].
  - destruct Hval as (H1 & H2). by repeat split.
  - destruct Hval as (H1 & H2 & H3). by repeat split.
  - destruct Hval as (H1 & H2). by repeat split.
Qed.

(** X10: without a cached token, [get_firebase_token] sends between one and
    three sign-in requests, 3 seconds apart, with the current account's
    credentials; it returns None only after three refusals, returns and
    caches the token of the first answer that carries one, and raises on a
    200 answer whose JSON body carries no idToken: KeyError when the body is
    an object, TypeError when it is not. *)
Theorem sign_in_retries (w : World) (a : Account) (k : N) (key : pystr) :
  truthy (current_token w) = false →
  accounts w !! current_account_index w = Some a →
  FIREBASE_API_KEY R = Some (k :: key) →
  let o := get_firebase_token R w in
  let post := IdentityPost (k :: key) (email a) (password a) in
  ∃ j, (1 ≤ j ≤ 3)%nat
    ∧ answered (world o) = (answered w + j)%nat
    ∧ (∀ i, (i < j - 1)%nat → identity_refused (identity_service R (answered w + i)))
    ∧ match value o with
      | Ret (Some t) =>
          identity_service R (answered w + (j - 1)) = IdToken t
          ∧ events o = with_delays 3 (replicate j post) ++ [TokenOK (email a) t]
          ∧ current_token (world o) = Some t
      | Ret None =>
          j = 3%nat
          ∧ identity_refused (identity_service R (answered w + (j - 1)))
          ∧ events o = with_delays 3 (replicate j post)
          ∧ current_token (world o) = current_token w
      | Raise e =>
          (e = KeyError ∧ identity_service R (answered w + (j - 1)) = IdNoToken
           ∨ e = TypeError ∧ identity_service R (answered w + (j - 1)) = IdNotObject)
          ∧ events o = with_delays 3 (replicate j post)
          ∧ current_token (world o) = current_token w
      end.
Proof. exact (sign_in_shape w a k key). Qed.

(** The cached token is returned again as long as it is there. *)
Lemma get_firebase_token_again w c t :
  value (get_firebase_token R w) = Ret (Some (c :: t)) →
  get_firebase_token R (world (get_firebase_token R w))
  = {| value := Ret (Some (c :: t)); world := world (get_firebase_token R w); events := [] |}.
Proof.
  intros Hv. apply get_firebase_token_cached.
  destruct (get_firebase_token_spec R w) as (_ & _ & Ht). by rewrite Hv in Ht.
Qed.

End SignIn.

Lemma sign_in_retries_witness :
  ∃ j, (1 ≤ j ≤ 3)%nat
    ∧ answered (world (get_firebase_token R_flaky (initial_world three_accounts)))
      = (0 + j)%nat.
Proof.
  destruct (sign_in_retries R_flaky (initial_world three_accounts)
              {| email := py "a@example.com"; password := py "pa" |} 107%N (py "ey")
              eq_refl eq_refl eq_refl) as (j & Hj & Hans & _).
  by exists j.
Defined.

Example flaky_sign_in_trace :
  events (get_firebase_token R_flaky (initial_world three_accounts))
  = let post := IdentityPost (py "key") (py "a@example.com") (py "pa") in
    [post; Sleep 3; post; Sleep 3; post; TokenOK (py "a@example.com") (py "token")].
Proof. vm_compute. reflexivity. Qed.

(** ** More on the synthesis client *)

Lemma total_sleep_app evs1 evs2 :
  total_sleep (evs1 ++ evs2) = total_sleep evs1 + total_sleep evs2.
Proof.
  induction evs1 as [|e evs1 IH]; [done|]. destruct e; cbn [app total_sleep]; lia.
Qed.

Lemma total_sleep_posts rd account tok text voice stab attempt j :
  total_sleep (with_delays rd (posts_from account tok text voice stab attempt (S j)))
  = rd * Z.of_nat j.
Proof.
  revert attempt. induction j as [|j IH]; intros attempt; [cbn; lia|].
  specialize (IH (S attempt)). unfold posts_from in *.
  cbn [seq fmap list_fmap] in *. rewrite with_delays_cons. cbn [total_sleep].
  rewrite IH. lia.
Qed.

Lemma total_sleep_sign_in rd key e p j :
  total_sleep (with_delays rd (replicate (S j) (IdentityPost key e p))) = rd * Z.of_nat j.
Proof.
  induction j as [|j IH]; [cbn; lia|].
  cbn [replicate] in *. rewrite with_delays_cons. cbn [total_sleep]. rewrite IH. lia.
Qed.

Section Calls.

Variable R : Remote.

Lemma get_firebase_token_bounds w :
  let o := get_firebase_token R w in
  0 ≤ total_sleep (events o) ≤ 6
  ∧ (answered w ≤ answered (world o) ≤ answered w + 3)%nat.
Proof.
  cbv zeta. unfold get_firebase_token, get_current_account. run.
  destruct (truthy (current_token w)); msimpl; [lia|].
  destruct (accounts w) as [|a0 accs] eqn:Hacc; msimpl; [lia|].
  destruct ((a0 :: accs) !! current_account_index w) as [acct|]; msimpl; [|lia].
  destruct (truthy (FIREBASE_API_KEY R)); msimpl; [|lia].
  destruct (firebase_attempts_shape R 3 3 (default [] (FIREBASE_API_KEY R)) acct 2 0 w eq_refl)
    as (j & Hj & Hans & _ & Hval).
  destruct (firebase_attempts R 3 3 (default [] (FIREBASE_API_KEY R)) acct 3 0 w)
    as [v w' evs].
  cbn [value world events] in *. split; [|lia].
  destruct j as [|j]; [lia|].
  destruct v as [[t|]|e].
  - destruct Hval as (_ & ->). rewrite total_sleep_app, total_sleep_sign_in. cbn. lia.
  - destruct Hval as (_ & _ & ->). rewrite total_sleep_sign_in. lia.
  - destruct Hval as (_ & ->). rewrite total_sleep_sign_in. lia.
Qed.

(** What one call costs at most. *)
Lemma text_to_speech_v3_bounds (text voice : pystr) (emotions : option (list pystr))
    (w : World) :
  let o := text_to_speech_v3 R text voice emotions w in
  0 ≤ total_sleep (events o) ≤ 66
  ∧ (answered w ≤ answered (world o) ≤ answered w + 8)%nat.
Proof.
  cbv zeta.
  destruct (decide (accounts w ≠ [] ∨ (tts_request_count w < 2)%nat)) as [Hacc|Hno].
  - assert (answered (after_rotation_check w) = answered w) as Hr.
    { unfold after_rotation_check. by destruct (2 <=? tts_request_count w)%nat. }
    destruct (get_firebase_token_bounds (after_rotation_check w)) as [Hs Ha].
    rewrite Hr in Ha.
    destruct (text_to_speech_v3_unfold R text voice emotions w Hacc)
      as [(Hw & Hev & _) | (tok & _ & _ & _ & Hw & Hev)].
    + rewrite Hw, Hev. lia.
    + destruct (synthesis_attempts_spec R 5 15 tok text voice (stability_of emotions) 4 0
                  (counted (world (get_firebase_token R (after_rotation_check w)))) eq_refl)
        as (j & Hj & Hev2 & Hw2 & _).
      rewrite Hw, Hw2, Hev, Hev2, total_sleep_app.
      destruct j as [|j]; [lia|]. rewrite total_sleep_posts.
      cbn [answer_more counted answered]. lia.
  - assert (accounts w = [] ∧ (2 <=? tts_request_count w)%nat = true) as [Hacc Hc].
    { split.
      - destruct (accounts w); [done|]. exfalso. apply Hno. by left.
      - apply Nat.leb_le. destruct (Nat.le_gt_cases 2 (tts_request_count w)); [done|].
        exfalso. apply Hno. by right. }
    unfold text_to_speech_v3, should_rotate_account, rotate_account. run.
    rewrite Hc, Hacc. msimpl. lia.
Qed.

(** X11: one call to [text_to_speech_v3] blocks in [time.sleep] for at most
    66 seconds (two waits of 3 s while signing in, four of 15 s between
    synthesis attempts) and makes at most 8 remote calls. *)
Theorem call_waits_at_most_66_seconds (text voice : pystr) (emotions : option (list pystr))
    (w : World) :
  let o := text_to_speech_v3 R text voice emotions w in
  0 ≤ total_sleep (events o) ≤ 66
  ∧ (answered w ≤ answered (world o) ≤ answered w + 8)%nat.
Proof. exact (text_to_speech_v3_bounds text voice emotions w). Qed.

(** X12: when the identity service refuses all three sign-in requests of
    a call, the call returns None without sending a synthesis request and
    is not counted: the counter, the cursor and the token cache are as the
    rotation check at the start of the call left them.  They are unchanged
    when the counter was below 2; on a call that rotates, the cursor has
    moved on, the counter is 0 and no token is cached. *)
Theorem refused_sign_in_is_not_counted (text voice : pystr) (emotions : option (list pystr))
    (w : World) (a : Account) (k : N) (key : pystr) :
  let w0 := after_rotation_check w in
  truthy (current_token w0) = false →
  accounts w0 !! current_account_index w0 = Some a →
  FIREBASE_API_KEY R = Some (k :: key) →
  (∀ i, (i < 3)%nat → identity_refused (identity_service R (answered w + i))) →
  let o := text_to_speech_v3 R text voice emotions w in
  let post := IdentityPost (k :: key) (email a) (password a) in
  value o = Ret None
  ∧ events o = [post; Sleep 3; post; Sleep 3; post]
  ∧ accounts (world o) = accounts w
  ∧ ((tts_request_count w < 2)%nat →
     tts_request_count (world o) = tts_request_count w
     ∧ current_account_index (world o) = current_account_index w
     ∧ current_token (world o) = current_token w)
  ∧ ((2 ≤ tts_request_count w)%nat →
     tts_request_count (world o) = 0%nat
     ∧ current_account_index (world o)
       = ((current_account_index w + 1) mod length (accounts w))%nat
     ∧ current_token (world o) = None).
Proof.
  cbv zeta. intros Htok Ha Hkey Hrefused.
  assert (accounts (after_rotation_check w) = accounts w
          ∧ answered (after_rotation_check w) = answered w) as [Hacc Hans0].
  { unfold after_rotation_check. by destruct (2 <=? tts_request_count w)%nat. }
  assert (accounts w ≠ []) as Hne.
  { rewrite <- Hacc. intros Hnil. by rewrite Hnil, lookup_nil in Ha. }
  destruct (sign_in_shape R (after_rotation_check w) a k key Htok Ha Hkey)
    as (j & Hj & _ & _ & Hval).
  rewrite Hans0 in Hval.
  destruct (get_firebase_token_spec R (after_rotation_check w)) as ((Hpool & Hi & Hcount) & _ & _).
  pose proof (text_to_speech_v3_by_token R text voice emotions w (or_introl Hne)) as Hv.
  cbv zeta in Hv.
  destruct (value (get_firebase_token R (after_rotation_check w))) as [[t|]|e].
  - destruct Hval as (Hans & _). specialize (Hrefused (j - 1)%nat ltac:(lia)).
    by rewrite Hans in Hrefused.
  - destruct Hval as (-> & _ & Hev & Ht). destruct Hv as (-> & -> & ->).
    rewrite Hev, Hi, Hcount, Hpool, Ht, Hacc.
    split; [done|]. split; [done|]. split; [done|].
    unfold after_rotation_check. split; intros Hc.
    + by replace (2 <=? tts_request_count w)%nat with false
        by (symmetry; apply Nat.leb_gt; lia).
    + by replace (2 <=? tts_request_count w)%nat with true
        by (symmetry; apply Nat.leb_le; lia).
  - destruct Hval as ([[_ Hans]|[_ Hans]] & _); specialize (Hrefused (j - 1)%nat ltac:(lia));
      by rewrite Hans in Hrefused.
Qed.

(** X13: a call that returned audio and left the counter below 2 is followed
    by a call that sends no sign-in request: it goes straight to the
    synthesis service with the token of the previous call. *)
Theorem next_call_reuses_token (text voice text' voice' : pystr)
    (emotions emotions' : option (list pystr)) (w : World) (audio : bytes) :
  accounts w ≠ [] ∨ (tts_request_count w < 2)%nat →
  value (text_to_speech_v3 R text voice emotions w) = Ret (Some audio) →
  (tts_request_count (world (text_to_speech_v3 R text voice emotions w)) < 2)%nat →
  let w1 := world (text_to_speech_v3 R text voice emotions w) in
  ∃ token j,
    current_token w1 = Some token ∧ token ≠ [] ∧ (1 ≤ j ≤ 5)%nat
    ∧ events (text_to_speech_v3 R text' voice' emotions' w1)
      = with_delays 15 (posts_from (current_account_index w1) token text' voice'
                          (stability_of emotions') 0 j).
Proof.
  intros Hacc Hv Hc. cbv zeta.
  destruct (text_to_speech_v3_unfold R text voice emotions w Hacc)
    as [(_ & _ & Hno) | (tok & Hne & Hsome & _ & Hw & _)]; [by destruct (Hno audio)|].
  destruct (get_firebase_token_spec R (after_rotation_check w)) as (_ & _ & Ht).
  rewrite Hsome in Ht.
  destruct (synthesis_attempts_spec R 5 15 tok text voice (stability_of emotions) 4 0
              (counted (world (get_firebase_token R (after_rotation_check w)))) eq_refl)
    as (j0 & _ & _ & Hw2 & _).
  cbv zeta in Hw. rewrite Hw2 in Hw. clear Hw2.
  set (w1 := world (text_to_speech_v3 R text voice emotions w)) in *.
  assert (current_token w1 = Some tok) as Htok by (by rewrite Hw).
  assert (after_rotation_check w1 = w1) as Hr.
  { unfold after_rotation_check.
    by replace (2 <=? tts_request_count w1)%nat with false
      by (symmetry; apply Nat.leb_gt; lia). }
  destruct tok as [|c tok]; [done|].
  pose proof (get_firebase_token_cached R w1 c tok Htok) as Hcached.
  pose proof (text_to_speech_v3_by_token R text' voice' emotions' w1 (or_intror Hc)) as Hv'.
  cbv zeta in Hv'. rewrite Hr, Hcached in Hv'. cbn [value world events] in Hv'.
  destruct Hv' as (_ & _ & Hev').
  destruct (synthesis_attempts_spec R 5 15 (c :: tok) text' voice'
              (stability_of emotions') 4 0 (counted w1) eq_refl)
    as (j & Hj & Hev2 & _).
  exists (c :: tok), j. split; [done|]. split; [done|]. split; [done|].
  rewrite Hev'. cbn [app]. exact Hev2.
Qed.

(** A call that finds neither a token nor the means to fetch one. *)
Lemma text_to_speech_v3_no_credentials text voice emotions w :
  truthy (current_token w) = false →
  (tts_request_count w < 2)%nat →
  accounts w = []
  ∨ (current_account_index w < length (accounts w))%nat
    ∧ truthy (FIREBASE_API_KEY R) = false →
  text_to_speech_v3 R text voice emotions w
  = {| value := Ret None; world := w; events := [] |}.
Proof.
  intros Htok Hc Hcred.
  unfold text_to_speech_v3, should_rotate_account. run.
  replace (2 <=? tts_request_count w)%nat with false by (symmetry; apply Nat.leb_gt; lia).
  msimpl. unfold get_firebase_token, get_current_account. run. rewrite Htok. msimpl.
  destruct Hcred as [-> | [Hi Hkey]]; [done|].
  destruct (accounts w) as [|a0 accs] eqn:Hacc; [done|]. msimpl.
  destruct (lookup_lt_is_Some_2 (a0 :: accs) (current_account_index w) Hi) as [a ->].
  msimpl. by rewrite Hkey.
Qed.

(** X14: with an empty account pool, or without FIREBASE_API_KEY, no call of
    a run contacts a remote service: each returns None and the globals
    stay as the module initialised them. *)
Theorem no_credentials_no_requests (calls : list (pystr * pystr * list pystr))
    (accs : list Account) :
  accs = [] ∨ truthy (FIREBASE_API_KEY R) = false →
  synthesis_calls R calls (initial_world accs)
  = {| value := Ret (replicate (length calls) (Ret None));
       world := initial_world accs; events := [] |}.
Proof.
  intros Hcred.
  assert (∀ text voice emotions,
            text_to_speech_v3 R text voice emotions (initial_world accs)
            = {| value := Ret None; world := initial_world accs; events := [] |}) as Hcall.
  { intros text voice emotions. apply text_to_speech_v3_no_credentials; [done|cbn; lia|].
    cbn [initial_world accounts current_account_index].
    destruct accs as [|a accs]; [by left|]. right. split; [cbn; lia|].
    by destruct Hcred. }
  induction calls as [|[[text voice] emotions] calls IH]; [done|].
  cbn [synthesis_calls length replicate]. run. rewrite Hcall. msimpl.
  rewrite IH. by msimpl.
Qed.

End Calls.

Lemma refused_sign_in_is_not_counted_witness :
  let w := {| accounts := three_accounts; current_account_index := 0;
              tts_request_count := 2; current_token := Some (py "token");
              answered := 0 |} in
  let o := text_to_speech_v3 R_first_login_refused (py "hello") (py "mgugV8tLa3KQE4mfYTw5")
             None w in
  value o = Ret None
  ∧ tts_request_count (world o) = 0%nat
  ∧ current_account_index (world o) = 1%nat
  ∧ current_token (world o) = None.
Proof.
  cbv zeta.
  destruct (refused_sign_in_is_not_counted R_first_login_refused (py "hello")
              (py "mgugV8tLa3KQE4mfYTw5") None
              {| accounts := three_accounts; current_account_index := 0;
                 tts_request_count := 2; current_token := Some (py "token");
                 answered := 0 |}
              {| email := py "b@example.com"; password := py "pb" |} 107%N (py "ey")
              eq_refl eq_refl eq_refl)
    as (Hv & _ & _ & _ & Hrot).
  - intros i Hi. destruct i as [|[|[|i]]]; [vm_compute; exact I ..|lia].
  - destruct (Hrot ltac:(cbn; lia)) as (Hc & Hi & Ht).
    split; [exact Hv|]. split; [exact Hc|]. split; [exact Hi|]. exact Ht.
Defined.

Lemma next_call_reuses_token_witness :
  ∃ token j,
    current_token (world (text_to_speech_v3 R_always_ok (py "hello")
                            (py "mgugV8tLa3KQE4mfYTw5") None (initial_world three_accounts)))
    = Some token
    ∧ token ≠ [] ∧ (1 ≤ j ≤ 5)%nat
    ∧ events (text_to_speech_v3 R_always_ok (py "again") (py "mgugV8tLa3KQE4mfYTw5") None
                (world (text_to_speech_v3 R_always_ok (py "hello")
                          (py "mgugV8tLa3KQE4mfYTw5") None (initial_world three_accounts))))
      = with_delays 15
          (posts_from 0 token (py "again") (py "mgugV8tLa3KQE4mfYTw5") (stability_of None) 0 j).
Proof.
  refine (next_call_reuses_token R_always_ok (py "hello") (py "mgugV8tLa3KQE4mfYTw5")
            (py "again") (py "mgugV8tLa3KQE4mfYTw5") None None
            (initial_world three_accounts) ["x"%byte] _ _ _).
  - right. vm_compute. lia.
  - vm_compute. reflexivity.
  - vm_compute. lia.
Defined.

Lemma no_credentials_no_requests_witness :
  events (synthesis_calls R_always_ok seven_calls (initial_world [])) = [].
Proof.
  by rewrite (no_credentials_no_requests R_always_ok seven_calls [] (or_introl eq_refl)).
Defined.

(** ** More on the assembler *)

Lemma with_delays_Forall (P : event → Prop) delay posts :
  P (Sleep delay) → Forall P posts → Forall P (with_delays delay posts).
Proof.
  intros Hs. induction 1 as [|p ps Hp Hps IH]; [constructor|].
  destruct ps as [|q ps]; [by repeat constructor|].
  rewrite with_delays_cons. by repeat constructor.
Qed.

Lemma no_convert_filter evs :
  Forall (λ e, is_convert e = false) evs → filter (λ e, is_convert e = true) evs = [].
Proof.
  induction 1 as [|e evs He _ IH]; [done|].
  rewrite filter_cons, IH. destruct (decide (is_convert e = true)); [congruence|done].
Qed.

Lemma filter_convert_single voice text settings :
  filter (λ e, is_convert e = true) [Convert voice text settings]
  = [Convert voice text settings].
Proof. done. Qed.

Lemma on_schedule_frame w w' n :
  accounts w' = accounts w → current_account_index w' = current_account_index w →
  tts_request_count w' = tts_request_count w →
  on_schedule w n → on_schedule w' n.
Proof. intros Ha Hi Hc. unfold on_schedule. by rewrite Ha, Hi, Hc. Qed.

Lemma linked_frame w w' login :
  accounts w' = accounts w → current_account_index w' = current_account_index w →
  current_token w' = current_token w →
  linked w login → linked w' login.
Proof. intros Ha Hi Ht. unfold linked. by rewrite Ha, Hi, Ht. Qed.

Section Script.

Variable R : Remote.

(** A call sends nothing to the fallback client. *)
Lemma text_to_speech_v3_no_convert text voice emotions w :
  filter (λ e, is_convert e = true) (events (text_to_speech_v3 R text voice emotions w)) = [].
Proof.
  destruct (text_to_speech_v3_shape R text voice emotions w)
    as (pre & account & tok & j & Hq & _ & -> & _).
  apply no_convert_filter, Forall_app. split.
  - eapply Forall_impl; [exact Hq|]. by intros e [_ He].
  - apply with_delays_Forall; [done|]. unfold posts_from.
    apply Forall_fmap, Forall_true. by intros k.
Qed.

Lemma process_segment_silent tl segment w :
  speaks segment = false →
  process_segment R tl segment w = {| value := Ret tl; world := w; events := [] |}.
Proof.
  unfold speaks, process_segment. intros H.
  destruct (bool_decide (type segment = py "dialogue")); [|done].
  destruct (extract_emotion_and_text (text segment)) as [emotions cleaned].
  cbn [andb] in H. by rewrite H.
Qed.

(** One iteration on a dialogue segment whose speaker has a voice. *)
Lemma process_segment_speaking tl segment w :
  speaks segment = true →
  let voice := default [] (VOICE_MAPPING !! speaker segment) in
  let emotions := (extract_emotion_and_text (text segment)).1 in
  let cleaned := (extract_emotion_and_text (text segment)).2 in
  let start_time_ms := start_time segment * 1000 in
  let primary := text_to_speech_v3 R cleaned voice (Some emotions) w in
  let o := process_segment R tl segment w in
  let placed audio :=
    match from_mp3 R audio with
    | Ret n => Ret (place tl {| mp3 := audio; len := n |} start_time_ms)
    | Raise _ => Ret tl
    end in
  match value primary with
  | Ret (Some (b :: audio)) =>
      events o = events primary ∧ world o = world primary ∧ value o = placed (b :: audio)
  | Ret _ =>
      events o = events primary ++ [Convert voice cleaned default_voice_settings]
      ∧ world o = answer_more (world primary) 1
      ∧ value o = match convert_service R (answered (world primary)) with
                  | Ret audio => placed audio
                  | Raise _ => Ret tl
                  end
  | Raise _ => events o = events primary ∧ world o = world primary ∧ value o = Ret tl
  end.
Proof.
  unfold speaks. intros H. apply andb_true_iff in H as [Ht Hv]. cbv zeta.
  unfold process_segment. rewrite Ht.
  destruct (extract_emotion_and_text (text segment)) as [emotions cleaned].
  rewrite Hv. cbn [negb fst snd].
  generalize (default [] (VOICE_MAPPING !! speaker segment)). intros voice.
  unfold try_except, synthesize_and_place, convert, load_mp3. run.
  destruct (text_to_speech_v3 R cleaned voice (Some emotions) w)
    as [[[[|b audio]|]|e] w1 evs1]; msimpl.
  - unfold answer_more. rewrite Nat.add_1_r.
    destruct (convert_service R (answered w1)) as [fallback|e]; msimpl; [|done].
    by destruct (from_mp3 R fallback) as [n|e]; msimpl.
  - by destruct (from_mp3 R (b :: audio)) as [n|e]; msimpl; rewrite ?app_nil_r.
  - unfold answer_more. rewrite Nat.add_1_r.
    destruct (convert_service R (answered w1)) as [fallback|e]; msimpl; [|done].
    by destruct (from_mp3 R fallback) as [n|e]; msimpl.
  - done.
Qed.

(** X15: for a dialogue segment whose speaker has a voice, the fallback
    client is called exactly when the synthesis call returned a falsy
    value: None, or the empty body of a 200 answer.  Audio that is not
    empty is the clip that is placed, and a call that raises skips the
    segment without a fallback call. *)
Theorem fallback_exactly_on_falsy_audio (tl : Timeline) (segment : Segment) (w : World) :
  speaks segment = true →
  let voice := default [] (VOICE_MAPPING !! speaker segment) in
  let emotions := (extract_emotion_and_text (text segment)).1 in
  let cleaned := (extract_emotion_and_text (text segment)).2 in
  let primary := text_to_speech_v3 R cleaned voice (Some emotions) w in
  let o := process_segment R tl segment w in
  filter (λ e, is_convert e = true) (events o)
  = match value primary with
    | Ret (Some (_ :: _)) | Raise _ => []
    | Ret _ => [Convert voice cleaned default_voice_settings]
    end
  ∧ (∀ b audio n,
       value primary = Ret (Some (b :: audio)) → from_mp3 R (b :: audio) = Ret n →
       value o = Ret (place tl {| mp3 := b :: audio; len := n |} (start_time segment * 1000)))
  ∧ (∀ e, value primary = Raise e → value o = Ret tl ∧ events o = events primary).
Proof.
  intros Hs. cbv zeta.
  pose proof (process_segment_speaking tl segment w Hs) as H. cbv zeta in H.
  pose proof (text_to_speech_v3_no_convert (extract_emotion_and_text (text segment)).2
                (default [] (VOICE_MAPPING !! speaker segment))
                (Some (extract_emotion_and_text (text segment)).1) w) as Hno.
  destruct (value (text_to_speech_v3 R (extract_emotion_and_text (text segment)).2
                     (default [] (VOICE_MAPPING !! speaker segment))
                     (Some (extract_emotion_and_text (text segment)).1) w))
    as [[[|b audio]|]|e]; destruct H as (Hev & Hw & Hv); rewrite Hev.
  - rewrite filter_app, Hno. by repeat split.
  - split; [done|]. split; [|done]. intros b' audio' n [= <- <-] Hn.
    by rewrite Hv, Hn.
  - rewrite filter_app, Hno. by repeat split.
  - split; [done|]. split; [done|]. by intros e' _.
Qed.



Lemma process_segment_schedule tl segment w n login :
  accounts w ≠ [] → on_schedule w n → linked w login →
  let o := process_segment R tl segment w in
  accounts (world o) = accounts w
  ∧ on_schedule (world o) (n + first_attempts (events o))
  ∧ Forall (scheduled (length (accounts w))) (origins (events o) n)
  ∧ authentic (accounts w) login (events o)
  ∧ linked (world o) (login_after login (events o)).
Proof.
  intros Hacc Hn Hl. cbv zeta. destruct (speaks segment) eqn:Hs.
  - pose proof (process_segment_speaking tl segment w Hs) as H. cbv zeta in H.
    destruct (text_to_speech_v3_schedule R (extract_emotion_and_text (text segment)).2
                (default [] (VOICE_MAPPING !! speaker segment))
                (Some (extract_emotion_and_text (text segment)).1) w n Hacc Hn)
      as (Ha & Hsch & Hor & _).
    destruct (text_to_speech_v3_authentic R (extract_emotion_and_text (text segment)).2
                (default [] (VOICE_MAPPING !! speaker segment))
                (Some (extract_emotion_and_text (text segment)).1) w login Hacc Hl)
      as (_ & Hau & Hl').
    destruct (text_to_speech_v3 R (extract_emotion_and_text (text segment)).2
                (default [] (VOICE_MAPPING !! speaker segment))
                (Some (extract_emotion_and_text (text segment)).1) w) as [v w1 evs1].
    cbn [value world events] in *.
    assert (accounts (answer_more w1 1) = accounts w
            ∧ on_schedule (answer_more w1 1)
                (n + first_attempts (evs1 ++ [Convert (default [] (VOICE_MAPPING !! speaker segment))
                                                (extract_emotion_and_text (text segment)).2
                                                default_voice_settings]))
            ∧ Forall (scheduled (length (accounts w)))
                (origins (evs1 ++ [Convert (default [] (VOICE_MAPPING !! speaker segment))
                                     (extract_emotion_and_text (text segment)).2
                                     default_voice_settings]) n)
            ∧ authentic (accounts w) login
                (evs1 ++ [Convert (default [] (VOICE_MAPPING !! speaker segment))
                            (extract_emotion_and_text (text segment)).2
                            default_voice_settings])
            ∧ linked (answer_more w1 1)
                (login_after login
                   (evs1 ++ [Convert (default [] (VOICE_MAPPING !! speaker segment))
                               (extract_emotion_and_text (text segment)).2
                               default_voice_settings]))) as Hconv.
    { rewrite first_attempts_app, origins_app, login_after_app.
      cbn [first_attempts origins login_after]. rewrite Nat.add_0_r, app_nil_r.
      split; [done|]. split; [by apply (on_schedule_frame w1)|]. split; [done|].
      split; [by apply authentic_app|]. by apply (linked_frame w1). }
    destruct v as [[[|b audio]|]|e]; destruct H as (-> & -> & _); done.
  - rewrite (process_segment_silent tl segment w Hs). cbn [value world events].
    cbn [first_attempts origins authentic login_after]. rewrite Nat.add_0_r.
    by repeat split.
Qed.

Lemma mix_segments_schedule segments tl w n login :
  accounts w ≠ [] → on_schedule w n → linked w login →
  let o := mix_segments R tl segments w in
  Forall (scheduled (length (accounts w))) (origins (events o) n)
  ∧ authentic (accounts w) login (events o).
Proof.
  revert tl w n login.
  induction segments as [|segment segments IH]; intros tl w n login Hacc Hn Hl; cbv zeta.
  { cbn. by split. }
  destruct (process_segment_cases R tl segment w) as (tl' & Hv & _).
  destruct (mix_segments_cons R tl segment segments w tl' Hv) as (_ & _ & Hev).
  cbv zeta in Hev. rewrite Hev. clear Hev.
  destruct (process_segment_schedule tl segment w n login Hacc Hn Hl)
    as (Ha & Hsch & Hor & Hau & Hl').
  destruct (IH tl' (world (process_segment R tl segment w))
              (n + first_attempts (events (process_segment R tl segment w)))%nat
              (login_after login (events (process_segment R tl segment w))))
    as (Hor' & Hau'); [by rewrite Ha | done | done |].
  rewrite Ha in Hor', Hau'. rewrite origins_app. split.
  - apply Forall_app. by split.
  - by apply authentic_app.
Qed.

(** X17: the synthesis requests of a whole script follow the rotation
    schedule: the [N]-th request is sent under account
    [floor((N-1)/2) mod P], with the token of the latest sign-in, made for
    that account, whatever the fallback client is called in between. *)
Theorem assembler_follows_rotation_schedule (segments : list Segment)
    (accs : list Account) :
  accs ≠ [] →
  let evs := events (create_and_mix_audio R segments (initial_world accs)) in
  Forall (scheduled (length accs)) (origins evs 0) ∧ authentic accs None evs.
Proof.
  intros Hacc. unfold create_and_mix_audio.
  apply (mix_segments_schedule segments initial_timeline (initial_world accs) 0 None);
    [done | apply initial_world_on_schedule | by intros t Ht].
Qed.



Lemma process_segment_costs tl segment w :
  let o := process_segment R tl segment w in
  let n := if speaks segment then 1 else 0 in
  0 ≤ total_sleep (events o) ≤ 66 * n
  ∧ Z.of_nat (length (filter (λ e, is_convert e = true) (events o))) ≤ n
  ∧ (answered w ≤ answered (world o))%nat
  ∧ Z.of_nat (answered (world o)) ≤ Z.of_nat (answered w) + 9 * n.
Proof.
  cbv zeta. destruct (speaks segment) eqn:Hs.
  - pose proof (process_segment_speaking tl segment w Hs) as H. cbv zeta in H.
    pose proof (text_to_speech_v3_no_convert (extract_emotion_and_text (text segment)).2
                  (default [] (VOICE_MAPPING !! speaker segment))
                  (Some (extract_emotion_and_text (text segment)).1) w) as Hno.
    destruct (text_to_speech_v3_bounds R (extract_emotion_and_text (text segment)).2
                (default [] (VOICE_MAPPING !! speaker segment))
                (Some (extract_emotion_and_text (text segment)).1) w) as (Hsl & Han).
    destruct (text_to_speech_v3 R (extract_emotion_and_text (text segment)).2
                (default [] (VOICE_MAPPING !! speaker segment))
                (Some (extract_emotion_and_text (text segment)).1) w) as [v w1 evs1].
    cbn [value world events] in *.
    destruct v as [[[|b audio]|]|e]; destruct H as (-> & -> & _);
      rewrite ?filter_app, ?total_sleep_app, ?filter_convert_single, Hno;
      cbn [total_sleep length app answer_more answered]; lia.
  - rewrite (process_segment_silent tl segment w Hs).
    cbn [value world events total_sleep filter length]. change (filter _ []) with (@nil event).
    cbn [length]. lia.
Qed.

Lemma mix_segments_costs segments tl w :
  let o := mix_segments R tl segments w in
  let n := Z.of_nat (length (filter (λ segment, speaks segment = true) segments)) in
  0 ≤ total_sleep (events o) ≤ 66 * n
  ∧ Z.of_nat (length (filter (λ e, is_convert e = true) (events o))) ≤ n
  ∧ (answered w ≤ answered (world o))%nat
  ∧ Z.of_nat (answered (world o)) ≤ Z.of_nat (answered w) + 9 * n.
Proof.
  revert tl w. induction segments as [|segment segments IH]; intros tl w; cbv zeta.
  { cbn. lia. }
  destruct (process_segment_cases R tl segment w) as (tl' & Hv & _).
  destruct (mix_segments_cons R tl segment segments w tl' Hv) as (_ & Hw & Hev).
  cbv zeta in Hw, Hev. rewrite Hw, Hev. clear Hw Hev.
  pose proof (process_segment_costs tl segment w) as H1. cbv zeta in H1.
  pose proof (IH tl' (world (process_segment R tl segment w))) as H2. cbv zeta in H2.
  rewrite total_sleep_app, filter_app, length_app, filter_cons.
  destruct (decide (speaks segment = true)) as [Hs|Hs].
  - rewrite Hs in H1. cbn [length]. lia.
  - apply not_true_is_false in Hs. rewrite Hs in H1. lia.
Qed.

(** X19: what a script costs at most: per speaking segment 66 seconds of
    waiting, one fallback call and 9 remote calls.  Other segments cost
    nothing. *)
Theorem script_costs (segments : list Segment) (w : World) :
  let o := create_and_mix_audio R segments w in
  let n := Z.of_nat (length (filter (λ segment, speaks segment = true) segments)) in
  0 ≤ total_sleep (events o) ≤ 66 * n
  ∧ Z.of_nat (length (filter (λ e, is_convert e = true) (events o))) ≤ n
  ∧ (answered w ≤ answered (world o))%nat
  ∧ Z.of_nat (answered (world o)) ≤ Z.of_nat (answered w) + 9 * n.
Proof. unfold create_and_mix_audio. exact (mix_segments_costs segments initial_timeline w). Qed.

End Script.

Lemma fallback_exactly_on_falsy_audio_witness :
  filter (λ e, is_convert e = true)
    (events (process_segment R_primary_down initial_timeline host_line
               (initial_world three_accounts)))
  = [Convert (py "mgugV8tLa3KQE4mfYTw5") (py "hello there") default_voice_settings].
Proof.
  refine (proj1 (fallback_exactly_on_falsy_audio R_primary_down initial_timeline host_line
                   (initial_world three_accounts) _)).
  vm_compute. reflexivity.
Defined.

Lemma assembler_follows_rotation_schedule_witness :
  Forall (scheduled 3)
    (origins (events (create_and_mix_audio R_flaky [host_line; guest_line; opening_line]
                        (initial_world three_accounts))) 0).
Proof.
  refine (proj1 (assembler_follows_rotation_schedule R_flaky
                   [host_line; guest_line; opening_line] three_accounts _)).
  vm_compute. discriminate.
Defined.

(** ** The globals stay usable *)

Section Safety.

Variable R : Remote.

(** With the cursor inside the pool, a token fetch raises only on a 200
    answer without idToken. *)
Lemma get_firebase_token_raises w e :
  (current_account_index w < length (accounts w))%nat →
  value (get_firebase_token R w) = Raise e →
  ∃ n, (answered w ≤ n < answered (world (get_firebase_token R w)))%nat
     ∧ malformed_sign_in e (identity_service R n).
Proof.
  intros Hi.
  destruct (lookup_lt_is_Some_2 (accounts w) (current_account_index w) Hi) as [a Ha].
  destruct (truthy (current_token w)) eqn:Htok.
  { unfold get_firebase_token. run. by rewrite Htok. }
  destruct (FIREBASE_API_KEY R) as [[|k key]|] eqn:Hkey.
  1,3: unfold get_firebase_token, get_current_account; run; rewrite Htok; msimpl;
       destruct (accounts w) as [|a0 accs]; [done|]; msimpl; rewrite Ha; msimpl;
       by rewrite Hkey.
  destruct (sign_in_shape R w a k key Htok Ha Hkey) as (j & Hj & Hans & _ & Hval).
  intros Hv. rewrite Hv in Hval. destruct Hval as (Hno & _).
  exists (answered w + (j - 1))%nat. split; [lia | exact Hno].
Qed.

(** What every call keeps true of the globals: the cursor points into the
    pool, or the pool is empty and no request has been counted. *)
Lemma text_to_speech_v3_safe text voice emotions w :
  (current_account_index w < length (accounts w))%nat
  ∨ (accounts w = [] ∧ tts_request_count w = 0%nat ∧ truthy (current_token w) = false) →
  let o := text_to_speech_v3 R text voice emotions w in
  ((current_account_index (world o) < length (accounts (world o)))%nat
   ∨ (accounts (world o) = [] ∧ tts_request_count (world o) = 0%nat
      ∧ truthy (current_token (world o)) = false))
  ∧ ∀ e, value o = Raise e →
         ∃ n, (answered w ≤ n < answered (world o))%nat
            ∧ malformed_sign_in e (identity_service R n).
Proof.
  intros [Hi | (Hacc & Hc & Htok)]; cbv zeta.
  - assert (accounts w ≠ []) as Hne by (destruct (accounts w); [cbn in Hi; lia | done]).
    assert (accounts (after_rotation_check w) = accounts w
            ∧ answered (after_rotation_check w) = answered w
            ∧ (current_account_index (after_rotation_check w) < length (accounts w))%nat)
      as (Ha1 & Hn1 & Hi1).
    { unfold after_rotation_check. destruct (2 <=? tts_request_count w)%nat; [|done].
      cbn [rotated accounts answered current_account_index]. split; [done|]. split; [done|].
      apply Nat.mod_upper_bound. by destruct (accounts w). }
    destruct (get_firebase_token_spec R (after_rotation_check w)) as ((Ha2 & Hi2 & _) & _ & _).
    pose proof (get_firebase_token_raises (after_rotation_check w)) as Hraise.
    rewrite Ha1, Hn1 in Hraise.
    pose proof (text_to_speech_v3_by_token R text voice emotions w (or_introl Hne)) as H.
    cbv zeta in H.
    destruct (value (get_firebase_token R (after_rotation_check w))) as [[[|t tok]|]|e] eqn:Hv.
    + destruct H as (-> & -> & _). split; [|done]. left. by rewrite Ha2, Hi2, Ha1.
    + destruct H as (Hval & Hw & _).
      destruct (synthesis_attempts_spec R 5 15 (t :: tok) text voice (stability_of emotions) 4 0
                  (counted (world (get_firebase_token R (after_rotation_check w)))) eq_refl)
        as (j & _ & _ & Hw2 & _ & Hv2).
      rewrite Hw, Hw2, Hval. split.
      * left. cbn [answer_more counted accounts current_account_index].
        by rewrite Ha2, Hi2, Ha1.
      * intros e He. by rewrite He in Hv2.
    + destruct H as (-> & -> & _). split; [|done]. left. by rewrite Ha2, Hi2, Ha1.
    + destruct H as (-> & -> & _). split; [left; by rewrite Ha2, Hi2, Ha1|].
      intros e' [= <-]. by apply Hraise.
  - rewrite (text_to_speech_v3_no_credentials R text voice emotions w Htok) by (lia || by left).
    cbn [value world]. split; [by right | done].
Qed.

Lemma synthesis_calls_safe calls w :
  (current_account_index w < length (accounts w))%nat
  ∨ (accounts w = [] ∧ tts_request_count w = 0%nat ∧ truthy (current_token w) = false) →
  let o := synthesis_calls R calls w in
  (answered w ≤ answered (world o))%nat
  ∧ ∃ rs, value o = Ret rs ∧ length rs = length calls
      ∧ ∀ r e, r ∈ rs → r = Raise e →
          ∃ n, (answered w ≤ n < answered (world o))%nat
             ∧ malformed_sign_in e (identity_service R n).
Proof.
  revert w. induction calls as [|[[text voice] emotions] calls IH]; intros w Hsafe; cbv zeta.
  { cbn. split; [done|]. exists []. split; [done|]. split; [done|].
    intros r e Hr. by apply elem_of_nil in Hr. }
  destruct (text_to_speech_v3_safe text voice (Some emotions) w Hsafe) as (Hsafe1 & Hraise).
  destruct (text_to_speech_v3_bounds R text voice (Some emotions) w) as (_ & Hans & _).
  specialize (IH (world (text_to_speech_v3 R text voice (Some emotions) w)) Hsafe1).
  cbv zeta in IH. destruct IH as (Hans' & rs & Hv & Hlen & Hrs).
  cbn [synthesis_calls]. run.
  destruct (synthesis_calls R calls (world (text_to_speech_v3 R text voice (Some emotions) w)))
    as [v w' evs]. cbn [value world events] in *. subst v. msimpl.
  split; [lia|].
  exists (value (text_to_speech_v3 R text voice (Some emotions) w) :: rs).
  split; [done|]. split; [cbn; by rewrite Hlen|].
  intros r e [->|Hr]%elem_of_cons He.
  - destruct (Hraise e He) as (n & Hn & Hno). exists n. split; [lia|done].
  - destruct (Hrs r e Hr He) as (n & Hn & Hno). exists n. split; [lia|done].
Qed.

(** X20: started from the initial globals, with any pool (also an empty
    one), a run of synthesis calls never fails on its own state: the
    rotation never divides by zero and the cursor never leaves the pool.
    A call raises only what [r.json()['idToken']] raises on a 200 sign-in
    answer that carries no idToken: KeyError when the JSON body is an
    object, TypeError when it is not. *)
Theorem calls_raise_only_on_malformed_sign_in (calls : list (pystr * pystr * list pystr))
    (accs : list Account) :
  let o := synthesis_calls R calls (initial_world accs) in
  ∃ rs, value o = Ret rs ∧ length rs = length calls
    ∧ ∀ r e, r ∈ rs → r = Raise e →
        ∃ n, (n < answered (world o))%nat
           ∧ (e = KeyError ∧ identity_service R n = IdNoToken
              ∨ e = TypeError ∧ identity_service R n = IdNotObject).
Proof.
  cbv zeta.
  destruct (synthesis_calls_safe calls (initial_world accs)) as (_ & rs & Hv & Hlen & Hrs).
  { destruct accs as [|a accs]; [by right | left; cbn; lia]. }
  exists rs. split; [done|]. split; [done|].
  intros r e Hr He. destruct (Hrs r e Hr He) as (n & Hn & Hno).
  exists n. split; [lia | exact Hno].
Qed.

End Safety.

Example sign_in_not_object_trace :
  value (synthesis_calls R_sign_in_not_object seven_calls (initial_world three_accounts))
  = Ret (replicate 7 (Raise TypeError)).
Proof. by vm_compute. Qed.
